(** * Square-root unscented Kalman filter for parameter estimation

    A shallow embedding of [src/sysid/sr_ukf_parameter_estimation.c] and the
    properties its specification states about it, followed by further
    properties of the filter and of four small routines of the library
    ([mean], [stddev], [linsolve_lower_triangular], [filtfilt]).

    - Scalars.  The C code computes on [float].  Every function below is
      written once, over an interface [Scalar] that lists the operations the
      source uses; [b32_scalar] interprets it as IEEE-754 binary32 (round to
      nearest even, through the standard library's [SpecFloat]).  Theorems
      stated for every [Scalar] hold in particular of the binary32 program.
    - Memory.  The arrays of the program are the cells of a store [mem]; every
      subscript is bounds-checked and an access outside its array ends the run
      with [OutOfBounds].
    - Integers.  [uint8_t] sizes are natural numbers reduced modulo 256 where
      the source assigns them ([u8]); subscripts are computed in [int] and are
      never reduced. *)

From Stdlib Require Import ZArith Lia List.
From Stdlib Require Import Floats.SpecFloat.
From stdpp Require Import base decidable list functions.

Set Default Proof Using "Type".

(** ** The scalar interface *)

Class Scalar (F : Type) := {
  fzero : F;                 (* 0.0f, and the cell left by memset(..., 0, ...) *)
  fhalf : F;                 (* 0.5f *)
  fone : F;                  (* 1.0f *)
  fthree : F;                (* 3.0f *)
  of_nat : nat -> F;         (* conversion of an int operand to float *)
  fadd : F -> F -> F;
  fsub : F -> F -> F;
  fmul : F -> F -> F;
  fdiv : F -> F -> F;
  fsqrt : F -> F;            (* sqrtf *)
  fabs : F -> F;             (* fabsf *)
  fltb : F -> F -> bool      (* < *)
}.

Declare Scope scalar_scope.
Delimit Scope scalar_scope with fl.
Infix "+" := fadd : scalar_scope.
Infix "-" := fsub : scalar_scope.
Infix "*" := fmul : scalar_scope.
Infix "/" := fdiv : scalar_scope.

(** IEEE-754 binary32: 24 bits of precision, exponents below 128. *)
Definition b32 : Type := spec_float.
Definition b32_of_Z (z : Z) : b32 := binary_normalize 24 128 z 0 false.

#[export] Instance b32_scalar : Scalar b32 := {|
  fzero := S754_zero false;
  fhalf := SFdiv 24 128 (b32_of_Z 1) (b32_of_Z 2);
  fone := b32_of_Z 1;
  fthree := b32_of_Z 3;
  of_nat := fun n => b32_of_Z (Z.of_nat n);
  fadd := SFadd 24 128;
  fsub := SFsub 24 128;
  fmul := SFmul 24 128;
  fdiv := SFdiv 24 128;
  fsqrt := SFsqrt 24 128;
  fabs := SFabs;
  fltb := SFltb
|}.

(** ** Arrays *)

(** One name per array of the program: the five array arguments of
    [sr_ukf_parameter_estimation], then the variable-length arrays its
    functions declare.  Every call in the source passes to each array
    parameter the array of the same name, so the functions below address the
    arrays by these names. *)
Module Arr.
Inductive t : Set :=
| d | what | Re | x | Sw
| Wc | Wm | W | D | dhat | Sd | Pwd
| dw | w
| AT | Q | R | b
| diagonal_W | diagonal_WD
| SdT | SdTSd | K | ddhat | Kd | U | Uk.
End Arr.
Abbreviation arr := Arr.t.

#[export] Instance arr_eq_dec : EqDecision arr.
Proof. solve_decision. Defined.

(** [uint8_t v = e;] *)
Definition u8 (n : nat) : nat := n mod 256.

(** A subscript outside an array reads [fzero] in [!!!]; [load] below never
    lets that happen. *)
#[export] Instance scalar_inhabited {F : Type} `{Scalar F} : Inhabited F :=
  populate fzero.

Section Program.
Context {F : Type} `{Scalar F}.

Definition mem : Type := arr -> list F.

Inductive outcome (A : Type) : Type :=
| Done (a : A) (m : mem)
| OutOfBounds (X : arr) (i : nat).
#[global] Arguments Done {A} a m.
#[global] Arguments OutOfBounds {A} X i.

Definition prog (A : Type) : Type := mem -> outcome A.

(** The store [m] with the array [X] replaced by [l]. *)
Definition upd (X : arr) (l : list F) (m : mem) : mem :=
  fun Y => if decide (X = Y) then l else m Y.

Definition ret {A} (a : A) : prog A := fun m => Done a m.

Definition bind {A B} (c : prog A) (k : A -> prog B) : prog B :=
  fun m => match c m with
           | Done a m' => k a m'
           | OutOfBounds X i => OutOfBounds X i
           end.

(** [X[i]] as an rvalue, [X[i] = v;], and a declaration [float X[n];]
    (the cells of a fresh array are indeterminate in C; they are [fzero]
    here, and every function writes a cell before it reads it). *)
Definition load (X : arr) (i : nat) : prog F :=
  fun m => if i <? length (m X) then Done (m X !!! i) m else OutOfBounds X i.

Definition store (X : arr) (i : nat) (v : F) : prog unit :=
  fun m => if i <? length (m X)
           then Done tt (upd X (<[i := v]> (m X)) m)
           else OutOfBounds X i.

Definition alloc (X : arr) (n : nat) : prog unit :=
  fun m => Done tt (upd X (replicate n fzero) m).

(** An access to the first [n] cells of [X] by a library routine. *)
Definition extent (X : arr) (n : nat) : prog unit :=
  fun m => if n <=? length (m X) then Done tt m else OutOfBounds X (length (m X)).

Definition put (X : arr) (l : list F) : prog unit :=
  fun m => Done tt (upd X l m).

Definition get (X : arr) : prog (list F) := fun m => Done (m X) m.

(** [for (uint8_t i = lo; i < hi; i++) body] *)
Fixpoint for_loop (n i : nat) (body : nat -> prog unit) : prog unit :=
  match n with
  | O => ret tt
  | S n' => bind (body i) (fun _ => for_loop n' (S i) body)
  end.

Definition for_ (lo hi : nat) (body : nat -> prog unit) : prog unit :=
  for_loop (hi - lo) lo body.
End Program.

Arguments mem F : clear implicits.
Arguments outcome F A : clear implicits.
Arguments prog F A : clear implicits.

Declare Scope prog_scope.
Delimit Scope prog_scope with prog.
Notation "x ← y ; z" := (bind y (fun x => z))
  (at level 20, y at level 100, z at level 200) : prog_scope.
Notation "x ;; z" := (bind x (fun _ => z))
  (at level 100, z at level 200, right associativity) : prog_scope.
Open Scope prog_scope.

(** ** Library routines

    [tran], [mul], [qr], [cholupdate] and [inv] belong to the linear-algebra
    part of the library; [memset] and [memcpy] to the C library. *)

Section Routines.
Context {F : Type} `{Scalar F}.

(** Modelled from the spec: [tran] is missing from the sources; the spec
    gives it the standard contract of a matrix transpose.  [tran A row
    column] turns the row-major [row]x[column] matrix at the head of [A]
    into its [column]x[row] transpose, in place: cell [k] of the result is
    entry [(k / row, k mod row)] of the transpose, that is entry
    [(k mod row, k / row)] of [A]. *)
Definition tran (A : list F) (row column : nat) : list F :=
  ((fun k => A !!! ((k mod row) * column + k / row)) <$> seq 0 (row * column))
  ++ drop (row * column) A.

(** Modelled from the spec: [mul] is missing from the sources; the spec
    gives it the standard contract of a matrix product.  Entry [(i, j)] of
    the product accumulates [A[i,k] * B[k,j]] for [k] from 0 upwards,
    starting from zero; cell [k] of the result is entry
    [(k / column_b, k mod column_b)]. *)
Definition mul_entry (A B : list F) (column_a column_b i j : nat) : F :=
  fold_left
    (fun acc k =>
       (acc + A !!! (i * column_a + k)%nat * B !!! (k * column_b + j)%nat)%fl)
    (seq 0 column_a) fzero.

Definition mul (A B : list F) (row_a column_a column_b : nat) : list F :=
  (fun k => mul_entry A B column_a column_b (k / column_b) (k mod column_b))
  <$> seq 0 (row_a * column_b).

(** [memset(X, 0, n * sizeof(float))] *)
Definition memset0 (X : arr) (n : nat) : prog F unit :=
  extent X n ;;
  l ← get X ;
  put X (replicate n fzero ++ drop n l).

(** [memcpy(dst, src, n * sizeof(float))] *)
Definition memcpy (dst src : arr) (n : nat) : prog F unit :=
  extent dst n ;;
  extent src n ;;
  s ← get src ;
  t ← get dst ;
  put dst (take n s ++ drop n t).

Definition call_tran (X : arr) (row column : nat) : prog F unit :=
  extent X (row * column) ;;
  l ← get X ;
  put X (tran l row column).

Definition call_mul (A B C : arr) (row_a column_a column_b : nat) : prog F unit :=
  extent A (row_a * column_a) ;;
  extent B (column_a * column_b) ;;
  extent C (row_a * column_b) ;;
  a ← get A ;
  b ← get B ;
  c ← get C ;
  put C (mul a b row_a column_a column_b ++ drop (row_a * column_b) c).

(** The decompositions and the transition function are parameters.
    - [qr A row column reduced] is the pair of buffers [(Q, R)] that
      [qr(A, Q, R, row, column, reduced)] leaves;
    - [cholupdate S v n rank_one_update] is the buffer [S] after the rank-one
      update ([true]) or downdate ([false]) with the vector [v];
    - [inv A n] is the buffer [A] after the call together with the status
      the inverse reports ([false] for a singular matrix);
    - [G dw x w] is the content of the three arrays after the call
      [G(dw, x, w)]. *)
Variable qr : list F -> nat -> nat -> bool -> list F * list F.
Variable cholupdate : list F -> list F -> nat -> bool -> list F.
Variable inv : list F -> nat -> list F * bool.
Variable G : list F -> list F -> list F -> list F * list F * list F.

Definition call_qr (A Q R : arr) (row column : nat) (reduced : bool) : prog F unit :=
  extent A (row * column) ;;
  a ← get A ;
  put Q (qr a row column reduced).1 ;;
  put R (qr a row column reduced).2.

Definition call_cholupdate (S v : arr) (n : nat) (rank_one_update : bool) : prog F unit :=
  extent S (n * n) ;;
  extent v n ;;
  s ← get S ;
  u ← get v ;
  put S (cholupdate s u n rank_one_update).

(** The source calls [inv(SdTSd, L);] as a statement: the status is
    dropped. *)
Definition call_inv (A : arr) (n : nat) : prog F unit :=
  extent A (n * n) ;;
  a ← get A ;
  put A (inv a n).1.

Definition call_G (dw x w : arr) : prog F unit :=
  a ← get dw ;
  b ← get x ;
  c ← get w ;
  put dw (G a b c).1.1 ;;
  put x (G a b c).1.2 ;;
  put w (G a b c).2.

(** ** The filter *)

Definition create_weights (alpha beta kappa : F) (L : nat) : prog F unit :=
  let N := u8 (2 * L + 1) in
  let lambda := (alpha * alpha * (of_nat L + kappa) - of_nat L)%fl in
  store Arr.Wm 0 (lambda / (of_nat L + lambda))%fl ;;
  wm0 ← load Arr.Wm 0 ;
  store Arr.Wc 0 (wm0 + of_nat 1 - alpha * alpha + beta)%fl ;;
  for_ 1 N (fun i =>
    store Arr.Wc i (fhalf / (of_nat L + lambda))%fl ;;
    wc ← load Arr.Wc i ;
    store Arr.Wm i wc).

Definition scale_Sw_with_lambda_rls_factor (lambda_rls : F) (L : nat) : prog F unit :=
  let M := u8 (2 * L) in
  for_ 0 M (fun i =>
    s ← load Arr.Sw i ;
    store Arr.Sw i (s * (fone / fsqrt lambda_rls))%fl).

Definition create_sigma_point_matrix (alpha kappa : F) (L : nat) : prog F unit :=
  let N := u8 (2 * L + 1) in
  let K := u8 (L + 1) in
  let lambda := (alpha * alpha * (of_nat L + kappa) - of_nat L)%fl in
  let gamma := fsqrt (of_nat L + lambda)%fl in
  for_ 0 L (fun i =>
    v ← load Arr.what i ;
    store Arr.W (i * N) v) ;;
  for_ 1 K (fun j =>
    for_ 0 L (fun i =>
      v ← load Arr.what i ;
      s ← load Arr.Sw (i * L + j - 1) ;
      store Arr.W (i * N + j) (v + gamma * s)%fl)) ;;
  for_ K N (fun j =>
    for_ 0 L (fun i =>
      v ← load Arr.what i ;
      s ← load Arr.Sw (i * L + j - K) ;
      store Arr.W (i * N + j) (v - gamma * s)%fl)).

Definition compute_transistion_function (L : nat) : prog F unit :=
  let N := u8 (2 * L + 1) in
  alloc Arr.dw L ;;
  alloc Arr.w L ;;
  for_ 0 N (fun j =>
    for_ 0 L (fun i =>
      v ← load Arr.W (i * N + j) ;
      store Arr.w i v) ;;
    call_G Arr.dw Arr.x Arr.w ;;
    for_ 0 L (fun i =>
      v ← load Arr.dw i ;
      store Arr.D (i * N + j) v)).

Definition multiply_sigma_point_matrix_to_weights (L : nat) : prog F unit :=
  let N := u8 (2 * L + 1) in
  memset0 Arr.dhat L ;;
  for_ 0 N (fun j =>
    for_ 0 L (fun i =>
      acc ← load Arr.dhat i ;
      wm ← load Arr.Wm j ;
      v ← load Arr.D (i * N + j) ;
      store Arr.dhat i (acc + wm * v)%fl)).

Definition create_state_estimation_error_covariance_matrix (L : nat) : prog F unit :=
  let N := u8 (2 * L + 1) in
  let M := u8 (2 * L + L) in
  let K := u8 (2 * L) in
  wc1 ← load Arr.Wc 1 ;
  let weight1 := fsqrt (fabs wc1) in
  alloc Arr.AT (L * M) ;;
  alloc Arr.Q (M * M) ;;
  alloc Arr.R (M * L) ;;
  for_ 0 K (fun j =>
    for_ 0 L (fun i =>
      v ← load Arr.D (i * N + j + 1) ;
      h ← load Arr.dhat i ;
      store Arr.AT (i * M + j) (weight1 * (v - h))%fl)) ;;
  for_ K M (fun j =>
    for_ 0 L (fun i =>
      r ← load Arr.Re (i * L + j - K) ;
      store Arr.AT (i * M + j) (fsqrt r))) ;;
  call_tran Arr.AT L M ;;
  call_qr Arr.AT Arr.Q Arr.R M L true ;;
  memcpy Arr.Sd Arr.R (L * L) ;;
  alloc Arr.b L ;;
  for_ 0 L (fun i =>
    v ← load Arr.D (i * N) ;
    h ← load Arr.dhat i ;
    store Arr.b i (v - h)%fl) ;;
  wc0 ← load Arr.Wc 0 ;
  let rank_one_update := if fltb wc0 fzero then false else true in
  call_cholupdate Arr.Sd Arr.b L rank_one_update.

Definition create_state_cross_covariance_matrix (L : nat) : prog F unit :=
  let N := u8 (2 * L + 1) in
  let K := u8 (2 * L) in
  memset0 Arr.Pwd K ;;
  for_ 0 N (fun j =>
    for_ 0 L (fun i =>
      v ← load Arr.W (i * N + j) ;
      p ← load Arr.what i ;
      store Arr.W (i * N + j) (v - p)%fl ;;
      u ← load Arr.D (i * N + j) ;
      h ← load Arr.dhat i ;
      store Arr.D (i * N + j) (u - h)%fl)) ;;
  alloc Arr.diagonal_W (N * N) ;;
  memset0 Arr.diagonal_W (N * N) ;;
  for_ 0 N (fun i =>
    c ← load Arr.Wc i ;
    store Arr.diagonal_W (i * N + i) c) ;;
  call_tran Arr.D L N ;;
  alloc Arr.diagonal_WD (N * L) ;;
  call_mul Arr.diagonal_W Arr.D Arr.diagonal_WD N N L ;;
  call_mul Arr.W Arr.diagonal_WD Arr.Pwd L N L.

Definition update_state_covarariance_matrix_and_state_estimation_vector
    (L : nat) : prog F unit :=
  alloc Arr.SdT (L * L) ;;
  memcpy Arr.SdT Arr.Sd (L * L) ;;
  call_tran Arr.SdT L L ;;
  alloc Arr.SdTSd (L * L) ;;
  call_mul Arr.SdT Arr.Sd Arr.SdTSd L L L ;;
  call_inv Arr.SdTSd L ;;
  alloc Arr.K (L * L) ;;
  call_mul Arr.Pwd Arr.SdTSd Arr.K L L L ;;
  alloc Arr.ddhat L ;;
  alloc Arr.Kd L ;;
  for_ 0 L (fun i =>
    v ← load Arr.d i ;
    h ← load Arr.dhat i ;
    store Arr.ddhat i (v - h)%fl) ;;
  call_mul Arr.K Arr.ddhat Arr.Kd L L 1 ;;
  for_ 0 L (fun i =>
    p ← load Arr.what i ;
    k ← load Arr.Kd i ;
    store Arr.what i (p + k)%fl) ;;
  alloc Arr.U (L * L) ;;
  call_mul Arr.K Arr.Sd Arr.U L L L ;;
  alloc Arr.Uk L ;;
  for_ 0 L (fun j =>
    for_ 0 L (fun i =>
      u ← load Arr.U (i * L + j) ;
      store Arr.Uk i u) ;;
    call_cholupdate Arr.Sw Arr.Uk L false).

(** [kappa] is [3 - L] for parameter estimation. *)
Definition sr_ukf_parameter_estimation
    (lambda_rls alpha beta : F) (L : nat) : prog F unit :=
  let N := u8 (2 * L + 1) in
  alloc Arr.Wc N ;;
  alloc Arr.Wm N ;;
  let kappa := (fthree - of_nat L)%fl in
  create_weights alpha beta kappa L ;;
  scale_Sw_with_lambda_rls_factor lambda_rls L ;;
  alloc Arr.W (L * N) ;;
  create_sigma_point_matrix alpha kappa L ;;
  alloc Arr.D (L * N) ;;
  compute_transistion_function L ;;
  alloc Arr.dhat L ;;
  multiply_sigma_point_matrix_to_weights L ;;
  alloc Arr.Sd (L * L) ;;
  create_state_estimation_error_covariance_matrix L ;;
  alloc Arr.Pwd (L * L) ;;
  create_state_cross_covariance_matrix L ;;
  update_state_covarariance_matrix_and_state_estimation_vector L.
End Routines.

(** ** Specification vocabulary *)

Section Logic.
Context {F : Type} `{Scalar F}.

(** [wp c Q m]: from the store [m] the program [c] runs to completion,
    without a subscript out of range, and its result and final store
    satisfy [Q]. *)
Definition wp {A} (c : prog F A) (Q : A -> mem F -> Prop) (m : mem F) : Prop :=
  match c m with
  | Done a m' => Q a m'
  | OutOfBounds _ _ => False
  end.

(** [stored X k v m m']: the store [m'] is [m] after [X[k] = v]. *)
Definition stored (X : arr) (k : nat) (v : F) (m m' : mem F) : Prop :=
  m' = upd X (<[k := v]> (m X)) m.

(** [preserves X c]: whenever [c] completes, the array [X] holds what it
    held before. *)
Definition preserves {A} (X : arr) (c : prog F A) : Prop :=
  forall m a m', c m = Done a m' -> m' X = m X.

(** The quantities of the corrector, as functions of the arrays it reads:
    the Kalman gain, the innovation [d - dhat], a column of [U], and [Sw]
    after the downdates with the first [n] columns of [U]. *)
Variable cholupdate : list F -> list F -> nat -> bool -> list F.
Variable inv : list F -> nat -> list F * bool.

Definition gain (Sd Pwd : list F) (L : nat) : list F :=
  mul Pwd (inv (mul (tran Sd L L) Sd L L L) L).1 L L L.

Definition innovation (d dhat : list F) (L : nat) : list F :=
  (fun i => (d !!! i - dhat !!! i)%fl) <$> seq 0 L.

Definition column (U : list F) (L j : nat) : list F :=
  (fun i => U !!! (i * L + j)) <$> seq 0 L.

Definition downdates (Sw U : list F) (L n : nat) : list F :=
  fold_left (fun S j => cholupdate S (column U L j) L false) (seq 0 n) Sw.
End Logic.

(** ** Inputs for the examples *)

Section Examples.
Context {F : Type} `{Scalar F}.

(** The library routines where their result does not depend on how they
    are implemented: the decomposition [Q = I], [R = 0] of a zero matrix,
    the rank-one update with a zero vector (which leaves the factor as it
    is), and the inverse of a singular matrix, which reports failure and
    leaves its buffer untouched.  [inv_reporting_success] leaves the same
    buffer and reports success. *)
Definition qr_of_zero (A : list F) (row column : nat) (reduced : bool)
    : list F * list F :=
  ((fun k => if k / row =? k mod row then fone else fzero) <$> seq 0 (row * row),
   replicate (row * column) fzero).

Definition cholupdate_by_zero (S v : list F) (n : nat) (rank_one_update : bool)
    : list F := S.

Definition inv_of_singular (A : list F) (n : nat) : list F * bool := (A, false).

Definition inv_reporting_success (A : list F) (n : nat) : list F * bool :=
  (A, true).

(** A transition function that does not depend on the parameters:
    [dw = 0], [x] and [w] left as they are. *)
Definition G_zero (dw x w : list F) : list F * list F * list F :=
  (replicate (length dw) fzero, x, w).

(** A forgetting factor of one quarter: [1 / sqrt(lambda_rls)] is 2. *)
Definition quarter : F := (fone / of_nat 4)%fl.

(** Arrays of the sizes the filter declares for dimension [L], filled with
    1, 2, 3, ... *)
Definition size (L : nat) (X : arr) : nat :=
  match X with
  | Arr.d | Arr.what | Arr.x | Arr.dhat => L
  | Arr.Re | Arr.Sw | Arr.Sd | Arr.Pwd => L * L
  | Arr.Wc | Arr.Wm => 2 * L + 1
  | Arr.W | Arr.D => L * (2 * L + 1)
  | _ => 0
  end.

Definition sample (L : nat) : mem F := fun X => of_nat <$> seq 1 (size L X).

(** Two parameters, [what = 0], [Sw] the identity, no measurement noise. *)
Definition noiseless_input : mem F :=
  fun X =>
    match X with
    | Arr.d => [fone; fone]
    | Arr.what | Arr.x => [fzero; fzero]
    | Arr.Re => [fzero; fzero; fzero; fzero]
    | Arr.Sw => [fone; fzero; fzero; fone]
    | _ => []
    end.




End Examples.

(** Binary32 constants of the examples. *)
Definition b32_zero : b32 := fzero.
Definition b32_one : b32 := fone.
Definition b32_two : b32 := of_nat 2.




(** ** Vocabulary of the stages between the sigma points and the corrector *)

Section Vocabulary.
Context {F : Type} `{Scalar F}.

(** Column [j] of the [L]-row matrix of width [N] at the head of [A]. *)
Definition column_of (A : list F) (L N j : nat) : list F :=
  (fun i => A !!! (i * N + j)) <$> seq 0 L.

(** [acc = acc + Wm[j] * D[i * N + j]] for [j = 0, ..., n - 1], from zero. *)
Definition weighted_sum (Wm D : list F) (N i n : nat) : F :=
  fold_left (fun acc j => (acc + Wm !!! j * D !!! (i * N + j)%nat)%fl)
    (seq 0 n) fzero.

(** The [L]-row matrix of width [N] at the head of [A] with [v[i]]
    subtracted from every entry of row [i]. *)
Definition centred (A v : list F) (L N : nat) : list F :=
  (fun k => (A !!! k - v !!! (k / N)%nat)%fl) <$> seq 0 (L * N).

(** The [N]x[N] matrix with [v] on its diagonal and zero elsewhere. *)
Definition diagonal (v : list F) (N : nat) : list F :=
  (fun k => if k / N =? k mod N then v !!! (k / N) else fzero) <$> seq 0 (N * N).

(** [Sw] with its first [n] cells multiplied by [1 / sqrt(lambda_rls)]. *)
Definition rescaled (Sw : list F) (lambda_rls : F) (n : nat) : list F :=
  ((fun s => (s * (fone / fsqrt lambda_rls))%fl) <$> take n Sw) ++ drop n Sw.

(** A transition function that copies the sigma point: [dw = w] on the
    cells both arrays have. *)
Definition G_identity (dw x w : list F) : list F * list F * list F :=
  (take (length dw) w ++ drop (length w) dw, x, w).
End Vocabulary.

(** ** Other routines of the library

    [src/misc/mean.c], [src/misc/stddev.c],
    [src/linalg/linsolve_lower_triangular.c] and [src/filter/filtfilt.c].
    Their array parameters are names of arrays of the store; their
    [uint16_t] parameters are natural numbers, below 65536 at every call,
    and their subscripts are computed in [int]. *)

Section OtherRoutines.
Context {F : Type} `{Scalar F}.

(** [for (uint16_t i = lo; i < hi; i++) s = body i s], for a loop that
    updates a local of type [T]. *)
Fixpoint fold_loop {T} (n i : nat) (body : nat -> T -> prog F T) (s : T)
    : prog F T :=
  match n with
  | O => ret s
  | S n' => bind (body i s) (fun s' => fold_loop n' (S i) body s')
  end.

Definition fold_ {T} (lo hi : nat) (body : nat -> T -> prog F T) (s : T)
    : prog F T :=
  fold_loop (hi - lo) lo body s.

Definition mean (x : arr) (length : nat) : prog F F :=
  s ← fold_ 0 length (fun i s => v ← load x i ; ret (s + v)%fl) fzero ;
  ret (s / of_nat length)%fl.

(** [sqrt] is the double-precision square root of [math.h]; its result is
    converted to [float] by the [return], which gives the correctly
    rounded square root of the [float] argument, [fsqrt]. *)
Definition stddev (x : arr) (length : nat) : prog F F :=
  mu ← mean x length ;
  sigma ← fold_ 0 length
    (fun i sigma =>
       v ← load x i ;
       v' ← load x i ;
       ret (sigma + (v - mu) * (v' - mu))%fl) fzero ;
  ret (fsqrt (sigma / of_nat length)%fl).

Definition linsolve_lower_triangular (A x b : arr) (row : nat) : prog F unit :=
  memset0 x row ;;
  for_ 0 row (fun i =>
    sum ← fold_ 0 i
      (fun j sum =>
         a ← load A (row * i + j) ;
         v ← load x j ;
         ret (sum + a * v)%fl) fzero ;
    bi ← load b i ;
    aii ← load A (row * i + i) ;
    store x i ((bi - sum) / aii)%fl).

(** [-1 / K] and [1 / K] divide the [int] constants, converted to
    [float], by [K]; [-1.0f] is [0.0f - 1.0f]. *)
Definition simulation (K : F) (y t : arr) (l : nat) : prog F unit :=
  t1 ← load t 1 ;
  t0 ← load t 0 ;
  let h := (t1 - t0)%fl in
  x0 ← load y 0 ;
  fold_ 0 l
    (fun i x =>
       yi ← load y i ;
       let x' := (x + h * ((fzero - fone) / K * x + fone / K * yi))%fl in
       store y i x' ;;
       ret x') x0 ;;
  ret tt.

Definition flip (y : arr) (l : nat) : prog F unit :=
  for_ 0 (l / 2) (fun i =>
    temp ← load y i ;
    v ← load y (l - 1 - i) ;
    store y i v ;;
    store y (l - 1 - i) temp).

Definition filtfilt (y t : arr) (l : nat) (K : F) : prog F unit :=
  simulation K y t l ;;
  flip y l ;;
  simulation K y t l ;;
  flip y l.

(** The left-to-right sum of a list, from zero, and the sum of
    [A[row * i + j] * x[j]] over [j = 0, ..., n - 1]. *)
Definition total (l : list F) : F := fold_left fadd l fzero.

Definition row_sum (A x : list F) (row i n : nat) : F :=
  fold_left (fun acc j => (acc + A !!! (row * i + j)%nat * x !!! j)%fl)
    (seq 0 n) fzero.
End OtherRoutines.

(** * Proofs *)

(** ** The program logic *)

Section LogicLemmas.
Context {F : Type} `{Scalar F}.
Implicit Types (m : mem F) (X Y : arr) (l : list F).

Lemma upd_eq X l m : upd X l m X = l.
Proof. unfold upd. by rewrite decide_True. Qed.

Lemma upd_ne X Y l m : X <> Y -> upd X l m Y = m Y.
Proof. intros. unfold upd. by rewrite decide_False. Qed.

Lemma wp_ret {A} (a : A) (Q : A -> mem F -> Prop) m :
  Q a m -> wp (ret a) Q m.
Proof. done. Qed.

Lemma wp_bind {A B} (c : prog F A) (k : A -> prog F B) Q m :
  wp c (fun a m' => wp (k a) Q m') m -> wp (bind c k) Q m.
Proof. unfold wp, bind. by destruct (c m). Qed.

Lemma wp_mono {A} (c : prog F A) (Q Q' : A -> mem F -> Prop) m :
  wp c Q m -> (forall a m', Q a m' -> Q' a m') -> wp c Q' m.
Proof. unfold wp. destruct (c m); auto. Qed.

Lemma wp_done {A} (c : prog F A) Q m :
  wp c Q m -> exists a m', c m = Done a m' /\ Q a m'.
Proof. unfold wp. destruct (c m); [eauto | done]. Qed.

Lemma wp_load X i (Q : F -> mem F -> Prop) m :
  i < length (m X) -> Q (m X !!! i) m -> wp (load X i) Q m.
Proof.
  intros Hi HQ. unfold wp, load.
  destruct (Nat.ltb_spec i (length (m X))); [done | lia].
Qed.

Lemma wp_store X i (v : F) (Q : unit -> mem F -> Prop) m :
  i < length (m X) -> Q tt (upd X (<[i := v]> (m X)) m) ->
  wp (store X i v) Q m.
Proof.
  intros Hi HQ. unfold wp, store.
  destruct (Nat.ltb_spec i (length (m X))); [done | lia].
Qed.

Lemma wp_alloc X n (Q : unit -> mem F -> Prop) m :
  Q tt (upd X (replicate n fzero) m) -> wp (alloc X n) Q m.
Proof. done. Qed.

Lemma wp_put X l (Q : unit -> mem F -> Prop) m :
  Q tt (upd X l m) -> wp (put X l) Q m.
Proof. done. Qed.

Lemma wp_get X (Q : list F -> mem F -> Prop) m :
  Q (m X) m -> wp (get X) Q m.
Proof. done. Qed.

Lemma wp_extent X n (Q : unit -> mem F -> Prop) m :
  n <= length (m X) -> Q tt m -> wp (extent X n) Q m.
Proof.
  intros Hn HQ. unfold wp, extent.
  destruct (Nat.leb_spec n (length (m X))); [done | lia].
Qed.

Lemma wp_for_loop (I : nat -> mem F -> Prop) body n i m :
  I i m ->
  (forall k m', i <= k < i + n -> I k m' -> wp (body k) (fun _ => I (S k)) m') ->
  wp (for_loop n i body) (fun _ => I (i + n)) m.
Proof.
  revert i m. induction n as [|n IH]; intros i m Hi Hstep; simpl.
  - apply wp_ret. by rewrite Nat.add_0_r.
  - apply wp_bind. eapply wp_mono; [apply Hstep; [lia | done] |].
    intros [] m' Hm'. cbv beta in *.
    replace (i + S n) with (S i + n) by lia.
    apply IH; [done |]. intros k m'' Hk. apply Hstep. lia.
Qed.

(** The invariant rule for [for (i = lo; i < hi; i++)]. *)
Lemma wp_for (I : nat -> mem F -> Prop) lo hi body m :
  lo <= hi ->
  I lo m ->
  (forall i m', lo <= i < hi -> I i m' -> wp (body i) (fun _ => I (S i)) m') ->
  wp (for_ lo hi body) (fun _ => I hi) m.
Proof.
  intros Hle Hlo Hstep. unfold for_. eapply wp_mono.
  - apply (wp_for_loop I body (hi - lo) lo m); [done |].
    intros k m' Hk. apply Hstep. lia.
  - intros [] m' Hm'. cbv beta in *.
    by replace (lo + (hi - lo)) with hi in Hm' by lia.
Qed.

(** Programs that differ only in their continuations. *)
Lemma bind_ext {A B} (c : prog F A) (k1 k2 : A -> prog F B) m :
  (forall a m', k1 a m' = k2 a m') -> bind c k1 m = bind c k2 m.
Proof. intros Hk. unfold bind. destruct (c m); [apply Hk | done]. Qed.

(** *** Arrays left alone *)

Lemma preserves_ret {A} X (a : A) : preserves X (ret (F := F) a).
Proof. intros m a' m' [= _ ->]. done. Qed.

Lemma preserves_bind {A B} X (c : prog F A) (k : A -> prog F B) :
  preserves X c -> (forall a, preserves X (k a)) -> preserves X (bind c k).
Proof.
  intros Hc Hk m b m'. unfold bind.
  destruct (c m) as [a m1|] eqn:E; [| done].
  intros Hrun. rewrite (Hk a _ _ _ Hrun). eauto.
Qed.

Lemma preserves_load X Y i : preserves (F := F) X (load Y i).
Proof. intros m a m'. unfold load. by case_match; intros [= _ ->]. Qed.

Lemma preserves_get X Y : preserves (F := F) X (get Y).
Proof. by intros m a m' [= _ ->]. Qed.

Lemma preserves_extent X Y n : preserves (F := F) X (extent Y n).
Proof. intros m a m'. unfold extent. by case_match; intros [= _ ->]. Qed.

Lemma preserves_store X Y i (v : F) : Y <> X -> preserves X (store Y i v).
Proof.
  intros HXY m a m'. unfold store.
  case_match; [| done]. intros [= _ <-]. by apply upd_ne.
Qed.

Lemma preserves_alloc X Y n : Y <> X -> preserves (F := F) X (alloc Y n).
Proof. intros HXY m a m' [= _ <-]. by apply upd_ne. Qed.

Lemma preserves_put X Y l : Y <> X -> preserves X (put Y l).
Proof. intros HXY m a m' [= _ <-]. by apply upd_ne. Qed.

Lemma preserves_for_loop X (body : nat -> prog F unit) n i :
  (forall k, preserves X (body k)) -> preserves X (for_loop n i body).
Proof.
  intros Hbody. revert i. induction n as [|n IH]; intros i; simpl.
  - apply preserves_ret.
  - apply preserves_bind; [apply Hbody | intros _; apply IH].
Qed.

Lemma preserves_for X lo hi (body : nat -> prog F unit) :
  (forall k, preserves X (body k)) -> preserves X (for_ lo hi body).
Proof. apply preserves_for_loop. Qed.
End LogicLemmas.

(** ** Lists and subscripts *)

Section ListLemmas.
Context {F : Type} `{Scalar F}.
Implicit Types (l : list F).

Lemma u8_small n : n < 256 -> u8 n = n.
Proof. apply Nat.mod_small. Qed.

Lemma u8_le n : u8 n <= n.
Proof. apply Nat.Div0.mod_le. Qed.

(** Distinct cells of a row-major matrix of width [N] have distinct
    subscripts. *)
Lemma cell_inj N i j i' j' :
  j < N -> j' < N -> i * N + j = i' * N + j' -> i = i' /\ j = j'.
Proof.
  intros Hj Hj' Heq.
  assert (j = j') as ->.
  { apply (f_equal (fun k => k mod N)) in Heq.
    rewrite !(Nat.add_comm (_ * N)), !Nat.Div0.mod_add in Heq.
    by rewrite !Nat.mod_small in Heq. }
  split; [| done]. apply Nat.add_cancel_r in Heq.
  apply Nat.mul_cancel_r in Heq; [done | lia].
Qed.

Lemma list_eq_tabulate l n (f : nat -> F) :
  length l = n -> (forall i, i < n -> l !!! i = f i) -> l = f <$> seq 0 n.
Proof.
  intros Hlen Hf.
  apply (list_eq_same_length _ _ n); [by rewrite length_fmap, length_seq | done |].
  intros i a b Hi Ha Hb.
  rewrite list_lookup_fmap, lookup_seq_lt in Hb by done. simpl in Hb.
  apply list_lookup_total_correct in Ha. rewrite Hf in Ha by done. congruence.
Qed.


Lemma list_eq_lookup_total l l' :
  length l = length l' -> (forall i, i < length l -> l !!! i = l' !!! i) -> l = l'.
Proof.
  intros Hlen Hl.
  apply (list_eq_same_length _ _ (length l)); [done | done |].
  intros i a b Hi Ha Hb.
  apply list_lookup_total_correct in Ha, Hb. rewrite <- Ha, <- Hb. auto.
Qed.

Lemma length_tran l row column :
  row * column <= length l -> length (tran l row column) = length l.
Proof.
  intros Hle. unfold tran.
  rewrite length_app, length_drop, length_fmap, length_seq. lia.
Qed.

Lemma length_mul (A B : list F) row_a column_a column_b :
  length (mul A B row_a column_a column_b) = row_a * column_b.
Proof. unfold mul. by rewrite length_fmap, length_seq. Qed.
End ListLemmas.

(** ** Tactics *)

Ltac mem_simpl :=
  repeat first
    [ rewrite upd_eq
    | rewrite upd_ne by congruence
    | rewrite length_insert
    | rewrite length_replicate
    | rewrite length_app
    | rewrite length_take
    | rewrite length_drop
    | rewrite length_fmap
    | rewrite length_seq
    | rewrite length_mul
    | rewrite length_tran by (mem_simpl; lia) ].

Ltac list_simpl :=
  repeat first
    [ rewrite drop_ge by (mem_simpl; lia)
    | rewrite take_ge by (mem_simpl; lia)
    | rewrite app_nil_r ].

(** One command at a time: [wp_step] peels the binds in front of the next
    command and applies its rule; the bounds check is left to [lia], or to the
    tactic given after [by]. *)
Ltac wp_head :=
  repeat lazymatch goal with |- wp (bind _ _) _ _ => apply wp_bind end.

Ltac wp_step_with tac :=
  wp_head;
  lazymatch goal with
  | |- wp (ret _) _ _ => apply wp_ret
  | |- wp (load _ _) _ _ => apply wp_load; [solve [mem_simpl; tac] | cbv beta]
  | |- wp (store _ _ _) _ _ => apply wp_store; [solve [mem_simpl; tac] | cbv beta]
  | |- wp (alloc _ _) _ _ => apply wp_alloc; cbv beta
  | |- wp (put _ _) _ _ => apply wp_put; cbv beta
  | |- wp (get _) _ _ => apply wp_get; cbv beta
  | |- wp (extent _ _) _ _ => apply wp_extent; [solve [mem_simpl; tac] | cbv beta]
  end.

Tactic Notation "wp_step" := wp_step_with ltac:(lia).
Tactic Notation "wp_step" "by" tactic3(tac) := wp_step_with ltac:(tac).
Ltac wp_run := repeat wp_step; wp_head.
Tactic Notation "wp_loop" uconstr(lem) := wp_head; eapply wp_mono; [eapply lem |].

Ltac preserves_step :=
  first
    [ apply preserves_bind; [| intros ?]
    | apply preserves_for; intros ?
    | apply preserves_ret
    | apply preserves_load
    | apply preserves_get
    | apply preserves_extent
    | apply preserves_store; discriminate
    | apply preserves_alloc; discriminate
    | apply preserves_put; discriminate ].

Ltac preserves_auto := repeat preserves_step.

(** ** Loops that fill an array *)

Section Loops.
Context {F : Type} `{Scalar F}.
Implicit Types (m : mem F) (X Y : arr) (l : list F).

(** A loop whose body amounts to [X[idx i] = val i (X[idx i])], over
    distinct cells. *)
Lemma wp_for_fill X (idx : nat -> nat) (val : nat -> F -> F) lo hi body m :
  lo <= hi ->
  (forall i, lo <= i < hi -> idx i < length (m X)) ->
  (forall i i', lo <= i < hi -> lo <= i' < hi -> idx i = idx i' -> i = i') ->
  (forall i m', lo <= i < hi ->
     (forall Y, Y <> X -> m' Y = m Y) -> length (m' X) = length (m X) ->
     wp (body i) (fun _ => stored X (idx i) (val i (m' X !!! idx i)) m') m') ->
  wp (for_ lo hi body)
    (fun _ m' =>
       (forall Y, Y <> X -> m' Y = m Y) /\
       length (m' X) = length (m X) /\
       (forall i, lo <= i < hi -> m' X !!! idx i = val i (m X !!! idx i)) /\
       (forall k, (forall i, lo <= i < hi -> idx i <> k) -> m' X !!! k = m X !!! k)) m.
Proof.
  intros Hle Hin Hinj Hbody. eapply wp_mono.
  - apply (wp_for (fun n m' =>
       (forall Y, Y <> X -> m' Y = m Y) /\
       length (m' X) = length (m X) /\
       (forall i, lo <= i < n -> m' X !!! idx i = val i (m X !!! idx i)) /\
       (forall k, (forall i, lo <= i < n -> idx i <> k) -> m' X !!! k = m X !!! k)));
      [done | |].
    + split; [done |]. split; [done |]. split; [intros; lia | done].
    + intros n m' Hn (Hfr & Hlen & Hset & Hrest).
      eapply wp_mono; [by apply Hbody |].
      intros [] m'' ->. split; [| split; [| split]].
      * intros Y HY. mem_simpl. auto.
      * by mem_simpl.
      * intros i Hi. mem_simpl. destruct (decide (i = n)) as [->|Hne].
        -- rewrite list_lookup_total_insert_eq by (rewrite Hlen; auto).
           f_equal. apply Hrest. intros i Hi' Heq. apply Hinj in Heq; lia.
        -- rewrite list_lookup_total_insert_ne.
           ++ apply Hset. lia.
           ++ intros Heq. apply Hinj in Heq; lia.
      * intros k Hk. mem_simpl. rewrite list_lookup_total_insert_ne.
        -- apply Hrest. intros i Hi. apply Hk. lia.
        -- apply Hk. lia.
  - intros [] m' Hm'. exact Hm'.
Qed.

(** Columns [a] to [b - 1] of the [L]-row matrix of width [N] in [X],
    filled column by column with [X[i * N + j] = val i j]. *)
Lemma wp_for_fill_columns X N L a b (val : nat -> nat -> F) body m :
  a <= b <= N ->
  L * N <= length (m X) ->
  (forall i j m', i < L -> a <= j < b ->
     (forall Y, Y <> X -> m' Y = m Y) -> length (m' X) = length (m X) ->
     wp (body j i) (fun _ => stored X (i * N + j) (val i j) m') m') ->
  wp (for_ a b (fun j => for_ 0 L (body j)))
    (fun _ m' =>
       (forall Y, Y <> X -> m' Y = m Y) /\
       length (m' X) = length (m X) /\
       (forall i j, i < L -> a <= j < b -> m' X !!! (i * N + j) = val i j) /\
       (forall k, (forall i j, i < L -> a <= j < b -> i * N + j <> k) ->
          m' X !!! k = m X !!! k)) m.
Proof.
  intros Hab HL Hbody. eapply wp_mono.
  - apply (wp_for (fun n m' =>
       (forall Y, Y <> X -> m' Y = m Y) /\
       length (m' X) = length (m X) /\
       (forall i j, i < L -> a <= j < n -> m' X !!! (i * N + j) = val i j) /\
       (forall k, (forall i j, i < L -> a <= j < n -> i * N + j <> k) ->
          m' X !!! k = m X !!! k))); [lia | |].
    + split; [done |]. split; [done |]. split; [intros; lia | done].
    + intros j m1 Hj (Hfr & Hlen & Hset & Hrest).
      eapply wp_mono.
      * apply (wp_for_fill X (fun i => i * N + j) (fun i _ => val i j) 0 L).
        -- lia.
        -- intros i Hi. rewrite Hlen. nia.
        -- intros i i' _ _ Heq. apply cell_inj in Heq; [tauto | lia | lia].
        -- intros i m' Hi Hfr' Hlen'. apply Hbody; [lia | lia | | congruence].
           intros Y HY. rewrite Hfr' by done. auto.
      * intros [] m2 (Hfr2 & Hlen2 & Hset2 & Hrest2). cbv beta in *.
        split; [| split; [| split]].
        -- intros Y HY. rewrite Hfr2 by done. auto.
        -- congruence.
        -- intros i j' Hi Hj'. destruct (decide (j' = j)) as [->|Hne].
           ++ apply Hset2. lia.
           ++ rewrite Hrest2; [apply Hset; lia |].
              intros i' Hi' Heq. apply cell_inj in Heq; lia.
        -- intros k Hk. rewrite Hrest2; [apply Hrest |].
           ++ intros i j' Hi Hj'. apply Hk; lia.
           ++ intros i Hi. apply Hk; lia.
  - intros [] m' Hm'. exact Hm'.
Qed.
End Loops.

(** ** The stages *)

Section Stages.
Context {F : Type} `{Scalar F}.
Implicit Types (m : mem F) (X Y : arr) (l : list F).

Lemma create_weights_spec (alpha beta kappa : F) (L : nat) m :
  L <= 127 ->
  length (m Arr.Wc) = 2 * L + 1 ->
  length (m Arr.Wm) = 2 * L + 1 ->
  let lambda := (alpha * alpha * (of_nat L + kappa) - of_nat L)%fl in
  wp (create_weights alpha beta kappa L)
    (fun _ m' =>
       (forall Y, Y <> Arr.Wc -> Y <> Arr.Wm -> m' Y = m Y) /\
       length (m' Arr.Wc) = 2 * L + 1 /\
       length (m' Arr.Wm) = 2 * L + 1 /\
       m' Arr.Wm !!! 0 = (lambda / (of_nat L + lambda))%fl /\
       m' Arr.Wc !!! 0 =
         (lambda / (of_nat L + lambda) + of_nat 1 - alpha * alpha + beta)%fl /\
       forall i, 1 <= i <= 2 * L ->
         m' Arr.Wm !!! i = (fhalf / (of_nat L + lambda))%fl /\
         m' Arr.Wc !!! i = (fhalf / (of_nat L + lambda))%fl) m.
Proof.
  intros HL HWc HWm lambda. unfold create_weights.
  rewrite u8_small by lia. fold lambda.
  wp_run. mem_simpl. rewrite list_lookup_total_insert_eq by lia.
  eapply wp_mono.
  - apply (wp_for (fun n m' =>
       (forall Y, Y <> Arr.Wc -> Y <> Arr.Wm -> m' Y = m Y) /\
       length (m' Arr.Wc) = 2 * L + 1 /\
       length (m' Arr.Wm) = 2 * L + 1 /\
       m' Arr.Wm !!! 0 = (lambda / (of_nat L + lambda))%fl /\
       m' Arr.Wc !!! 0 =
         (lambda / (of_nat L + lambda) + of_nat 1 - alpha * alpha + beta)%fl /\
       forall i, 1 <= i < n ->
         m' Arr.Wm !!! i = (fhalf / (of_nat L + lambda))%fl /\
         m' Arr.Wc !!! i = (fhalf / (of_nat L + lambda))%fl)); [lia | |].
    + split; [intros Y ? ?; by mem_simpl |].
      split; [by mem_simpl |]. split; [by mem_simpl |].
      split; [mem_simpl; by rewrite list_lookup_total_insert_eq by lia |].
      split; [mem_simpl; by rewrite list_lookup_total_insert_eq by lia |].
      intros; lia.
    + intros i m' Hi (Hfr & HlWc & HlWm & Hm0 & Hc0 & Hrest).
      wp_run. mem_simpl. rewrite list_lookup_total_insert_eq by lia.
      split; [intros Y ? ?; mem_simpl; auto |].
      split; [by mem_simpl |]. split; [by mem_simpl |].
      split; [mem_simpl; by rewrite list_lookup_total_insert_ne by lia |].
      split; [mem_simpl; by rewrite list_lookup_total_insert_ne by lia |].
      intros k Hk. mem_simpl. destruct (decide (k = i)) as [->|].
      * by rewrite !list_lookup_total_insert_eq by lia.
      * rewrite !list_lookup_total_insert_ne by done. apply Hrest. lia.
  - intros [] m' (Hfr & HlWc & HlWm & Hm0 & Hc0 & Hrest).
    repeat (split; [done |]). intros i Hi. apply Hrest. lia.
Qed.

Lemma scale_Sw_spec (lambda_rls : F) (L : nat) m :
  u8 (2 * L) <= length (m Arr.Sw) ->
  wp (scale_Sw_with_lambda_rls_factor lambda_rls L)
    (fun _ m' =>
       length (m' Arr.Sw) = length (m Arr.Sw) /\
       (forall i, i < u8 (2 * L) ->
          m' Arr.Sw !!! i = (m Arr.Sw !!! i * (fone / fsqrt lambda_rls))%fl) /\
       (forall i, u8 (2 * L) <= i -> m' Arr.Sw !!! i = m Arr.Sw !!! i) /\
       (forall Y, Y <> Arr.Sw -> m' Y = m Y)) m.
Proof.
  intros Hlen. unfold scale_Sw_with_lambda_rls_factor.
  eapply wp_mono.
  - apply (wp_for_fill Arr.Sw (fun i => i)
             (fun _ old => (old * (fone / fsqrt lambda_rls))%fl) 0 (u8 (2 * L)));
      [lia | intros; lia | auto |].
    intros i m' Hi Hfr Hl. wp_run. done.
  - intros [] m' (Hfr & Hl & Hset & Hrest). cbv beta in *.
    split; [done |]. split; [intros i Hi; apply Hset; lia |].
    split; [| done]. intros i Hi. apply Hrest. intros k Hk. lia.
Qed.

Lemma create_sigma_point_matrix_spec (alpha kappa : F) (L : nat) m :
  L <= 127 ->
  length (m Arr.what) = L ->
  length (m Arr.Sw) = L * L ->
  length (m Arr.W) = L * (2 * L + 1) ->
  let lambda := (alpha * alpha * (of_nat L + kappa) - of_nat L)%fl in
  let gamma := fsqrt (of_nat L + lambda)%fl in
  wp (create_sigma_point_matrix alpha kappa L)
    (fun _ m' =>
       (forall Y, Y <> Arr.W -> m' Y = m Y) /\
       length (m' Arr.W) = length (m Arr.W) /\
       forall i, i < L ->
         (m' Arr.W !!! (i * (2 * L + 1)) : F) = m Arr.what !!! i /\
         (forall j, 1 <= j <= L ->
            m' Arr.W !!! (i * (2 * L + 1) + j) =
            (m Arr.what !!! i + gamma * m Arr.Sw !!! (i * L + (j - 1))%nat)%fl) /\
         (forall j, L + 1 <= j <= 2 * L ->
            m' Arr.W !!! (i * (2 * L + 1) + j) =
            (m Arr.what !!! i - gamma * m Arr.Sw !!! (i * L + (j - L - 1))%nat)%fl)) m.
Proof.
  intros HL Hwhat HSw HW lambda gamma.
  unfold create_sigma_point_matrix.
  rewrite !u8_small by lia. fold lambda. fold gamma.
  set (N := 2 * L + 1) in *.
  wp_loop (wp_for_fill Arr.W (fun i => i * N) (fun i _ => m Arr.what !!! i) 0 L).
  { lia. }
  { intros i Hi. rewrite HW. nia. }
  { intros i i' _ _ Heq. apply Nat.mul_cancel_r in Heq; lia. }
  { intros i m' Hi Hfr Hlen.
    wp_step by (rewrite Hfr by done; lia).
    wp_step by (rewrite Hlen, HW; nia).
    unfold stored. by rewrite Hfr. }
  intros [] m1 (Hfr1 & Hlen1 & Hset1 & _). cbv beta.
  wp_loop (wp_for_fill_columns Arr.W N L 1 (L + 1)
      (fun i j => (m Arr.what !!! i + gamma * m Arr.Sw !!! (i * L + (j - 1))%nat)%fl)).
  { lia. }
  { rewrite Hlen1, HW. lia. }
  { intros i j m' Hi Hj Hfr Hlen.
    wp_step by (rewrite Hfr, Hfr1 by done; lia).
    wp_step by (rewrite Hfr, Hfr1 by done; nia).
    wp_step by (rewrite Hlen, Hlen1, HW; nia).
    unfold stored. rewrite !Hfr, !Hfr1 by done.
    by replace (i * L + j - 1) with (i * L + (j - 1)) by lia. }
  intros [] m2 (Hfr2 & Hlen2 & Hset2 & Hrest2). cbv beta.
  wp_loop (wp_for_fill_columns Arr.W N L (L + 1) N
      (fun i j => (m Arr.what !!! i - gamma * m Arr.Sw !!! (i * L + (j - L - 1))%nat)%fl)).
  { lia. }
  { rewrite Hlen2, Hlen1, HW. lia. }
  { intros i j m' Hi Hj Hfr Hlen.
    wp_step by (rewrite Hfr, Hfr2, Hfr1 by done; lia).
    wp_step by (rewrite Hfr, Hfr2, Hfr1 by done; nia).
    wp_step by (rewrite Hlen, Hlen2, Hlen1, HW; nia).
    unfold stored. rewrite !Hfr, !Hfr2, !Hfr1 by done.
    by replace (i * L + j - (L + 1)) with (i * L + (j - L - 1)) by lia. }
  intros [] m3 (Hfr3 & Hlen3 & Hset3 & Hrest3). cbv beta.
  split; [| split].
  - intros Y HY. rewrite Hfr3, Hfr2, Hfr1 by done. done.
  - congruence.
  - intros i Hi.
    assert (Hcol0 : forall i' j, i' < L -> 1 <= j < N -> i' * N + j <> i * N).
    { intros i' j Hi' Hj Heq. rewrite <- (Nat.add_0_r (i * N)) in Heq.
      apply cell_inj in Heq; lia. }
    split; [| split].
    + rewrite Hrest3, Hrest2.
      * apply Hset1. lia.
      * intros i' j Hi' Hj. apply Hcol0; lia.
      * intros i' j Hi' Hj. apply Hcol0; lia.
    + intros j Hj. rewrite Hrest3.
      * apply Hset2; lia.
      * intros i' j' Hi' Hj' Heq. apply cell_inj in Heq; lia.
    + intros j Hj. apply Hset3; lia.
Qed.
End Stages.

(** ** The stages that call the decompositions *)

Section Collaborators.
Context {F : Type} `{Scalar F}.
Implicit Types (m : mem F) (X Y : arr) (l : list F).
Variable qr : list F -> nat -> nat -> bool -> list F * list F.
Variable cholupdate : list F -> list F -> nat -> bool -> list F.
Variable inv : list F -> nat -> list F * bool.
Variable G : list F -> list F -> list F -> list F * list F * list F.

(** The library routines work in the buffers they are given: [R] is
    declared [float R[M * L]], and [cholupdate] and [inv] update their
    first argument in place. *)
Hypothesis qr_R_length :
  forall A row column reduced, length (qr A row column reduced).2 = row * column.
Hypothesis cholupdate_length :
  forall S v n up, length (cholupdate S v n up) = length S.
Hypothesis inv_length : forall A n, length (inv A n).1 = length A.

Lemma create_state_estimation_error_covariance_matrix_spec (L : nat) m :
  1 <= L <= 85 ->
  length (m Arr.Wc) = 2 * L + 1 ->
  length (m Arr.D) = L * (2 * L + 1) ->
  length (m Arr.dhat) = L ->
  length (m Arr.Re) = L * L ->
  length (m Arr.Sd) = L * L ->
  wp (create_state_estimation_error_covariance_matrix qr cholupdate L)
    (fun _ m' =>
       exists AT : list F,
         length AT = L * (3 * L) /\
         (forall i j, i < L -> j < 2 * L ->
            AT !!! (i * (3 * L) + j) =
            (fsqrt (fabs (m Arr.Wc !!! 1)) *
             (m Arr.D !!! (i * (2 * L + 1) + j + 1)%nat - m Arr.dhat !!! i))%fl) /\
         (forall i j, i < L -> 2 * L <= j < 3 * L ->
            AT !!! (i * (3 * L) + j) = fsqrt (m Arr.Re !!! (i * L + (j - 2 * L)))) /\
         m' Arr.Sd =
           cholupdate
             (take (L * L) (qr (tran AT L (3 * L)) (3 * L) L true).2)
             ((fun i => (m Arr.D !!! (i * (2 * L + 1))%nat - m Arr.dhat !!! i)%fl)
                <$> seq 0 L)
             L (negb (fltb (m Arr.Wc !!! 0) fzero)) /\
         (forall Y, Y <> Arr.Sd -> Y <> Arr.AT -> Y <> Arr.Q -> Y <> Arr.R ->
                    Y <> Arr.b -> m' Y = m Y)) m.
Proof using qr_R_length.
  intros HL HWc HD Hdhat HRe HSd.
  unfold create_state_estimation_error_covariance_matrix.
  rewrite !u8_small by lia.
  replace (2 * L + L) with (3 * L) by lia.
  set (N := 2 * L + 1) in *. set (M := 3 * L) in *.
  wp_run.
  set (m0 := upd Arr.R _ _).
  assert (Hm0 : forall Y, Y <> Arr.AT -> Y <> Arr.Q -> Y <> Arr.R -> m0 Y = m Y).
  { intros Y ? ? ?. unfold m0. by mem_simpl. }
  assert (HAT0 : length (m0 Arr.AT) = L * M) by (unfold m0; by mem_simpl).
  wp_loop (wp_for_fill_columns Arr.AT M L 0 (2 * L)
      (fun i j => (fsqrt (fabs (m Arr.Wc !!! 1)) *
             (m Arr.D !!! (i * N + j + 1)%nat - m Arr.dhat !!! i))%fl)).
  { lia. }
  { lia. }
  { intros i j m' Hi Hj Hfr Hlen.
    wp_step by (rewrite Hfr, Hm0, HD by done; nia).
    wp_step by (rewrite Hfr, Hm0, Hdhat by done; lia).
    wp_step by (rewrite Hlen, HAT0; nia).
    unfold stored. by rewrite !Hfr, !Hm0 by done. }
  intros [] m1 (Hfr1 & Hlen1 & Hset1 & _). cbv beta.
  wp_loop (wp_for_fill_columns Arr.AT M L (2 * L) M
      (fun i j => fsqrt (m Arr.Re !!! (i * L + (j - 2 * L))))).
  { lia. }
  { lia. }
  { intros i j m' Hi Hj Hfr Hlen.
    wp_step by (rewrite Hfr, Hfr1, Hm0, HRe by done; nia).
    wp_step by (rewrite Hlen, Hlen1, HAT0; nia).
    unfold stored. rewrite !Hfr, !Hfr1, !Hm0 by done.
    by replace (i * L + j - 2 * L) with (i * L + (j - 2 * L)) by lia. }
  intros [] m2 (Hfr2 & Hlen2 & Hset2 & Hrest2). cbv beta.
  assert (Hm2 : forall Y, Y <> Arr.AT -> Y <> Arr.Q -> Y <> Arr.R -> m2 Y = m Y).
  { intros Y ? ? ?. by rewrite Hfr2, Hfr1, Hm0. }
  assert (HAT2 : length (m2 Arr.AT) = L * M) by congruence.
  unfold call_tran, call_qr, memcpy.
  wp_run.
  wp_step by (rewrite Hm2, HSd by done; lia).
  wp_step by (rewrite qr_R_length; nia).
  wp_run. mem_simpl. rewrite (Hm2 Arr.Sd) by done.
  rewrite (drop_ge (m Arr.Sd)), app_nil_r by lia.
  set (m3 := upd Arr.b _ _).
  assert (Hm3 : forall Y, Y <> Arr.Sd -> Y <> Arr.AT -> Y <> Arr.Q -> Y <> Arr.R ->
                          Y <> Arr.b -> m3 Y = m Y).
  { intros Y ? ? ? ? ?. unfold m3. mem_simpl. by apply Hm2. }
  wp_loop (wp_for_fill Arr.b (fun i => i)
      (fun i _ => (m Arr.D !!! (i * N)%nat - m Arr.dhat !!! i)%fl) 0 L).
  { lia. }
  { intros i Hi. unfold m3. mem_simpl. lia. }
  { auto. }
  { intros i m' Hi Hfr Hlen.
    wp_step by (rewrite Hfr, Hm3, HD by done; nia).
    wp_step by (rewrite Hfr, Hm3, Hdhat by done; lia).
    wp_step by (rewrite Hlen; unfold m3; mem_simpl; lia).
    unfold stored. by rewrite !Hfr, !Hm3 by done. }
  intros [] m4 (Hfr4 & Hlen4 & Hset4 & _). cbv beta.
  assert (Hb : m4 Arr.b =
               (fun i => (m Arr.D !!! (i * N)%nat - m Arr.dhat !!! i)%fl) <$> seq 0 L).
  { apply list_eq_tabulate.
    - rewrite Hlen4. unfold m3. by mem_simpl.
    - intros i Hi. apply Hset4. lia. }
  wp_step by (rewrite Hfr4, Hm3, HWc by done; unfold N; lia).
  unfold call_cholupdate.
  wp_step by (rewrite Hfr4 by done; unfold m3; mem_simpl;
              rewrite qr_R_length; nia).
  wp_step by (rewrite Hb; mem_simpl; lia).
  wp_run.
  exists (m2 Arr.AT). split; [done |]. split; [| split; [| split]].
  - intros i j Hi Hj. rewrite Hrest2.
    + apply Hset1; lia.
    + intros i' j' Hi' Hj' Heq. apply cell_inj in Heq; lia.
  - intros i j Hi Hj. apply Hset2; lia.
  - mem_simpl. rewrite Hb, (Hfr4 Arr.Sd), (Hfr4 Arr.Wc), (Hm3 Arr.Wc) by done.
    unfold m3. by mem_simpl.
  - intros Y ? ? ? ? ?. mem_simpl. rewrite Hfr4 by done. by apply Hm3.
Qed.

Lemma downdates_S Sw U L n :
  downdates cholupdate Sw U L (S n) =
  cholupdate (downdates cholupdate Sw U L n) (column U L n) L false.
Proof using Type. unfold downdates. by rewrite seq_S, fold_left_app. Qed.

Lemma length_downdates Sw U L n :
  length (downdates cholupdate Sw U L n) = length Sw.
Proof using cholupdate_length.
  induction n as [|n IH]; [done |].
  by rewrite downdates_S, cholupdate_length.
Qed.

Lemma corrector_spec (L : nat) m :
  length (m Arr.Sd) = L * L ->
  length (m Arr.Pwd) = L * L ->
  length (m Arr.d) = L ->
  length (m Arr.dhat) = L ->
  length (m Arr.what) = L ->
  length (m Arr.Sw) = L * L ->
  let K := gain inv (m Arr.Sd) (m Arr.Pwd) L in
  let Kd := mul K (innovation (m Arr.d) (m Arr.dhat) L) L L 1 in
  let U := mul K (m Arr.Sd) L L L in
  wp (update_state_covarariance_matrix_and_state_estimation_vector cholupdate inv L)
    (fun _ m' =>
       m' Arr.K = K /\
       m' Arr.Kd = Kd /\
       m' Arr.U = U /\
       length (m' Arr.what) = L /\
       (forall i, i < L -> m' Arr.what !!! i = (m Arr.what !!! i + Kd !!! i)%fl) /\
       m' Arr.Sw = downdates cholupdate (m Arr.Sw) U L L /\
       m' Arr.d = m Arr.d /\ m' Arr.dhat = m Arr.dhat /\
       m' Arr.Sd = m Arr.Sd /\ m' Arr.Pwd = m Arr.Pwd) m.
Proof using cholupdate_length inv_length.
  intros HSd HPwd Hd Hdhat Hwhat HSw K Kd U.
  unfold update_state_covarariance_matrix_and_state_estimation_vector.
  unfold memcpy, call_tran, call_mul, call_inv.
  wp_run. wp_step by (rewrite inv_length; mem_simpl; lia). wp_run.
  set (m1 := upd Arr.Kd _ _).
  assert (Hm1 : forall Y, Y <> Arr.SdT -> Y <> Arr.SdTSd -> Y <> Arr.K ->
                          Y <> Arr.ddhat -> Y <> Arr.Kd -> m1 Y = m Y).
  { intros Y ? ? ? ? ?. unfold m1. by mem_simpl. }
  assert (HK1 : m1 Arr.K = K).
  { unfold m1. mem_simpl. by list_simpl. }
  wp_loop (wp_for_fill Arr.ddhat (fun i => i)
             (fun i _ => (m Arr.d !!! i - m Arr.dhat !!! i)%fl) 0 L).
  { lia. }
  { intros i Hi. unfold m1. mem_simpl. lia. }
  { auto. }
  { intros i m' Hi Hfr Hlen.
    wp_step by (rewrite Hfr, Hm1, Hd by done; lia).
    wp_step by (rewrite Hfr, Hm1, Hdhat by done; lia).
    wp_step by (rewrite Hlen; unfold m1; mem_simpl; lia).
    unfold stored. by rewrite !Hfr, !Hm1 by done. }
  intros [] m2 (Hfr2 & Hlen2 & Hset2 & _). cbv beta.
  assert (Hdd : m2 Arr.ddhat = innovation (m Arr.d) (m Arr.dhat) L).
  { apply list_eq_tabulate.
    - rewrite Hlen2. unfold m1. by mem_simpl.
    - intros i Hi. apply Hset2. lia. }
  (* Kd = K * ddhat *)
  wp_step by (rewrite Hfr2, HK1 by done; unfold K, gain; mem_simpl; lia).
  wp_step by (rewrite Hdd; unfold innovation; mem_simpl; lia).
  wp_step by (rewrite Hfr2 by done; unfold m1; mem_simpl; lia).
  wp_run.
  rewrite (Hfr2 Arr.K), HK1, Hdd, (Hfr2 Arr.Kd) by done. fold Kd.
  replace (m1 Arr.Kd) with (replicate L (@fzero F _)) by (unfold m1; by mem_simpl).
  list_simpl.
  set (m3 := upd Arr.Kd _ _).
  assert (Hm3 : forall Y, Y <> Arr.SdT -> Y <> Arr.SdTSd -> Y <> Arr.K ->
                          Y <> Arr.ddhat -> Y <> Arr.Kd -> m3 Y = m Y).
  { intros Y ? ? ? ? ?. unfold m3. mem_simpl. rewrite Hfr2 by done. by apply Hm1. }
  assert (HK3 : m3 Arr.K = K) by (unfold m3; mem_simpl; by rewrite Hfr2).
  assert (HKd3 : m3 Arr.Kd = Kd) by (unfold m3; by mem_simpl).
  (* what = what + Kd *)
  wp_loop (wp_for_fill Arr.what (fun i => i) (fun i old => (old + Kd !!! i)%fl) 0 L).
  { lia. }
  { intros i Hi. rewrite Hm3, Hwhat by done. lia. }
  { auto. }
  { intros i m' Hi Hfr Hlen.
    wp_step by (rewrite Hlen, Hm3, Hwhat by done; lia).
    wp_step by (rewrite Hfr, HKd3 by done; unfold Kd; mem_simpl; lia).
    wp_step by (rewrite Hlen, Hm3, Hwhat by done; lia).
    unfold stored. by rewrite (Hfr Arr.Kd), HKd3 by done. }
  intros [] m4 (Hfr4 & Hlen4 & Hset4 & _). cbv beta.
  (* U = K * Sd *)
  wp_step.
  wp_step by (rewrite Hfr4, HK3 by done; unfold K, gain; mem_simpl; lia).
  wp_step by (rewrite Hfr4, Hm3, HSd by done; lia).
  wp_run. mem_simpl. list_simpl.
  rewrite (Hfr4 Arr.K), HK3, (Hfr4 Arr.Sd), (Hm3 Arr.Sd) by done. fold U.
  (* downdates *)
  set (m5 := upd Arr.Uk _ _).
  assert (Hm5 : forall Y, Y <> Arr.Uk -> Y <> Arr.U -> m5 Y = m4 Y).
  { intros Y ? ?. unfold m5. by mem_simpl. }
  assert (HU5 : m5 Arr.U = U) by (unfold m5; by mem_simpl).
  wp_loop (wp_for (fun n m' =>
       (forall Y, Y <> Arr.Uk -> Y <> Arr.Sw -> m' Y = m5 Y) /\
       length (m' Arr.Uk) = L /\
       m' Arr.Sw = downdates cholupdate (m Arr.Sw) U L n)).
  { lia. }
  { split; [done |]. split; [unfold m5; by mem_simpl |].
    rewrite Hm5, Hfr4 by done. by apply Hm3. }
  { intros j m' Hj (Hfr & HlUk & HSw').
    wp_loop (wp_for_fill Arr.Uk (fun i => i) (fun i _ => U !!! (i * L + j)) 0 L).
    { lia. }
    { intros i Hi. lia. }
    { auto. }
    { intros i m'' Hi Hfr' Hlen'.
      wp_step by (rewrite Hfr', Hfr, HU5 by done; unfold U; mem_simpl; nia).
      wp_step by (rewrite Hlen'; lia).
      unfold stored. by rewrite Hfr', Hfr, HU5 by done. }
    intros [] m6 (Hfr6 & Hlen6 & Hset6 & _). cbv beta.
    assert (HUk : m6 Arr.Uk = column U L j).
    { apply list_eq_tabulate; [congruence |]. intros i Hi. apply Hset6. lia. }
    unfold call_cholupdate.
    wp_step by (rewrite Hfr6, HSw', length_downdates by done; lia).
    wp_step by (rewrite Hlen6; lia).
    wp_run. split; [| split].
    + intros Y ? ?. mem_simpl. rewrite Hfr6 by done. by apply Hfr.
    + mem_simpl. congruence.
    + mem_simpl. by rewrite downdates_S, HUk, Hfr6, HSw' by done. }
  intros [] m7 (Hfr7 & _ & HSw7). cbv beta.
  assert (Hm7 : forall Y, Y <> Arr.SdT -> Y <> Arr.SdTSd -> Y <> Arr.K ->
                 Y <> Arr.ddhat -> Y <> Arr.Kd -> Y <> Arr.what -> Y <> Arr.U ->
                 Y <> Arr.Uk -> Y <> Arr.Sw -> m7 Y = m Y).
  { intros Y ? ? ? ? ? ? ? ? ?. rewrite Hfr7, Hm5, Hfr4 by done. by apply Hm3. }
  split; [by rewrite Hfr7, Hm5, Hfr4 by done |].
  split; [by rewrite Hfr7, Hm5, Hfr4 by done |].
  split; [by rewrite Hfr7 by done |].
  split; [rewrite Hfr7, Hm5, Hlen4 by done; by rewrite Hm3 by done |].
  split.
  { intros i Hi. rewrite Hfr7, Hm5, (Hset4 i) by (done || lia).
    by rewrite (Hm3 Arr.what) by done. }
  split; [done |].
  repeat split; by apply Hm7.
Qed.
End Collaborators.

(** ** What a tick leaves alone, and what it ignores *)

Section Tick.
Context {F : Type} `{Scalar F}.
Implicit Types (m : mem F) (X Y : arr) (l : list F).
Variable qr : list F -> nat -> nat -> bool -> list F * list F.
Variable cholupdate : list F -> list F -> nat -> bool -> list F.
Variable G : list F -> list F -> list F -> list F * list F * list F.

Lemma call_G_preserves_x :
  (forall dw x w, (G dw x w).1.2 = x) ->
  preserves Arr.x (call_G G Arr.dw Arr.x Arr.w).
Proof.
  intros HG m a m'. unfold call_G, bind, get, put. intros [= _ <-].
  rewrite upd_ne by discriminate. rewrite upd_eq. apply HG.
Qed.

Lemma sr_ukf_preserves_inputs inv (lambda_rls alpha beta : F) L X :
  X = Arr.d \/ X = Arr.Re ->
  preserves X (sr_ukf_parameter_estimation qr cholupdate inv G lambda_rls alpha beta L).
Proof.
  intros HX.
  unfold sr_ukf_parameter_estimation, create_weights,
    scale_Sw_with_lambda_rls_factor, create_sigma_point_matrix,
    compute_transistion_function, multiply_sigma_point_matrix_to_weights,
    create_state_estimation_error_covariance_matrix,
    create_state_cross_covariance_matrix,
    update_state_covarariance_matrix_and_state_estimation_vector,
    memset0, memcpy, call_tran, call_mul, call_qr, call_cholupdate, call_inv,
    call_G.
  destruct HX as [-> | ->]; preserves_auto.
Qed.

Lemma sr_ukf_preserves_x inv (lambda_rls alpha beta : F) L :
  (forall dw x w, (G dw x w).1.2 = x) ->
  preserves Arr.x
    (sr_ukf_parameter_estimation qr cholupdate inv G lambda_rls alpha beta L).
Proof.
  intros HG.
  unfold sr_ukf_parameter_estimation, create_weights,
    scale_Sw_with_lambda_rls_factor, create_sigma_point_matrix,
    compute_transistion_function, multiply_sigma_point_matrix_to_weights,
    create_state_estimation_error_covariance_matrix,
    create_state_cross_covariance_matrix,
    update_state_covarariance_matrix_and_state_estimation_vector,
    memset0, memcpy, call_tran, call_mul, call_qr, call_cholupdate, call_inv.
  repeat first [apply (call_G_preserves_x HG) | preserves_step].
Qed.

Lemma bind_ext_l {A B} (c1 c2 : prog F A) (k : A -> prog F B) m :
  c1 m = c2 m -> bind c1 k m = bind c2 k m.
Proof. unfold bind. by intros ->. Qed.

Lemma call_inv_status_blind inv1 inv2 X n m :
  (forall A k, (inv1 A k).1 = (inv2 A k).1) ->
  call_inv inv1 X n m = call_inv inv2 X n m.
Proof.
  intros Hinv. unfold call_inv, bind, extent, get, put.
  case_match; [| done]. by rewrite Hinv.
Qed.

Lemma corrector_status_blind inv1 inv2 L m :
  (forall A k, (inv1 A k).1 = (inv2 A k).1) ->
  update_state_covarariance_matrix_and_state_estimation_vector cholupdate inv1 L m =
  update_state_covarariance_matrix_and_state_estimation_vector cholupdate inv2 L m.
Proof.
  intros Hinv.
  unfold update_state_covarariance_matrix_and_state_estimation_vector.
  do 5 (apply bind_ext; intros [] ?).
  by apply bind_ext_l, call_inv_status_blind.
Qed.
End Tick.

(** ** The stages between the sigma points and the corrector: sizes *)

Section Sizes.
Context {F : Type} `{Scalar F}.
Implicit Types (m : mem F) (X Y : arr) (l : list F).
Variable G : list F -> list F -> list F -> list F * list F * list F.

(** [G] writes its results into the arrays it is given. *)
Hypothesis G_length :
  forall dw x w,
    length (G dw x w).1.1 = length dw /\ length (G dw x w).2 = length w.

Lemma compute_transistion_function_spec (L : nat) m :
  L <= 127 ->
  length (m Arr.W) = L * (2 * L + 1) ->
  length (m Arr.D) = L * (2 * L + 1) ->
  wp (compute_transistion_function G L)
    (fun _ m' =>
       length (m' Arr.D) = L * (2 * L + 1) /\
       (forall Y, Y <> Arr.dw -> Y <> Arr.w -> Y <> Arr.D -> Y <> Arr.x ->
                  m' Y = m Y)) m.
Proof using G_length.
  intros HL HW HD. unfold compute_transistion_function.
  rewrite u8_small by lia. set (N := 2 * L + 1) in *.
  wp_run.
  wp_loop (wp_for (fun (_ : nat) m' =>
       length (m' Arr.dw) = L /\ length (m' Arr.w) = L /\
       length (m' Arr.D) = L * N /\
       (forall Y, Y <> Arr.dw -> Y <> Arr.w -> Y <> Arr.D -> Y <> Arr.x ->
                  m' Y = m Y))).
  { lia. }
  { split; [by mem_simpl |]. split; [by mem_simpl |]. split; [by mem_simpl |].
    intros Y ? ? ? ?. by mem_simpl. }
  { intros j m1 Hj (Hdw & Hw & HD1 & Hfr1).
    wp_loop (wp_for_fill Arr.w (fun i => i)
               (fun i _ => m1 Arr.W !!! (i * N + j)) 0 L).
    { lia. }
    { intros i Hi. lia. }
    { auto. }
    { intros i m' Hi Hfr Hlen.
      wp_step by (rewrite Hfr, Hfr1, HW by done; nia).
      wp_step by (rewrite Hlen; lia).
      unfold stored. by rewrite Hfr by done. }
    intros [] m2 (Hfr2 & Hlen2 & _ & _). cbv beta.
    unfold call_G. wp_run.
    set (m3 := upd Arr.w _ _).
    destruct (G_length (m2 Arr.dw) (m2 Arr.x) (m2 Arr.w)) as [HGdw HGw].
    assert (Hdw3 : length (m3 Arr.dw) = L).
    { unfold m3. mem_simpl. rewrite HGdw, Hfr2 by done. done. }
    assert (Hw3 : length (m3 Arr.w) = L).
    { unfold m3. mem_simpl. rewrite HGw. congruence. }
    assert (Hfr3 : forall Y, Y <> Arr.dw -> Y <> Arr.w -> Y <> Arr.x -> m3 Y = m1 Y).
    { intros Y ? ? ?. unfold m3. mem_simpl. by apply Hfr2. }
    wp_loop (wp_for_fill Arr.D (fun i => i * N + j)
               (fun i _ => m3 Arr.dw !!! i) 0 L).
    { lia. }
    { intros i Hi. rewrite Hfr3, HD1 by done. nia. }
    { intros i i' _ _ Heq. apply cell_inj in Heq; [tauto | lia | lia]. }
    { intros i m' Hi Hfr Hlen.
      wp_step by (rewrite Hfr by done; lia).
      wp_step by (rewrite Hlen, Hfr3, HD1 by done; nia).
      unfold stored. by rewrite Hfr by done. }
    intros [] m4 (Hfr4 & Hlen4 & _ & _). cbv beta.
    split; [by rewrite Hfr4 by done |]. split; [by rewrite Hfr4 by done |].
    split; [rewrite Hlen4, Hfr3 by done; done |].
    intros Y ? ? ? ?. rewrite Hfr4, Hfr3 by done. by apply Hfr1. }
  intros [] m' (_ & _ & HD' & Hfr'). auto.
Qed.

Lemma multiply_sigma_point_matrix_to_weights_spec (L : nat) m :
  L <= 127 ->
  length (m Arr.dhat) = L ->
  length (m Arr.Wm) = 2 * L + 1 ->
  length (m Arr.D) = L * (2 * L + 1) ->
  wp (multiply_sigma_point_matrix_to_weights L)
    (fun _ m' =>
       length (m' Arr.dhat) = L /\
       (forall Y, Y <> Arr.dhat -> m' Y = m Y)) m.
Proof using Type.
  intros HL Hdhat HWm HD. unfold multiply_sigma_point_matrix_to_weights, memset0.
  rewrite u8_small by lia. set (N := 2 * L + 1) in *.
  wp_run.
  set (I := fun (_ : nat) m' =>
       length (m' Arr.dhat) = L /\ (forall Y, Y <> Arr.dhat -> m' Y = m Y)).
  wp_loop (wp_for I).
  { lia. }
  { split; [mem_simpl; lia | intros Y ?; by mem_simpl]. }
  { intros j m1 Hj Hm1.
    wp_loop (wp_for I).
    { lia. }
    { exact Hm1. }
    { intros i m2 Hi (Hlen & Hfr).
      wp_step.
      wp_step by (rewrite Hfr, HWm by done; lia).
      wp_step by (rewrite Hfr, HD by done; nia).
      wp_step.
      split; [by mem_simpl | intros Y ?; mem_simpl; auto]. }
    intros [] m2 Hm2. exact Hm2. }
  intros [] m' Hm'. exact Hm'.
Qed.

Lemma create_state_cross_covariance_matrix_spec (L : nat) m :
  2 <= L <= 127 ->
  length (m Arr.Pwd) = L * L ->
  length (m Arr.W) = L * (2 * L + 1) ->
  length (m Arr.D) = L * (2 * L + 1) ->
  length (m Arr.what) = L ->
  length (m Arr.dhat) = L ->
  length (m Arr.Wc) = 2 * L + 1 ->
  wp (create_state_cross_covariance_matrix L)
    (fun _ m' =>
       length (m' Arr.Pwd) = L * L /\
       (forall Y, Y <> Arr.Pwd -> Y <> Arr.W -> Y <> Arr.D ->
                  Y <> Arr.diagonal_W -> Y <> Arr.diagonal_WD -> m' Y = m Y)) m.
Proof using Type.
  intros HL HPwd HW HD Hwhat Hdhat HWc.
  unfold create_state_cross_covariance_matrix, memset0, call_tran, call_mul.
  rewrite !u8_small by lia. set (N := 2 * L + 1) in *.
  wp_step by nia. wp_run.
  set (I := fun (_ : nat) m' =>
       length (m' Arr.Pwd) = L * L /\ length (m' Arr.W) = L * N /\
       length (m' Arr.D) = L * N /\
       (forall Y, Y <> Arr.Pwd -> Y <> Arr.W -> Y <> Arr.D -> m' Y = m Y)).
  wp_loop (wp_for I).
  { lia. }
  { split; [mem_simpl; nia |]. split; [by mem_simpl |]. split; [by mem_simpl |].
    intros Y ? ? ?. by mem_simpl. }
  { intros j m1 Hj Hm1.
    wp_loop (wp_for I).
    { lia. }
    { exact Hm1. }
    { intros i m2 Hi (HlP & HlW & HlD & Hfr).
      wp_step by nia.
      wp_step by (rewrite Hfr, Hwhat by done; lia).
      wp_step by nia.
      wp_step by nia.
      wp_step by (rewrite Hfr, Hdhat by done; lia).
      wp_step by nia.
      split; [by mem_simpl |]. split; [by mem_simpl |]. split; [by mem_simpl |].
      intros Y ? ? ?. mem_simpl. auto. }
    intros [] m2 Hm2. exact Hm2. }
  intros [] m1 (HlP & HlW & HlD & Hfr1). cbv beta.
  wp_run.
  set (J := fun (_ : nat) m' =>
       length (m' Arr.diagonal_W) = N * N /\
       (forall Y, Y <> Arr.diagonal_W -> m' Y = m1 Y)).
  wp_loop (wp_for J).
  { lia. }
  { split; [mem_simpl; lia | intros Y ?; by mem_simpl]. }
  { intros i m2 Hi (HlJ & Hfr).
    wp_step by (rewrite Hfr, Hfr1, HWc by done; lia).
    wp_step by nia.
    split; [by mem_simpl | intros Y ?; mem_simpl; auto]. }
  intros [] m2 (HlJ & Hfr2). cbv beta.
  assert (HlD2 : length (m2 Arr.D) = L * N) by (by rewrite Hfr2).
  assert (HlW2 : length (m2 Arr.W) = L * N) by (by rewrite Hfr2).
  assert (HlP2 : length (m2 Arr.Pwd) = L * L) by (by rewrite Hfr2).
  do 4 wp_step.
  do 3 (wp_step by nia). do 4 wp_step.
  do 3 (wp_step by nia). wp_run.
  split.
  - mem_simpl. lia.
  - intros Y ? ? ? ? ?. mem_simpl. rewrite Hfr2 by done. by apply Hfr1.
Qed.
End Sizes.

(** ** A whole tick *)

Section WholeTick.
Context {F : Type} `{Scalar F}.
Implicit Types (m : mem F) (X Y : arr) (l : list F).
Variable qr : list F -> nat -> nat -> bool -> list F * list F.
Variable cholupdate : list F -> list F -> nat -> bool -> list F.
Variable inv : list F -> nat -> list F * bool.
Variable G : list F -> list F -> list F -> list F * list F * list F.

Hypothesis qr_R_length :
  forall A row column reduced, length (qr A row column reduced).2 = row * column.
Hypothesis cholupdate_length :
  forall S v n up, length (cholupdate S v n up) = length S.
Hypothesis G_length :
  forall dw x w,
    length (G dw x w).1.1 = length dw /\ length (G dw x w).2 = length w.

(** For a dimension between 2 and 85 and arguments of the declared sizes,
    a tick reaches the corrector without a subscript out of range, with
    [d], [what] and [Re] as they were on entry. *)
Lemma sr_ukf_reaches_corrector (lambda_rls alpha beta : F) (L : nat) m Q :
  2 <= L <= 85 ->
  length (m Arr.d) = L ->
  length (m Arr.what) = L ->
  length (m Arr.Re) = L * L ->
  length (m Arr.Sw) = L * L ->
  (forall m7,
     length (m7 Arr.Sd) = L * L ->
     length (m7 Arr.Pwd) = L * L ->
     length (m7 Arr.dhat) = L ->
     length (m7 Arr.Sw) = L * L ->
     m7 Arr.d = m Arr.d ->
     m7 Arr.what = m Arr.what ->
     m7 Arr.Re = m Arr.Re ->
     wp (update_state_covarariance_matrix_and_state_estimation_vector
           cholupdate inv L) Q m7) ->
  wp (sr_ukf_parameter_estimation qr cholupdate inv G lambda_rls alpha beta L) Q m.
Proof using qr_R_length cholupdate_length G_length.
  intros HL Hd Hwhat HRe HSw Hcorr. unfold sr_ukf_parameter_estimation.
  rewrite u8_small by lia. set (N := 2 * L + 1) in *.
  wp_step. wp_step. set (m0 := upd Arr.Wm _ _).
  assert (Hm0 : forall Y, Y <> Arr.Wc -> Y <> Arr.Wm -> m0 Y = m Y).
  { intros Y ? ?. unfold m0. by mem_simpl. }
  (* weights *)
  wp_head. eapply wp_mono.
  { apply create_weights_spec; [lia | unfold m0; by mem_simpl ..]. }
  intros [] m1 (Hfr1 & HWc1 & HWm1 & _). cbv beta.
  (* scaler *)
  wp_head. eapply wp_mono.
  { apply scale_Sw_spec. rewrite Hfr1, Hm0, HSw by done.
    pose proof (u8_le (2 * L)). nia. }
  intros [] m2 (HSw2 & _ & _ & Hfr2). cbv beta.
  rewrite Hfr1, Hm0, HSw in HSw2 by done.
  (* sigma points *)
  wp_step. set (m2' := upd Arr.W _ _).
  assert (Hm2' : forall Y, Y <> Arr.W -> Y <> Arr.Sw -> Y <> Arr.Wc -> Y <> Arr.Wm ->
                           m2' Y = m Y).
  { intros Y ? ? ? ?. unfold m2'. mem_simpl. rewrite Hfr2, Hfr1 by done. by apply Hm0. }
  wp_head. eapply wp_mono.
  { apply create_sigma_point_matrix_spec.
    - lia.
    - by rewrite Hm2'.
    - unfold m2'. by mem_simpl.
    - unfold m2'. by mem_simpl. }
  intros [] m3 (Hfr3 & HW3 & _). cbv beta.
  assert (HW3' : length (m3 Arr.W) = L * N) by (rewrite HW3; unfold m2'; by mem_simpl).
  (* transition *)
  wp_step. set (m3' := upd Arr.D _ _).
  wp_head. eapply wp_mono.
  { apply (compute_transistion_function_spec G G_length).
    - lia.
    - unfold m3'. by mem_simpl.
    - unfold m3'. by mem_simpl. }
  intros [] m4 (HD4 & Hfr4). cbv beta.
  assert (Hm4 : forall Y, Y <> Arr.dw -> Y <> Arr.w -> Y <> Arr.D -> Y <> Arr.x ->
                          Y <> Arr.W -> m4 Y = m2 Y).
  { intros Y ? ? ? ? ?. rewrite Hfr4 by done. unfold m3'. mem_simpl.
    rewrite Hfr3 by done. unfold m2'. by mem_simpl. }
  (* dhat *)
  wp_step. set (m4' := upd Arr.dhat _ _).
  wp_head. eapply wp_mono.
  { apply multiply_sigma_point_matrix_to_weights_spec.
    - lia.
    - unfold m4'. by mem_simpl.
    - unfold m4'. mem_simpl. by rewrite Hm4, Hfr2 by done.
    - unfold m4'. by mem_simpl. }
  intros [] m5 (Hdhat5 & Hfr5). cbv beta.
  assert (Hm5 : forall Y, Y <> Arr.dhat -> m5 Y = m4 Y).
  { intros Y ?. rewrite Hfr5 by done. unfold m4'. by mem_simpl. }
  (* Sd *)
  wp_step. set (m5' := upd Arr.Sd _ _).
  wp_head. eapply wp_mono.
  { apply (create_state_estimation_error_covariance_matrix_spec qr cholupdate
             qr_R_length).
    - lia.
    - unfold m5'. mem_simpl. by rewrite Hm5, Hm4, Hfr2 by done.
    - unfold m5'. mem_simpl. by rewrite Hm5 by done.
    - unfold m5'. by mem_simpl.
    - unfold m5'. mem_simpl. by rewrite Hm5, Hm4, Hfr2, Hfr1, Hm0 by done.
    - unfold m5'. by mem_simpl. }
  intros [] m6 (AT & _ & _ & _ & HSd6 & Hfr6). cbv beta.
  assert (HlSd6 : length (m6 Arr.Sd) = L * L).
  { rewrite HSd6, cholupdate_length, length_take, qr_R_length. nia. }
  assert (Hm6 : forall Y, Y <> Arr.Sd -> Y <> Arr.AT -> Y <> Arr.Q -> Y <> Arr.R ->
                          Y <> Arr.b -> Y <> Arr.dhat -> m6 Y = m4 Y).
  { intros Y ? ? ? ? ? ?. rewrite Hfr6 by done. unfold m5'. mem_simpl. by apply Hm5. }
  (* Pwd *)
  wp_step. set (m6' := upd Arr.Pwd _ _).
  wp_head. eapply wp_mono.
  { apply create_state_cross_covariance_matrix_spec.
    - lia.
    - unfold m6'. by mem_simpl.
    - unfold m6'. mem_simpl. rewrite Hm6 by done. rewrite Hfr4 by done.
      unfold m3'. by mem_simpl.
    - unfold m6'. mem_simpl. by rewrite Hm6 by done.
    - unfold m6'. mem_simpl. by rewrite Hm6, Hm4, Hfr2, Hfr1, Hm0 by done.
    - unfold m6'. mem_simpl. rewrite (Hfr6 Arr.dhat) by done.
      unfold m5'. by mem_simpl.
    - unfold m6'. mem_simpl. by rewrite Hm6, Hm4, Hfr2 by done. }
  intros [] m7 (HPwd7 & Hfr7). cbv beta.
  assert (Hm7 : forall Y, Y <> Arr.Pwd -> Y <> Arr.W -> Y <> Arr.D ->
                 Y <> Arr.diagonal_W -> Y <> Arr.diagonal_WD -> m7 Y = m6 Y).
  { intros Y ? ? ? ? ?. rewrite Hfr7 by done. unfold m6'. by mem_simpl. }
  apply Hcorr.
  - by rewrite Hm7.
  - done.
  - rewrite Hm7, (Hfr6 Arr.dhat) by done. unfold m5'. by mem_simpl.
  - by rewrite Hm7, Hm6, Hm4 by done.
  - by rewrite Hm7, Hm6, Hm4, Hfr2, Hfr1, Hm0 by done.
  - by rewrite Hm7, Hm6, Hm4, Hfr2, Hfr1, Hm0 by done.
  - by rewrite Hm7, Hm6, Hm4, Hfr2, Hfr1, Hm0 by done.
Qed.

Hypothesis inv_length : forall A n, length (inv A n).1 = length A.

(** Memory safety of a tick. *)
Lemma sr_ukf_completes (lambda_rls alpha beta : F) (L : nat) m :
  2 <= L <= 85 ->
  length (m Arr.d) = L ->
  length (m Arr.what) = L ->
  length (m Arr.Re) = L * L ->
  length (m Arr.Sw) = L * L ->
  exists m',
    sr_ukf_parameter_estimation qr cholupdate inv G lambda_rls alpha beta L m
      = Done tt m'.
Proof using qr_R_length cholupdate_length G_length inv_length.
  intros HL Hd Hwhat HRe HSw.
  destruct (wp_done _ (fun _ _ => True) m
    (sr_ukf_reaches_corrector lambda_rls alpha beta L m _ HL Hd Hwhat HRe HSw
       (fun m7 HSd7 HPwd7 Hdhat7 HSw7 Hd7 Hwhat7 _ =>
          wp_mono _ _ _ _
            (corrector_spec cholupdate inv cholupdate_length inv_length L m7
               HSd7 HPwd7 ltac:(congruence) Hdhat7 ltac:(congruence) HSw7)
            (fun _ _ _ => I))))
    as ([] & m' & Hrun & _).
  by exists m'.
Qed.
End WholeTick.

(** * The claims *)

Section Claims.
Context {F : Type} `{Scalar F}.
Implicit Types (m : mem F) (X Y : arr) (l : list F).
Variable qr : list F -> nat -> nat -> bool -> list F * list F.
Variable cholupdate : list F -> list F -> nat -> bool -> list F.
Variable G : list F -> list F -> list F -> list F * list F * list F.

(** C1, as amended.  [sr_ukf_parameter_estimation] returns nothing and
    drops the status of the inverse: with two inverses that leave the same
    buffer, whatever status each reports, a tick has the same outcome and
    leaves the same store.  A tick in which the inverse fails therefore
    runs on to the end, on the buffer the inverse left. *)
Theorem sr_ukf_ignores_inverse_status
    inv1 inv2 (lambda_rls alpha beta : F) (L : nat) m :
  (forall A n, (inv1 A n).1 = (inv2 A n).1) ->
  sr_ukf_parameter_estimation qr cholupdate inv1 G lambda_rls alpha beta L m =
  sr_ukf_parameter_estimation qr cholupdate inv2 G lambda_rls alpha beta L m.
Proof.
  intros Hinv. unfold sr_ukf_parameter_estimation.
  do 14 (apply bind_ext; intros [] ?).
  by apply corrector_status_blind.
Qed.

(** C2.  The measurement-covariance builder completes, and afterwards [Sd]
    is the rank-one update, with the vector [b[i] = D[i,0] - dhat[i]], of
    the first [L * L] cells of the factor [R] that [qr] returns for the
    transpose of [AT]; [AT] holds [sqrt(|Wc[1]|) * (D[i,j+1] - dhat[i])] in
    its first [2L] columns and [sqrt(Re[i,j-2L])] in its last [L]; the
    update adds ([true]) unless [Wc[0] < 0], when it subtracts ([false]). *)
Theorem Sd_is_updated_R_factor (L : nat) m :
  (forall A row column reduced,
     length (qr A row column reduced).2 = row * column) ->
  1 <= L <= 85 ->
  length (m Arr.Wc) = 2 * L + 1 ->
  length (m Arr.D) = L * (2 * L + 1) ->
  length (m Arr.dhat) = L ->
  length (m Arr.Re) = L * L ->
  length (m Arr.Sd) = L * L ->
  exists m' AT,
    create_state_estimation_error_covariance_matrix qr cholupdate L m = Done tt m' /\
    length AT = L * (3 * L) /\
    (forall i j, i < L -> j < 2 * L ->
       AT !!! (i * (3 * L) + j) =
       (fsqrt (fabs (m Arr.Wc !!! 1)) *
        (m Arr.D !!! (i * (2 * L + 1) + (j + 1))%nat - m Arr.dhat !!! i))%fl) /\
    (forall i j, i < L -> 2 * L <= j < 3 * L ->
       AT !!! (i * (3 * L) + j) = fsqrt (m Arr.Re !!! (i * L + (j - 2 * L)))) /\
    m' Arr.Sd =
      cholupdate
        (take (L * L) (qr (tran AT L (3 * L)) (3 * L) L true).2)
        ((fun i => (m Arr.D !!! (i * (2 * L + 1))%nat - m Arr.dhat !!! i)%fl)
           <$> seq 0 L)
        L (negb (fltb (m Arr.Wc !!! 0) fzero)).
Proof.
  intros Hqr HL HWc HD Hdhat HRe HSd.
  destruct (wp_done _ _ _
    (create_state_estimation_error_covariance_matrix_spec
       qr cholupdate Hqr L m HL HWc HD Hdhat HRe HSd))
    as ([] & m' & Hrun & AT & HAT & Hleft & Hright & HSd' & _).
  exists m', AT. split; [done |]. split; [done |].
  split; [| by split].
  intros i j Hi Hj. rewrite Hleft by done.
  by replace (i * (2 * L + 1) + j + 1) with (i * (2 * L + 1) + (j + 1)) by lia.
Qed.

(** C3.  The corrector completes, and: the gain is
    [K = Pwd * inv(Sd' * Sd)], with the inverse of the whole [L]x[L]
    product taken by [inv]; [what[i]] becomes [what[i] + (K * (d - dhat))[i]];
    [U = K * Sd]; and [Sw] goes through [L] downdates (rank-one updates
    with flag [false]), with column 0 of [U] first and column [L - 1]
    last. *)
Theorem corrector_gain_and_downdates inv (L : nat) m :
  (forall S v n up, length (cholupdate S v n up) = length S) ->
  (forall A n, length (inv A n).1 = length A) ->
  length (m Arr.Sd) = L * L ->
  length (m Arr.Pwd) = L * L ->
  length (m Arr.d) = L ->
  length (m Arr.dhat) = L ->
  length (m Arr.what) = L ->
  length (m Arr.Sw) = L * L ->
  exists m',
    update_state_covarariance_matrix_and_state_estimation_vector
      cholupdate inv L m = Done tt m' /\
    let K := mul (m Arr.Pwd)
               (inv (mul (tran (m Arr.Sd) L L) (m Arr.Sd) L L L) L).1 L L L in
    let ddhat := (fun i => (m Arr.d !!! i - m Arr.dhat !!! i)%fl) <$> seq 0 L in
    let U := mul K (m Arr.Sd) L L L in
    m' Arr.K = K /\
    length (m' Arr.what) = L /\
    (forall i, i < L ->
       m' Arr.what !!! i = (m Arr.what !!! i + mul K ddhat L L 1 !!! i)%fl) /\
    m' Arr.U = U /\
    m' Arr.Sw =
      fold_left
        (fun S j =>
           cholupdate S ((fun i => U !!! (i * L + j)) <$> seq 0 L) L false)
        (seq 0 L) (m Arr.Sw).
Proof.
  intros Hchol Hinv HSd HPwd Hd Hdhat Hwhat HSw.
  destruct (wp_done _ _ _
    (corrector_spec cholupdate inv Hchol Hinv L m HSd HPwd Hd Hdhat Hwhat HSw))
    as ([] & m' & Hrun & HK & _ & HU & Hlen & Hw & HSw' & _).
  exists m'. split; [done |]. cbv zeta. by repeat split.
Qed.

(** C4.  In a buffer of [L * L] cells with [L >= 2], the covariance scaler
    completes: every subscript it uses is below [2L], hence inside the
    buffer.  With [L = 1] it touches [Sw[1]], outside the one cell of
    [Sw]. *)
Theorem scale_Sw_subscripts (lambda_rls : F) (L : nat) m :
  1 <= L ->
  length (m Arr.Sw) = L * L ->
  (2 <= L ->
     (forall i, i < u8 (2 * L) -> i < L * L) /\
     exists m', scale_Sw_with_lambda_rls_factor lambda_rls L m = Done tt m') /\
  (L = 1 ->
     scale_Sw_with_lambda_rls_factor lambda_rls L m = OutOfBounds Arr.Sw 1).
Proof.
  intros HL Hlen. split.
  - intros HL2.
    assert (Hu8 : u8 (2 * L) <= L * L) by (pose proof (u8_le (2 * L)); nia).
    split; [intros; lia |].
    destruct (wp_done _ _ _ (scale_Sw_spec lambda_rls L m ltac:(lia)))
      as ([] & m' & Hrun & _).
    by exists m'.
  - intros ->. unfold scale_Sw_with_lambda_rls_factor, for_, u8. simpl.
    unfold bind, load, store.
    repeat (rewrite ?upd_eq, ?length_insert, ?Hlen; simpl). done.
Qed.

(** C5.  The weight generator completes with
    [Wm[0] = lambda / (L + lambda)], [Wc[0] = Wm[0] + 1 - alpha^2 + beta]
    and [Wm[i] = Wc[i] = 0.5 / (L + lambda)] for [1 <= i <= 2L], where
    [lambda = alpha^2 (L + kappa) - L]. *)
Theorem create_weights_values (alpha beta kappa : F) (L : nat) m :
  L <= 127 ->
  length (m Arr.Wc) = 2 * L + 1 ->
  length (m Arr.Wm) = 2 * L + 1 ->
  exists m',
    create_weights alpha beta kappa L m = Done tt m' /\
    let lambda := (alpha * alpha * (of_nat L + kappa) - of_nat L)%fl in
    m' Arr.Wm !!! 0 = (lambda / (of_nat L + lambda))%fl /\
    m' Arr.Wc !!! 0 = (m' Arr.Wm !!! 0 + of_nat 1 - alpha * alpha + beta)%fl /\
    forall i, 1 <= i <= 2 * L ->
      m' Arr.Wm !!! i = (fhalf / (of_nat L + lambda))%fl /\
      m' Arr.Wc !!! i = (fhalf / (of_nat L + lambda))%fl.
Proof.
  intros HL HWc HWm.
  destruct (wp_done _ _ _ (create_weights_spec alpha beta kappa L m HL HWc HWm))
    as ([] & m' & Hrun & _ & _ & _ & Hm0 & Hc0 & Hrest).
  exists m'. split; [done |]. cbv zeta in *. rewrite Hm0. auto.
Qed.

(** C7.  Called with [kappa = 3 - L], as [sr_ukf_parameter_estimation]
    calls it, the sigma-point generator completes with column 0 of [W]
    equal to [what], column [j] equal to [what[i] + gamma * Sw[i,j-1]] for
    [1 <= j <= L], and to [what[i] - gamma * Sw[i,j-L-1]] for
    [L+1 <= j <= 2L], where [gamma = sqrt(L + lambda)]. *)
Theorem sigma_point_columns (alpha : F) (L : nat) m :
  L <= 127 ->
  length (m Arr.what) = L ->
  length (m Arr.Sw) = L * L ->
  length (m Arr.W) = L * (2 * L + 1) ->
  exists m',
    create_sigma_point_matrix alpha (fthree - of_nat L)%fl L m = Done tt m' /\
    let kappa := (fthree - of_nat L)%fl in
    let lambda := (alpha * alpha * (of_nat L + kappa) - of_nat L)%fl in
    let gamma := fsqrt (of_nat L + lambda)%fl in
    forall i, i < L ->
      (m' Arr.W !!! (i * (2 * L + 1)) : F) = m Arr.what !!! i /\
      (forall j, 1 <= j <= L ->
         m' Arr.W !!! (i * (2 * L + 1) + j) =
         (m Arr.what !!! i + gamma * m Arr.Sw !!! (i * L + (j - 1))%nat)%fl) /\
      (forall j, L + 1 <= j <= 2 * L ->
         m' Arr.W !!! (i * (2 * L + 1) + j) =
         (m Arr.what !!! i - gamma * m Arr.Sw !!! (i * L + (j - L - 1))%nat)%fl).
Proof.
  intros HL Hwhat HSw HW.
  destruct (wp_done _ _ _
    (create_sigma_point_matrix_spec alpha (fthree - of_nat L)%fl L m HL Hwhat HSw HW))
    as ([] & m' & Hrun & _ & _ & Hcols).
  by exists m'.
Qed.

(** C8.  The covariance scaler multiplies the first [2L] cells of [Sw] by
    [1 / sqrt(lambda_rls)] and leaves every cell from [2L] on, and every
    other array, as it was. *)
Theorem scale_Sw_prefix_only (lambda_rls : F) (L : nat) m :
  L <= 127 ->
  2 * L <= length (m Arr.Sw) ->
  exists m',
    scale_Sw_with_lambda_rls_factor lambda_rls L m = Done tt m' /\
    length (m' Arr.Sw) = length (m Arr.Sw) /\
    (forall i, i < 2 * L ->
       m' Arr.Sw !!! i = (m Arr.Sw !!! i * (fone / fsqrt lambda_rls))%fl) /\
    (forall i, 2 * L <= i -> m' Arr.Sw !!! i = m Arr.Sw !!! i) /\
    (forall Y, Y <> Arr.Sw -> m' Y = m Y).
Proof.
  intros HL Hlen.
  assert (Hu8 : u8 (2 * L) = 2 * L) by (apply u8_small; lia).
  destruct (wp_done _ _ _ (scale_Sw_spec lambda_rls L m ltac:(lia)))
    as ([] & m' & Hrun & Hpost).
  rewrite Hu8 in Hpost. by exists m'.
Qed.

(** C10.  When the transition function leaves its state argument as it
    finds it, a completed call of [sr_ukf_parameter_estimation] leaves [d],
    [Re] and [x] as they were: of the five array arguments only [what] and
    [Sw] can change. *)
Theorem sr_ukf_writes_only_what_and_Sw
    inv (lambda_rls alpha beta : F) (L : nat) m m' :
  (forall dw x w, (G dw x w).1.2 = x) ->
  sr_ukf_parameter_estimation qr cholupdate inv G lambda_rls alpha beta L m
    = Done tt m' ->
  m' Arr.d = m Arr.d /\ m' Arr.Re = m Arr.Re /\ m' Arr.x = m Arr.x.
Proof.
  intros HG Hrun. split; [| split].
  - eapply sr_ukf_preserves_inputs; eauto.
  - eapply sr_ukf_preserves_inputs; eauto.
  - eapply sr_ukf_preserves_x; eauto.
Qed.
End Claims.

(** * The sum of the weights, and the correction on a predicted measurement *)

Section WeightSum.
Context {F : Type} `{Scalar F}.
Implicit Types (m : mem F) (l : list F).



End WeightSum.

Section Binary32Corrector.
Implicit Types (m : mem b32) (l : list b32).
Variable cholupdate : list b32 -> list b32 -> nat -> bool -> list b32.
Variable inv : list b32 -> nat -> list b32 * bool.






Hypothesis cholupdate_length :
  forall S v n up, length (cholupdate S v n up) = length S.
Hypothesis inv_length : forall A n, length (inv A n).1 = length A.


Variable qr : list b32 -> nat -> nat -> bool -> list b32 * list b32.
Variable G : list b32 -> list b32 -> list b32 -> list b32 * list b32 * list b32.

End Binary32Corrector.

(** * The claims at concrete inputs *)

Section Binary32.
(** C1 fails.  Two parameters, a transition function that does not depend
    on them and a noiseless measurement: every matrix handed to [qr] and
    [inv] is zero, every update vector is zero, and the inverse fails on
    the singular [Sd' * Sd].  The tick completes all the same, and [Sw],
    rescaled by the scaler, is not what it was. *)
Lemma failed_inverse_leaves_Sw_rescaled :
  exists m' : mem b32,
    sr_ukf_parameter_estimation qr_of_zero cholupdate_by_zero inv_of_singular
      G_zero quarter b32_one b32_two 2 noiseless_input = Done tt m' /\
    m' Arr.AT = replicate 12 b32_zero /\
    m' Arr.b = replicate 2 b32_zero /\
    m' Arr.U = replicate 4 b32_zero /\
    m' Arr.SdTSd = replicate 4 b32_zero /\
    (inv_of_singular (m' Arr.SdTSd) 2).2 = false /\
    noiseless_input Arr.Sw = [b32_one; b32_zero; b32_zero; b32_one] /\
    m' Arr.Sw = [b32_two; b32_zero; b32_zero; b32_two] /\
    m' Arr.Sw <> noiseless_input Arr.Sw.
Proof.
  exists (match sr_ukf_parameter_estimation qr_of_zero cholupdate_by_zero
                  inv_of_singular G_zero quarter b32_one b32_two 2 noiseless_input with
          | Done _ m' => m'
          | OutOfBounds _ _ => noiseless_input
          end).
  do 8 (split; [vm_compute; reflexivity |]).
  vm_compute. discriminate.
Qed.

Lemma sr_ukf_ignores_inverse_status_witness :
  sr_ukf_parameter_estimation qr_of_zero cholupdate_by_zero inv_of_singular
    G_zero quarter b32_one b32_two 2 noiseless_input =
  sr_ukf_parameter_estimation qr_of_zero cholupdate_by_zero inv_reporting_success
    G_zero quarter b32_one b32_two 2 noiseless_input.
Proof.
  apply sr_ukf_ignores_inverse_status. intros A n. reflexivity.
Defined.

Lemma Sd_is_updated_R_factor_witness :
  exists m' : mem b32,
    create_state_estimation_error_covariance_matrix
      qr_of_zero cholupdate_by_zero 2 (sample 2) = Done tt m' /\
    m' Arr.Sd = replicate 4 b32_zero.
Proof.
  destruct (Sd_is_updated_R_factor (F := b32) qr_of_zero cholupdate_by_zero
              2 (sample 2)) as (m' & AT & Hrun & _ & _ & _ & HSd).
  - intros A row column reduced. apply length_replicate.
  - lia.
  - reflexivity.
  - reflexivity.
  - reflexivity.
  - reflexivity.
  - reflexivity.
  - exists m'. split; [exact Hrun |]. rewrite HSd. reflexivity.
Defined.

Lemma corrector_gain_and_downdates_witness :
  exists m' : mem b32,
    update_state_covarariance_matrix_and_state_estimation_vector
      cholupdate_by_zero inv_of_singular 2 (sample 2) = Done tt m' /\
    m' Arr.Sw = sample 2 Arr.Sw.
Proof.
  destruct (corrector_gain_and_downdates (F := b32) cholupdate_by_zero
              inv_of_singular 2 (sample 2))
    as (m' & Hrun & _ & _ & _ & _ & HSw).
  - reflexivity.
  - reflexivity.
  - reflexivity.
  - reflexivity.
  - reflexivity.
  - reflexivity.
  - reflexivity.
  - reflexivity.
  - exists m'. split; [exact Hrun |]. rewrite HSw. reflexivity.
Defined.

Lemma scale_Sw_subscripts_witness :
  (exists m' : mem b32,
     scale_Sw_with_lambda_rls_factor quarter 2 (sample 2) = Done tt m') /\
  scale_Sw_with_lambda_rls_factor quarter 1 (sample (F := b32) 1)
    = OutOfBounds Arr.Sw 1.
Proof.
  split.
  - apply (scale_Sw_subscripts (F := b32) quarter 2 (sample 2)); [lia | reflexivity | lia].
  - apply (scale_Sw_subscripts (F := b32) quarter 1 (sample 1)); [lia | reflexivity | reflexivity].
Defined.

Lemma create_weights_values_witness :
  exists m' : mem b32,
    create_weights b32_one b32_two b32_one 2 (sample 2) = Done tt m' /\
    m' Arr.Wm !!! 1 = m' Arr.Wc !!! 4.
Proof.
  destruct (create_weights_values (F := b32) b32_one b32_two b32_one 2 (sample 2))
    as (m' & Hrun & _ & _ & Hrest); [lia | reflexivity | reflexivity |].
  exists m'. split; [exact Hrun |].
  destruct (Hrest 1 ltac:(lia)) as [-> _].
  destruct (Hrest 4 ltac:(lia)) as [_ ->]. reflexivity.
Defined.

Lemma sigma_point_columns_witness :
  exists m' : mem b32,
    create_sigma_point_matrix b32_one (fthree - of_nat 2)%fl 2 (sample 2) = Done tt m' /\
    m' Arr.W !!! 0 = sample (F := b32) 2 Arr.what !!! 0 /\
    m' Arr.W !!! 5 = sample (F := b32) 2 Arr.what !!! 1.
Proof.
  destruct (sigma_point_columns (F := b32) b32_one 2 (sample 2))
    as (m' & Hrun & Hcols); [lia | reflexivity | reflexivity | reflexivity |].
  exists m'. split; [exact Hrun |]. split.
  - exact (proj1 (Hcols 0 ltac:(lia))).
  - exact (proj1 (Hcols 1 ltac:(lia))).
Defined.

Lemma scale_Sw_prefix_only_witness :
  exists m' : mem b32,
    scale_Sw_with_lambda_rls_factor quarter 3 (sample 3) = Done tt m' /\
    m' Arr.Sw !!! 6 = sample (F := b32) 3 Arr.Sw !!! 6 /\
    m' Arr.Sw !!! 8 = sample (F := b32) 3 Arr.Sw !!! 8.
Proof.
  destruct (scale_Sw_prefix_only (F := b32) quarter 3 (sample 3))
    as (m' & Hrun & _ & _ & Hrest & _); [lia | vm_compute; lia |].
  exists m'. split; [exact Hrun |]. split; apply Hrest; lia.
Defined.

Lemma sr_ukf_writes_only_what_and_Sw_witness :
  exists m' : mem b32,
    sr_ukf_parameter_estimation qr_of_zero cholupdate_by_zero inv_of_singular
      G_zero quarter b32_one b32_two 2 noiseless_input = Done tt m' /\
    m' Arr.d = noiseless_input Arr.d /\
    m' Arr.Re = noiseless_input Arr.Re /\
    m' Arr.x = noiseless_input Arr.x.
Proof.
  exists (match sr_ukf_parameter_estimation qr_of_zero cholupdate_by_zero
                  inv_of_singular G_zero quarter b32_one b32_two 2 noiseless_input with
          | Done _ m' => m'
          | OutOfBounds _ _ => noiseless_input
          end).
  split; [vm_compute; reflexivity |].
  apply (sr_ukf_writes_only_what_and_Sw (F := b32) qr_of_zero cholupdate_by_zero
           G_zero inv_of_singular quarter b32_one b32_two 2).
  - intros dw x w. reflexivity.
  - vm_compute. reflexivity.
Defined.
End Binary32.

Section RoundedWeights.

End RoundedWeights.

Section PredictedMeasurement.

End PredictedMeasurement.

(** * Further properties *)

(** ** The values the middle stages compute *)

Section StageValues.
Context {F : Type} `{Scalar F}.
Implicit Types (m : mem F) (X Y : arr) (l : list F).

Lemma weighted_sum_S (Wm D : list F) N i n :
  weighted_sum Wm D N i (S n) =
  (weighted_sum Wm D N i n + Wm !!! n * D !!! (i * N + n)%nat)%fl.
Proof. unfold weighted_sum. by rewrite seq_S, fold_left_app. Qed.

Lemma multiply_sigma_point_matrix_to_weights_values (L : nat) m :
  L <= 127 ->
  length (m Arr.dhat) = L ->
  length (m Arr.Wm) = 2 * L + 1 ->
  length (m Arr.D) = L * (2 * L + 1) ->
  wp (multiply_sigma_point_matrix_to_weights L)
    (fun _ m' =>
       length (m' Arr.dhat) = L /\
       (forall Y, Y <> Arr.dhat -> m' Y = m Y) /\
       forall i, i < L ->
         m' Arr.dhat !!! i =
         weighted_sum (m Arr.Wm) (m Arr.D) (2 * L + 1) i (2 * L + 1)) m.
Proof.
  intros HL Hdhat HWm HD. unfold multiply_sigma_point_matrix_to_weights, memset0.
  rewrite u8_small by lia. set (N := 2 * L + 1) in *.
  wp_run.
  wp_loop (wp_for (fun n m' =>
       length (m' Arr.dhat) = L /\
       (forall Y, Y <> Arr.dhat -> m' Y = m Y) /\
       forall i, i < L ->
         m' Arr.dhat !!! i = weighted_sum (m Arr.Wm) (m Arr.D) N i n)).
  { lia. }
  { split; [mem_simpl; lia |]. split; [intros Y ?; by mem_simpl |].
    intros i Hi. mem_simpl. rewrite lookup_total_app_l by (mem_simpl; lia).
    by rewrite lookup_total_replicate_2. }
  { intros j m1 Hj (Hlen1 & Hfr1 & Hsum1).
    wp_loop (wp_for_fill Arr.dhat (fun i => i)
        (fun i old => (old + m Arr.Wm !!! j * m Arr.D !!! (i * N + j)%nat)%fl) 0 L).
    { lia. }
    { intros i Hi. lia. }
    { auto. }
    { intros i m2 Hi Hfr Hlen.
      wp_step.
      wp_step by (rewrite Hfr, Hfr1, HWm by done; lia).
      wp_step by (rewrite Hfr, Hfr1, HD by done; nia).
      wp_step.
      unfold stored.
      by rewrite (Hfr Arr.Wm), (Hfr Arr.D), (Hfr1 Arr.Wm), (Hfr1 Arr.D) by done. }
    intros [] m2 (Hfr2 & Hlen2 & Hset2 & _). cbv beta.
    split; [congruence |]. split; [intros Y ?; rewrite Hfr2 by done; auto |].
    intros i Hi. rewrite Hset2 by lia. rewrite Hsum1 by done.
    by rewrite weighted_sum_S. }
  intros [] m' Hm'. exact Hm'.
Qed.
End StageValues.

Section TransitionValues.
Context {F : Type} `{Scalar F}.
Implicit Types (m : mem F) (X Y : arr) (l : list F).
Variable G : list F -> list F -> list F -> list F * list F * list F.

Hypothesis G_length :
  forall dw x w,
    length (G dw x w).1.1 = length dw /\ length (G dw x w).2 = length w.

(** When [dw] depends on [x] and [w] alone and [x] is left as it is,
    column [j] of [D] is the image of column [j] of [W]. *)
Lemma compute_transistion_function_values (L : nat) m :
  L <= 127 ->
  length (m Arr.W) = L * (2 * L + 1) ->
  length (m Arr.D) = L * (2 * L + 1) ->
  wp (compute_transistion_function G L)
    (fun _ m' =>
       length (m' Arr.D) = L * (2 * L + 1) /\
       (forall Y, Y <> Arr.dw -> Y <> Arr.w -> Y <> Arr.D -> Y <> Arr.x ->
                  m' Y = m Y) /\
       forall g : list F -> list F -> list F,
         (forall dw x w, length dw = length w -> (G dw x w).1.1 = g x w) ->
         (forall dw x w, (G dw x w).1.2 = x) ->
         m' Arr.x = m Arr.x /\
         forall i j, i < L -> j < 2 * L + 1 ->
           m' Arr.D !!! (i * (2 * L + 1) + j) =
           g (m Arr.x) (column_of (m Arr.W) L (2 * L + 1) j) !!! i) m.
Proof using G_length.
  intros HL HW HD. unfold compute_transistion_function.
  rewrite u8_small by lia. set (N := 2 * L + 1) in *.
  wp_run.
  wp_loop (wp_for (fun n m' =>
       length (m' Arr.dw) = L /\ length (m' Arr.w) = L /\
       length (m' Arr.D) = L * N /\
       (forall Y, Y <> Arr.dw -> Y <> Arr.w -> Y <> Arr.D -> Y <> Arr.x ->
                  m' Y = m Y) /\
       forall g : list F -> list F -> list F,
         (forall dw x w, length dw = length w -> (G dw x w).1.1 = g x w) ->
         (forall dw x w, (G dw x w).1.2 = x) ->
         m' Arr.x = m Arr.x /\
         forall i j, i < L -> j < n ->
           m' Arr.D !!! (i * N + j) =
           g (m Arr.x) (column_of (m Arr.W) L N j) !!! i)).
  { lia. }
  { split; [by mem_simpl |]. split; [by mem_simpl |]. split; [by mem_simpl |].
    split; [intros Y ? ? ? ?; by mem_simpl |].
    intros g _ _. split; [by mem_simpl | intros; lia]. }
  { intros j m1 Hj (Hdw & Hw & HD1 & Hfr1 & Hval1).
    wp_loop (wp_for_fill Arr.w (fun i => i)
               (fun i _ => m Arr.W !!! (i * N + j)) 0 L).
    { lia. }
    { intros i Hi. lia. }
    { auto. }
    { intros i m' Hi Hfr Hlen.
      wp_step by (rewrite Hfr, Hfr1, HW by done; nia).
      wp_step by (rewrite Hlen; lia).
      unfold stored. by rewrite (Hfr Arr.W), (Hfr1 Arr.W) by done. }
    intros [] m2 (Hfr2 & Hlen2 & Hset2 & _). cbv beta.
    assert (Hw2 : m2 Arr.w = column_of (m Arr.W) L N j).
    { apply list_eq_tabulate; [congruence |]. intros i Hi. apply Hset2. lia. }
    unfold call_G. wp_run.
    set (m3 := upd Arr.w _ _).
    destruct (G_length (m2 Arr.dw) (m2 Arr.x) (m2 Arr.w)) as [HGdw HGw].
    assert (Hdw3 : length (m3 Arr.dw) = L).
    { unfold m3. mem_simpl. rewrite HGdw, Hfr2 by done. done. }
    assert (Hw3 : length (m3 Arr.w) = L).
    { unfold m3. mem_simpl. rewrite HGw. congruence. }
    assert (Hfr3 : forall Y, Y <> Arr.dw -> Y <> Arr.w -> Y <> Arr.x -> m3 Y = m1 Y).
    { intros Y ? ? ?. unfold m3. mem_simpl. by apply Hfr2. }
    wp_loop (wp_for_fill Arr.D (fun i => i * N + j)
               (fun i _ => m3 Arr.dw !!! i) 0 L).
    { lia. }
    { intros i Hi. rewrite Hfr3, HD1 by done. nia. }
    { intros i i' _ _ Heq. apply cell_inj in Heq; [tauto | lia | lia]. }
    { intros i m' Hi Hfr Hlen.
      wp_step by (rewrite Hfr by done; lia).
      wp_step by (rewrite Hlen, Hfr3, HD1 by done; nia).
      unfold stored. by rewrite Hfr by done. }
    intros [] m4 (Hfr4 & Hlen4 & Hset4 & Hrest4). cbv beta.
    split; [by rewrite Hfr4 by done |]. split; [by rewrite Hfr4 by done |].
    split; [rewrite Hlen4, Hfr3 by done; done |].
    split; [intros Y ? ? ? ?; rewrite Hfr4, Hfr3 by done; by apply Hfr1 |].
    intros g Hg Hx. destruct (Hval1 g Hg Hx) as [Hx1 HD1'].
    assert (Hx3 : m3 Arr.x = m Arr.x).
    { unfold m3. mem_simpl. rewrite Hx, Hfr2 by done. done. }
    split; [by rewrite Hfr4 by done |].
    intros i j' Hi Hj'. destruct (decide (j' = j)) as [->|Hne].
    - rewrite Hset4 by lia. unfold m3. mem_simpl.
      rewrite Hg by (rewrite Hfr2 by done; congruence).
      by rewrite Hw2, Hfr2, Hx1 by done.
    - rewrite Hrest4.
      + rewrite Hfr3 by done. apply HD1'; lia.
      + intros i' Hi' Heq. apply cell_inj in Heq; lia. }
  intros [] m' (_ & _ & HD' & Hfr' & Hval'). auto.
Qed.
End TransitionValues.

Section CrossCovarianceValues.
Context {F : Type} `{Scalar F}.
Implicit Types (m : mem F) (X Y : arr) (l : list F).

Lemma cell_decode N k : 0 < N -> k = k / N * N + k mod N.
Proof. intros HN. rewrite (Nat.div_mod_eq k N) at 1. lia. Qed.

Lemma cell_row N L k : k < L * N -> k / N < L.
Proof. intros Hk. apply Nat.Div0.div_lt_upper_bound. lia. Qed.

Lemma list_eq_centred l (A v : list F) L N :
  0 < N ->
  length l = L * N ->
  (forall i j, i < L -> j < N ->
     l !!! (i * N + j) = (A !!! (i * N + j)%nat - v !!! i)%fl) ->
  l = centred A v L N.
Proof.
  intros HN Hlen Hl. apply list_eq_tabulate; [done |].
  intros k Hk. rewrite (cell_decode N k HN) at 1 2.
  apply Hl; [by apply cell_row | by apply Nat.mod_upper_bound; lia].
Qed.

Lemma create_state_cross_covariance_matrix_values (L : nat) m :
  2 <= L <= 127 ->
  length (m Arr.Pwd) = L * L ->
  length (m Arr.W) = L * (2 * L + 1) ->
  length (m Arr.D) = L * (2 * L + 1) ->
  length (m Arr.what) = L ->
  length (m Arr.dhat) = L ->
  length (m Arr.Wc) = 2 * L + 1 ->
  wp (create_state_cross_covariance_matrix L)
    (fun _ m' =>
       m' Arr.W = centred (m Arr.W) (m Arr.what) L (2 * L + 1) /\
       m' Arr.D =
         tran (centred (m Arr.D) (m Arr.dhat) L (2 * L + 1)) L (2 * L + 1) /\
       m' Arr.diagonal_W = diagonal (m Arr.Wc) (2 * L + 1) /\
       m' Arr.diagonal_WD =
         mul (m' Arr.diagonal_W) (m' Arr.D) (2 * L + 1) (2 * L + 1) L /\
       m' Arr.Pwd = mul (m' Arr.W) (m' Arr.diagonal_WD) L (2 * L + 1) L /\
       (forall Y, Y <> Arr.Pwd -> Y <> Arr.W -> Y <> Arr.D ->
                  Y <> Arr.diagonal_W -> Y <> Arr.diagonal_WD -> m' Y = m Y)) m.
Proof.
  intros HL HPwd HW HD Hwhat Hdhat HWc.
  unfold create_state_cross_covariance_matrix, memset0, call_tran, call_mul.
  rewrite !u8_small by lia. set (N := 2 * L + 1) in *.
  wp_step by nia. wp_run.
  set (m0 := upd Arr.Pwd _ _).
  assert (Hm0 : forall Y, Y <> Arr.Pwd -> m0 Y = m Y).
  { intros Y ?. unfold m0. by mem_simpl. }
  assert (HP0 : length (m0 Arr.Pwd) = L * L).
  { unfold m0. mem_simpl. nia. }
  set (I := fun (j i : nat) m' =>
       length (m' Arr.W) = L * N /\ length (m' Arr.D) = L * N /\
       (forall Y, Y <> Arr.W -> Y <> Arr.D -> m' Y = m0 Y) /\
       (forall i' j', i' < L -> j' < N -> j' < j \/ (j' = j /\ i' < i) ->
          m' Arr.W !!! (i' * N + j') =
            (m Arr.W !!! (i' * N + j')%nat - m Arr.what !!! i')%fl /\
          m' Arr.D !!! (i' * N + j') =
            (m Arr.D !!! (i' * N + j')%nat - m Arr.dhat !!! i')%fl) /\
       (forall i' j', i' < L -> j' < N -> ~ (j' < j \/ (j' = j /\ i' < i)) ->
          (m' Arr.W !!! (i' * N + j') : F) = m Arr.W !!! (i' * N + j') /\
          (m' Arr.D !!! (i' * N + j') : F) = m Arr.D !!! (i' * N + j'))).
  wp_loop (wp_for (fun j => I j 0)).
  { lia. }
  { split; [by rewrite Hm0 |]. split; [by rewrite Hm0 |].
    split; [done |]. split; [intros; lia |].
    intros i' j' _ _ _. by rewrite !Hm0. }
  { intros j m1 Hj Hm1.
    wp_loop (wp_for (I j)).
    { lia. }
    { exact Hm1. }
    { intros i m2 Hi (HlW & HlD & Hfr & Hdone & Htodo).
      destruct (Htodo i j) as [HWij HDij]; [lia | lia | lia |].
      wp_step by nia.
      wp_step by (rewrite Hfr, Hm0, Hwhat by done; lia).
      wp_step by nia.
      wp_step by nia.
      wp_step by (rewrite Hfr, Hm0, Hdhat by done; lia).
      wp_step by nia.
      mem_simpl.
      rewrite HWij, HDij, (Hfr Arr.what), (Hfr Arr.dhat), !Hm0 by done.
      split; [by mem_simpl |]. split; [by mem_simpl |].
      split; [intros Y ? ?; mem_simpl; auto |].
      split.
      - intros i' j' Hi' Hj' Hp. mem_simpl.
        destruct (decide (i' = i /\ j' = j)) as [[-> ->]|Hne].
        + by rewrite !list_lookup_total_insert_eq by nia.
        + rewrite !list_lookup_total_insert_ne.
          * apply Hdone; [done | done | lia].
          * intros Heq. apply cell_inj in Heq; lia.
          * intros Heq. apply cell_inj in Heq; lia.
      - intros i' j' Hi' Hj' Hp. mem_simpl.
        rewrite !list_lookup_total_insert_ne.
        + apply Htodo; [done | done | lia].
        + intros Heq. apply cell_inj in Heq; lia.
        + intros Heq. apply cell_inj in Heq; lia. }
    intros [] m2 (HlW & HlD & Hfr & Hdone & Htodo). cbv beta.
    split; [done |]. split; [done |]. split; [done |]. split.
    - intros i' j' Hi' Hj' Hp. apply Hdone; [done | done | lia].
    - intros i' j' Hi' Hj' Hp. apply Htodo; [done | done | lia]. }
  intros [] m1 (HlW & HlD & Hfr1 & Hdone & _). cbv beta.
  assert (HW1 : m1 Arr.W = centred (m Arr.W) (m Arr.what) L N).
  { apply list_eq_centred; [lia | done |].
    intros i j Hi Hj. apply Hdone; [done | done | lia]. }
  assert (HD1 : m1 Arr.D = centred (m Arr.D) (m Arr.dhat) L N).
  { apply list_eq_centred; [lia | done |].
    intros i j Hi Hj. apply Hdone; [done | done | lia]. }
  wp_run.
  set (m1' := upd Arr.diagonal_W _ _).
  assert (Hm1' : forall Y, Y <> Arr.diagonal_W -> m1' Y = m1 Y).
  { intros Y ?. unfold m1'. by mem_simpl. }
  assert (Hdiag0 : m1' Arr.diagonal_W = replicate (N * N) fzero).
  { unfold m1'. mem_simpl. by list_simpl. }
  wp_loop (wp_for_fill Arr.diagonal_W (fun i => i * N + i)
             (fun i _ => m Arr.Wc !!! i) 0 N).
  { lia. }
  { intros i Hi. rewrite Hdiag0. mem_simpl. nia. }
  { intros i i' _ _ Heq. nia. }
  { intros i m' Hi Hfr Hlen.
    wp_step by (rewrite Hfr, Hm1', Hfr1, Hm0, HWc by done; lia).
    wp_step by (rewrite Hlen, Hdiag0; mem_simpl; nia).
    unfold stored.
    by rewrite (Hfr Arr.Wc), (Hm1' Arr.Wc), (Hfr1 Arr.Wc), (Hm0 Arr.Wc) by done. }
  intros [] m2 (Hfr2 & Hlen2 & Hset2 & Hrest2). cbv beta.
  assert (Hdiag2 : m2 Arr.diagonal_W = diagonal (m Arr.Wc) N).
  { apply list_eq_tabulate.
    - rewrite Hlen2, Hdiag0. by mem_simpl.
    - intros k Hk. pose proof (cell_decode N k ltac:(lia)) as Hdec.
      pose proof (cell_row N N k Hk) as Hrow.
      pose proof (Nat.mod_upper_bound k N ltac:(lia)) as Hcol.
      destruct (Nat.eqb_spec (k / N) (k mod N)) as [Heq|Hne].
      + rewrite Hdec at 1. rewrite <- Heq. apply Hset2. lia.
      + rewrite Hrest2.
        * rewrite Hdiag0. apply lookup_total_replicate_2. lia.
        * intros i Hi Hik. apply Hne.
          assert (i * N + i = k / N * N + k mod N) as Hcell by lia.
          apply cell_inj in Hcell; lia. }
  assert (Hm2 : forall Y, Y <> Arr.diagonal_W -> m2 Y = m1 Y).
  { intros Y ?. rewrite Hfr2 by done. by apply Hm1'. }
  assert (HlD2 : length (m2 Arr.D) = L * N) by (by rewrite Hm2).
  assert (HlW2 : length (m2 Arr.W) = L * N) by (by rewrite Hm2).
  assert (HlP2 : length (m2 Arr.Pwd) = L * L).
  { by rewrite Hm2, Hfr1 by done. }
  do 4 wp_step.
  wp_step by (rewrite Hdiag2; unfold diagonal; mem_simpl; lia).
  do 2 (wp_step by nia). do 4 wp_step.
  do 3 (wp_step by nia). wp_run.
  mem_simpl. list_simpl.
  rewrite Hdiag2, (Hm2 Arr.D), (Hm2 Arr.W), HD1, HW1 by done.
  split; [done |]. split; [done |]. split; [done |].
  split; [done |]. split; [done |].
  intros Y ? ? ? ? ?. mem_simpl. rewrite Hm2, Hfr1 by done. by apply Hm0.
Qed.
End CrossCovarianceValues.

(** ** A tick up to the predicted measurement *)

Section Prediction.
Context {F : Type} `{Scalar F}.
Implicit Types (m : mem F) (X Y : arr) (l : list F).
Variable qr : list F -> nat -> nat -> bool -> list F * list F.
Variable cholupdate : list F -> list F -> nat -> bool -> list F.
Variable inv : list F -> nat -> list F * bool.
Variable G : list F -> list F -> list F -> list F * list F * list F.

Hypothesis G_length :
  forall dw x w,
    length (G dw x w).1.1 = length dw /\ length (G dw x w).2 = length w.

(** A property of the outcome of [c ;; k] follows from what [c] leaves. *)
Lemma wp_then {A B} (c : prog F A) (k : A -> prog F B)
    (P : outcome F B -> Prop) m :
  wp c (fun a m' => P (k a m')) m -> P (bind c k m).
Proof. unfold wp, bind. by destruct (c m). Qed.

Lemma length_rescaled l (lambda_rls : F) n :
  length (rescaled l lambda_rls n) = length l.
Proof.
  unfold rescaled. rewrite length_app, length_fmap, length_take, length_drop. lia.
Qed.

Lemma rescaled_lookup_lt l (lambda_rls : F) n i :
  i < n -> i < length l ->
  rescaled l lambda_rls n !!! i = (l !!! i * (fone / fsqrt lambda_rls))%fl.
Proof.
  intros Hi Hl. unfold rescaled. apply list_lookup_total_correct.
  rewrite lookup_app_l by (rewrite length_fmap, length_take; lia).
  rewrite list_lookup_fmap, lookup_take_lt by lia.
  by rewrite (list_lookup_lookup_total_lt l i) by lia.
Qed.

Lemma rescaled_lookup_ge l (lambda_rls : F) n i :
  n <= i -> n <= length l -> rescaled l lambda_rls n !!! i = l !!! i.
Proof.
  intros Hi Hl. unfold rescaled.
  rewrite lookup_total_app_r by (rewrite length_fmap, length_take; lia).
  rewrite length_fmap, length_take, lookup_total_drop. f_equal. lia.
Qed.

Lemma sr_ukf_predicts (lambda_rls alpha beta : F) (L : nat) m
    (P : outcome F unit -> Prop) :
  2 <= L <= 127 ->
  length (m Arr.what) = L ->
  length (m Arr.Sw) = L * L ->
  let N := 2 * L + 1 in
  let lambda :=
    (alpha * alpha * (of_nat L + (fthree - of_nat L)) - of_nat L)%fl in
  let gamma := fsqrt (of_nat L + lambda)%fl in
  (forall m5,
     (forall Y, Y <> Arr.Wc -> Y <> Arr.Wm -> Y <> Arr.Sw -> Y <> Arr.W ->
                Y <> Arr.D -> Y <> Arr.dw -> Y <> Arr.w -> Y <> Arr.x ->
                Y <> Arr.dhat -> m5 Y = m Y) ->
     length (m5 Arr.Wc) = N ->
     length (m5 Arr.Wm) = N ->
     m5 Arr.Wm !!! 0 = (lambda / (of_nat L + lambda))%fl ->
     m5 Arr.Wc !!! 0 =
       (lambda / (of_nat L + lambda) + of_nat 1 - alpha * alpha + beta)%fl ->
     (forall i, 1 <= i <= 2 * L ->
        m5 Arr.Wm !!! i = (fhalf / (of_nat L + lambda))%fl /\
        m5 Arr.Wc !!! i = (fhalf / (of_nat L + lambda))%fl) ->
     m5 Arr.Sw = rescaled (m Arr.Sw) lambda_rls (2 * L) ->
     length (m5 Arr.W) = L * N ->
     (forall i, i < L ->
        (m5 Arr.W !!! (i * N) : F) = m Arr.what !!! i /\
        (forall j, 1 <= j <= L ->
           m5 Arr.W !!! (i * N + j) =
           (m Arr.what !!! i + gamma * m5 Arr.Sw !!! (i * L + (j - 1))%nat)%fl) /\
        (forall j, L + 1 <= j <= 2 * L ->
           m5 Arr.W !!! (i * N + j) =
           (m Arr.what !!! i
            - gamma * m5 Arr.Sw !!! (i * L + (j - L - 1))%nat)%fl)) ->
     length (m5 Arr.D) = L * N ->
     (forall g : list F -> list F -> list F,
        (forall dw x w, length dw = length w -> (G dw x w).1.1 = g x w) ->
        (forall dw x w, (G dw x w).1.2 = x) ->
        m5 Arr.x = m Arr.x /\
        forall i j, i < L -> j < N ->
          m5 Arr.D !!! (i * N + j) =
          g (m Arr.x) (column_of (m5 Arr.W) L N j) !!! i) ->
     length (m5 Arr.dhat) = L ->
     (forall i, i < L ->
        m5 Arr.dhat !!! i = weighted_sum (m5 Arr.Wm) (m5 Arr.D) N i N) ->
     P ((alloc Arr.Sd (L * L) ;;
         create_state_estimation_error_covariance_matrix qr cholupdate L ;;
         alloc Arr.Pwd (L * L) ;;
         create_state_cross_covariance_matrix L ;;
         update_state_covarariance_matrix_and_state_estimation_vector
           cholupdate inv L) m5)) ->
  P (sr_ukf_parameter_estimation qr cholupdate inv G lambda_rls alpha beta L m).
Proof using G_length.
  intros HL Hwhat HSw N lambda gamma Hrest.
  unfold sr_ukf_parameter_estimation.
  rewrite u8_small by lia. fold N.
  apply wp_then. wp_step. apply wp_then. wp_step.
  set (m0 := upd Arr.Wm _ _).
  assert (Hm0 : forall Y, Y <> Arr.Wc -> Y <> Arr.Wm -> m0 Y = m Y).
  { intros Y ? ?. unfold m0. by mem_simpl. }
  (* weights *)
  apply wp_then. eapply wp_mono.
  { apply create_weights_spec; [lia | unfold m0; by mem_simpl ..]. }
  intros [] m1 (Hfr1 & HWc1 & HWm1 & HWm0 & HWc0 & HWi). cbv beta.
  fold lambda in HWm0, HWc0, HWi.
  (* scaler *)
  apply wp_then. eapply wp_mono.
  { apply scale_Sw_spec. rewrite Hfr1, Hm0, HSw by done.
    pose proof (u8_le (2 * L)). nia. }
  intros [] m2 (HlSw2 & HSwlt & HSwge & Hfr2). cbv beta.
  rewrite u8_small in HSwlt, HSwge by lia.
  rewrite (Hfr1 Arr.Sw), (Hm0 Arr.Sw) in HlSw2, HSwlt, HSwge by done.
  assert (HSw2 : m2 Arr.Sw = rescaled (m Arr.Sw) lambda_rls (2 * L)).
  { apply list_eq_lookup_total; [by rewrite length_rescaled |].
    intros i Hi. destruct (decide (i < 2 * L)).
    - rewrite rescaled_lookup_lt by lia. by apply HSwlt.
    - rewrite rescaled_lookup_ge by nia. apply HSwge. lia. }
  (* sigma points *)
  apply wp_then. wp_step. set (m2' := upd Arr.W _ _).
  assert (Hm2' : forall Y, Y <> Arr.W -> Y <> Arr.Sw -> Y <> Arr.Wc -> Y <> Arr.Wm ->
                           m2' Y = m Y).
  { intros Y ? ? ? ?. unfold m2'. mem_simpl. rewrite Hfr2, Hfr1 by done. by apply Hm0. }
  apply wp_then. eapply wp_mono.
  { apply create_sigma_point_matrix_spec.
    - lia.
    - by rewrite Hm2'.
    - unfold m2'. mem_simpl. lia.
    - unfold m2'. by mem_simpl. }
  intros [] m3 (Hfr3 & HW3 & Hsig). cbv beta.
  fold lambda in Hsig. fold gamma in Hsig. fold N in Hsig.
  assert (HW3' : length (m3 Arr.W) = L * N) by (rewrite HW3; unfold m2'; by mem_simpl).
  (* transition *)
  apply wp_then. wp_step. set (m3' := upd Arr.D _ _).
  apply wp_then. eapply wp_mono.
  { apply (compute_transistion_function_values G G_length).
    - lia.
    - unfold m3'. by mem_simpl.
    - unfold m3'. by mem_simpl. }
  intros [] m4 (HD4 & Hfr4 & Hpure). cbv beta. fold N in HD4, Hpure.
  assert (Hm4 : forall Y, Y <> Arr.dw -> Y <> Arr.w -> Y <> Arr.D -> Y <> Arr.x ->
                          Y <> Arr.W -> m4 Y = m2 Y).
  { intros Y ? ? ? ? ?. rewrite Hfr4 by done. unfold m3'. mem_simpl.
    rewrite Hfr3 by done. unfold m2'. by mem_simpl. }
  assert (HW4 : m4 Arr.W = m3 Arr.W).
  { rewrite Hfr4 by done. unfold m3'. by mem_simpl. }
  (* dhat *)
  apply wp_then. wp_step. set (m4' := upd Arr.dhat _ _).
  apply wp_then. eapply wp_mono.
  { apply multiply_sigma_point_matrix_to_weights_values.
    - lia.
    - unfold m4'. by mem_simpl.
    - unfold m4'. mem_simpl. by rewrite Hm4, Hfr2 by done.
    - unfold m4'. by mem_simpl. }
  intros [] m5 (Hdhat5 & Hfr5 & Hsum5). cbv beta. fold N in Hsum5.
  assert (Hm5 : forall Y, Y <> Arr.dhat -> m5 Y = m4 Y).
  { intros Y ?. rewrite Hfr5 by done. unfold m4'. by mem_simpl. }
  apply Hrest.
  - intros Y ? ? ? ? ? ? ? ? ?. rewrite Hm5, Hm4, Hfr2, Hfr1 by done. by apply Hm0.
  - by rewrite Hm5, Hm4, Hfr2 by done.
  - by rewrite Hm5, Hm4, Hfr2 by done.
  - by rewrite Hm5, Hm4, Hfr2 by done.
  - by rewrite Hm5, Hm4, Hfr2 by done.
  - intros i Hi. rewrite !Hm5, !Hm4, !Hfr2 by done. by apply HWi.
  - by rewrite Hm5, Hm4 by done.
  - by rewrite Hm5, HW4 by done.
  - intros i Hi. rewrite !Hm5, HW4, (Hm4 Arr.Sw) by done.
    destruct (Hsig i Hi) as (H0 & H1 & H2).
    rewrite (Hm2' Arr.what) in H0, H1, H2 by done.
    replace (m2' Arr.Sw) with (m2 Arr.Sw) in H1, H2 by (unfold m2'; by mem_simpl).
    done.
  - by rewrite Hm5.
  - intros g Hg Hx. destruct (Hpure g Hg Hx) as [Hx4 HDv].
    replace (m3' Arr.x) with (m Arr.x) in Hx4, HDv.
    2:{ unfold m3'. mem_simpl. rewrite Hfr3 by done. symmetry. by apply Hm2'. }
    replace (m3' Arr.W) with (m3 Arr.W) in HDv by (unfold m3'; by mem_simpl).
    rewrite !Hm5, HW4 by done. split; [done |]. exact HDv.
  - done.
  - intros i Hi. rewrite Hsum5 by done.
    unfold m4'. mem_simpl. by rewrite (Hm5 Arr.Wm), (Hm5 Arr.D) by done.
Qed.
End Prediction.

(** ** A tick from the predicted measurement on *)

Section Correction.
Context {F : Type} `{Scalar F}.
Implicit Types (m : mem F) (X Y : arr) (l : list F).
Variable qr : list F -> nat -> nat -> bool -> list F * list F.
Variable cholupdate : list F -> list F -> nat -> bool -> list F.
Variable inv : list F -> nat -> list F * bool.

Hypothesis qr_R_length :
  forall A row column reduced, length (qr A row column reduced).2 = row * column.
Hypothesis cholupdate_length :
  forall S v n up, length (cholupdate S v n up) = length S.
Hypothesis inv_length : forall A n, length (inv A n).1 = length A.

Lemma sr_ukf_corrects (L : nat) m :
  2 <= L <= 85 ->
  length (m Arr.d) = L ->
  length (m Arr.what) = L ->
  length (m Arr.Re) = L * L ->
  length (m Arr.Sw) = L * L ->
  length (m Arr.Wc) = 2 * L + 1 ->
  length (m Arr.W) = L * (2 * L + 1) ->
  length (m Arr.D) = L * (2 * L + 1) ->
  length (m Arr.dhat) = L ->
  wp (alloc Arr.Sd (L * L) ;;
      create_state_estimation_error_covariance_matrix qr cholupdate L ;;
      alloc Arr.Pwd (L * L) ;;
      create_state_cross_covariance_matrix L ;;
      update_state_covarariance_matrix_and_state_estimation_vector
        cholupdate inv L)
    (fun _ m' =>
       m' Arr.Pwd =
         mul (centred (m Arr.W) (m Arr.what) L (2 * L + 1))
           (mul (diagonal (m Arr.Wc) (2 * L + 1))
              (tran (centred (m Arr.D) (m Arr.dhat) L (2 * L + 1))
                 L (2 * L + 1))
              (2 * L + 1) (2 * L + 1) L)
           L (2 * L + 1) L /\
       m' Arr.K = gain inv (m' Arr.Sd) (m' Arr.Pwd) L /\
       m' Arr.Kd = mul (m' Arr.K) (innovation (m Arr.d) (m Arr.dhat) L) L L 1 /\
       m' Arr.U = mul (m' Arr.K) (m' Arr.Sd) L L L /\
       length (m' Arr.what) = L /\
       (forall i, i < L ->
          m' Arr.what !!! i = (m Arr.what !!! i + m' Arr.Kd !!! i)%fl) /\
       m' Arr.Sw = downdates cholupdate (m Arr.Sw) (m' Arr.U) L L /\
       m' Arr.d = m Arr.d /\ m' Arr.dhat = m Arr.dhat) m.
Proof using qr_R_length cholupdate_length inv_length.
  intros HL Hd Hwhat HRe HSw HWc HW HD Hdhat.
  set (N := 2 * L + 1) in *.
  wp_step. set (m5' := upd Arr.Sd _ _).
  assert (Hm5' : forall Y, Y <> Arr.Sd -> m5' Y = m Y).
  { intros Y ?. unfold m5'. by mem_simpl. }
  wp_head. eapply wp_mono.
  { apply (create_state_estimation_error_covariance_matrix_spec qr cholupdate
             qr_R_length); [lia | rewrite ?Hm5' by done; try done ..].
    unfold m5'. by mem_simpl. }
  intros [] m6 (AT & _ & _ & _ & HSd6 & Hfr6). cbv beta.
  assert (HlSd6 : length (m6 Arr.Sd) = L * L).
  { rewrite HSd6, cholupdate_length, length_take, qr_R_length. nia. }
  assert (Hm6 : forall Y, Y <> Arr.Sd -> Y <> Arr.AT -> Y <> Arr.Q -> Y <> Arr.R ->
                          Y <> Arr.b -> m6 Y = m Y).
  { intros Y ? ? ? ? ?. rewrite Hfr6 by done. by apply Hm5'. }
  wp_step. set (m6' := upd Arr.Pwd _ _).
  assert (Hm6' : forall Y, Y <> Arr.Pwd -> m6' Y = m6 Y).
  { intros Y ?. unfold m6'. by mem_simpl. }
  wp_head. eapply wp_mono.
  { apply create_state_cross_covariance_matrix_values;
      [lia | rewrite ?Hm6', ?Hm6 by done; try done ..].
    unfold m6'. by mem_simpl. }
  intros [] m7 (HW7 & HD7 & Hdg7 & HWD7 & HPwd7 & Hfr7). cbv beta.
  fold N in HW7, HD7, Hdg7, HWD7, HPwd7.
  rewrite (Hm6' Arr.W), (Hm6 Arr.W), (Hm6' Arr.what), (Hm6 Arr.what) in HW7 by done.
  rewrite (Hm6' Arr.D), (Hm6 Arr.D), (Hm6' Arr.dhat) in HD7 by done.
  rewrite (Hfr6 Arr.dhat), (Hm5' Arr.dhat) in HD7 by done.
  rewrite (Hm6' Arr.Wc), (Hm6 Arr.Wc) in Hdg7 by done.
  assert (Hm7 : forall Y, Y <> Arr.Pwd -> Y <> Arr.W -> Y <> Arr.D ->
                 Y <> Arr.diagonal_W -> Y <> Arr.diagonal_WD -> m7 Y = m6 Y).
  { intros Y ? ? ? ? ?. rewrite Hfr7 by done. by apply Hm6'. }
  eapply wp_mono.
  { apply (corrector_spec cholupdate inv cholupdate_length inv_length).
    - by rewrite Hm7.
    - rewrite HPwd7. by mem_simpl.
    - by rewrite Hm7, Hm6.
    - by rewrite Hm7, Hm6.
    - by rewrite Hm7, Hm6.
    - by rewrite Hm7, Hm6. }
  intros [] m8 (HK & HKd & HU & Hlwhat & Hwhat8 & HSw8 & Hd8 & Hdhat8 & HSd8 & HPwd8).
  cbv beta in *.
  rewrite (Hm7 Arr.d), (Hm6 Arr.d) in HKd, Hwhat8, Hd8 by done.
  rewrite (Hm7 Arr.dhat), (Hm6 Arr.dhat) in HKd, Hwhat8, Hdhat8 by done.
  rewrite (Hm7 Arr.what), (Hm6 Arr.what) in Hwhat8 by done.
  rewrite (Hm7 Arr.Sw), (Hm6 Arr.Sw) in HSw8 by done.
  rewrite <- HSd8, <- HPwd8 in HK, HKd, HU, Hwhat8, HSw8.
  rewrite <- HK in HKd, HU, Hwhat8, HSw8.
  rewrite <- HKd in Hwhat8. rewrite <- HU in HSw8.
  split; [by rewrite HPwd8, HPwd7, HWD7, Hdg7, HW7, HD7 |].
  by do 7 (split; [done |]).
Qed.
End Correction.

(** ** Runs that end at a subscript out of range *)

Section Faults.
Context {F : Type} `{Scalar F}.
Implicit Types (m : mem F) (X Y : arr) (l : list F).

Lemma fault_then {A B} (c : prog F A) (k : A -> prog F B) X i m :
  c m = OutOfBounds X i -> bind c k m = OutOfBounds X i.
Proof. unfold bind. by intros ->. Qed.

Lemma fault_after {A B} (c : prog F A) (k : A -> prog F B) X i m :
  wp c (fun a m' => k a m' = OutOfBounds X i) m ->
  bind c k m = OutOfBounds X i.
Proof. apply (wp_then c k (fun o => o = OutOfBounds X i)). Qed.

Lemma for_loop_app n1 n2 i (body : nat -> prog F unit) m :
  for_loop (n1 + n2) i body m =
  bind (for_loop n1 i body) (fun _ => for_loop n2 (i + n1) body) m.
Proof.
  revert i m. induction n1 as [|n1 IH]; intros i m; simpl.
  - unfold bind, ret. by rewrite Nat.add_0_r.
  - unfold bind at 1 2 3. destruct (body i m) as [[] m'|]; [| done].
    rewrite IH. unfold bind. by replace (S i + n1) with (i + S n1) by lia.
Qed.

Lemma for_split lo mid hi (body : nat -> prog F unit) m :
  lo <= mid <= hi ->
  for_ lo hi body m = bind (for_ lo mid body) (fun _ => for_ mid hi body) m.
Proof.
  intros Hle. unfold for_.
  replace (hi - lo) with ((mid - lo) + (hi - mid)) by lia.
  rewrite for_loop_app. by replace (lo + (mid - lo)) with mid by lia.
Qed.

Lemma for_first lo hi (body : nat -> prog F unit) m :
  lo < hi ->
  for_ lo hi body m = bind (body lo) (fun _ => for_ (S lo) hi body) m.
Proof.
  intros Hlt. unfold for_.
  replace (hi - lo) with (S (hi - S lo)) by lia. done.
Qed.

Lemma store_fault X i (v : F) m :
  length (m X) <= i -> store X i v m = OutOfBounds X i.
Proof.
  intros Hi. unfold store. by destruct (Nat.ltb_spec i (length (m X))); [lia |].
Qed.

Lemma load_fault X i m :
  length (m X) <= i -> load X i m = OutOfBounds X i.
Proof.
  intros Hi. unfold load. by destruct (Nat.ltb_spec i (length (m X))); [lia |].
Qed.

Lemma u8_wrapped n : 256 <= n < 512 -> u8 n = n - 256.
Proof.
  intros Hn. unfold u8. symmetry. apply (Nat.mod_unique n 256 1); lia.
Qed.

(** The scaler on a one-cell [Sw]. *)
Lemma scale_Sw_one_cell (lambda_rls : F) m :
  length (m Arr.Sw) = 1 ->
  scale_Sw_with_lambda_rls_factor lambda_rls 1 m = OutOfBounds Arr.Sw 1.
Proof.
  intros HSw. unfold scale_Sw_with_lambda_rls_factor.
  rewrite u8_small by lia. change (2 * 1) with 2.
  rewrite for_first by lia. apply fault_after.
  wp_step. wp_step.
  rewrite for_first by lia. apply fault_then, fault_then.
  apply load_fault. mem_simpl. lia.
Qed.

Variable qr : list F -> nat -> nat -> bool -> list F * list F.
Variable cholupdate : list F -> list F -> nat -> bool -> list F.

(** When the row length [M] of [AT] has wrapped below the number [K] of
    columns taken from [D], the fill of these columns runs off the array:
    the last row has no column [M]. *)
Lemma Sd_builder_overruns_AT (L N M K : nat) m :
  u8 (2 * L + 1) = N ->
  u8 (2 * L + L) = M ->
  u8 (2 * L) = K ->
  1 <= L ->
  1 <= M < K ->
  K < N ->
  2 <= length (m Arr.Wc) ->
  length (m Arr.D) = L * N ->
  length (m Arr.dhat) = L ->
  create_state_estimation_error_covariance_matrix qr cholupdate L m =
  OutOfBounds Arr.AT (L * M).
Proof.
  intros HN HM HK HL HMK HKN HWc HD Hdhat.
  unfold create_state_estimation_error_covariance_matrix.
  rewrite HN, HM, HK.
  apply fault_after. wp_step.
  apply fault_after. wp_step.
  apply fault_after. wp_step.
  apply fault_after. wp_step.
  set (m0 := upd Arr.R _ _).
  assert (Hm0 : forall Y, Y <> Arr.AT -> Y <> Arr.Q -> Y <> Arr.R -> m0 Y = m Y).
  { intros Y ? ? ?. unfold m0. by mem_simpl. }
  assert (HAT0 : length (m0 Arr.AT) = L * M) by (unfold m0; by mem_simpl).
  apply fault_then.
  rewrite (for_split 0 M K) by lia.
  apply fault_after. eapply wp_mono.
  { apply (wp_for_fill_columns Arr.AT M L 0 M
      (fun i j => (fsqrt (fabs (m Arr.Wc !!! 1)) *
             (m Arr.D !!! (i * N + j + 1)%nat - m Arr.dhat !!! i))%fl)).
    - lia.
    - lia.
    - intros i j m' Hi Hj Hfr Hlen.
      wp_step by (rewrite Hfr, Hm0, HD by done; nia).
      wp_step by (rewrite Hfr, Hm0, Hdhat by done; lia).
      wp_step by (rewrite Hlen, HAT0; nia).
      unfold stored. by rewrite !Hfr, !Hm0 by done. }
  intros [] m1 (Hfr1 & Hlen1 & _ & _). cbv beta.
  rewrite for_first by lia. apply fault_then.
  rewrite (for_split 0 (L - 1) L) by lia.
  apply fault_after. eapply wp_mono.
  { apply (wp_for_fill Arr.AT (fun i => i * M + M)
      (fun i _ => (fsqrt (fabs (m Arr.Wc !!! 1)) *
             (m Arr.D !!! (i * N + M + 1)%nat - m Arr.dhat !!! i))%fl) 0 (L - 1)).
    - lia.
    - intros i Hi. rewrite Hlen1, HAT0. nia.
    - intros i i' _ _ Heq. nia.
    - intros i m' Hi Hfr Hlen.
      wp_step by (rewrite Hfr, Hfr1, Hm0, HD by done; nia).
      wp_step by (rewrite Hfr, Hfr1, Hm0, Hdhat by done; lia).
      wp_step by (rewrite Hlen, Hlen1, HAT0; nia).
      unfold stored. by rewrite !Hfr, !Hfr1, !Hm0 by done. }
  intros [] m2 (Hfr2 & Hlen2 & _ & _). cbv beta.
  rewrite for_first by lia. apply fault_then.
  apply fault_after.
  wp_step by (rewrite Hfr2, Hfr1, Hm0, HD by done; nia).
  apply fault_after.
  wp_step by (rewrite Hfr2, Hfr1, Hm0, Hdhat by done; lia).
  replace ((L - 1) * M + M) with (L * M) by nia.
  apply store_fault. rewrite Hlen2, Hlen1, HAT0. lia.
Qed.
End Faults.

(** ** Sizes *)

Section TickSizes.
Context {F : Type} `{Scalar F}.
Implicit Types (m : mem F) (X Y : arr) (l : list F).
Variable qr : list F -> nat -> nat -> bool -> list F * list F.
Variable cholupdate : list F -> list F -> nat -> bool -> list F.
Variable inv : list F -> nat -> list F * bool.
Variable G : list F -> list F -> list F -> list F * list F * list F.

Hypothesis qr_R_length :
  forall A row column reduced, length (qr A row column reduced).2 = row * column.
Hypothesis cholupdate_length :
  forall S v n up, length (cholupdate S v n up) = length S.
Hypothesis inv_length : forall A n, length (inv A n).1 = length A.
Hypothesis G_length :
  forall dw x w,
    length (G dw x w).1.1 = length dw /\ length (G dw x w).2 = length w.

(** X1.  For a dimension between 2 and 85 and arguments of the declared
    sizes, a tick runs to its end with every subscript in range, and
    [d], [what], [Re] and [Sw] have the sizes they had: the next tick can
    start from the store this one leaves. *)
Theorem sr_ukf_keeps_argument_sizes (lambda_rls alpha beta : F) (L : nat) m :
  2 <= L <= 85 ->
  length (m Arr.d) = L ->
  length (m Arr.what) = L ->
  length (m Arr.Re) = L * L ->
  length (m Arr.Sw) = L * L ->
  exists m',
    sr_ukf_parameter_estimation qr cholupdate inv G lambda_rls alpha beta L m
      = Done tt m' /\
    length (m' Arr.d) = L /\
    length (m' Arr.what) = L /\
    length (m' Arr.Re) = L * L /\
    length (m' Arr.Sw) = L * L.
Proof using qr_R_length cholupdate_length inv_length G_length.
  intros HL Hd Hwhat HRe HSw.
  assert (exists m',
    sr_ukf_parameter_estimation qr cholupdate inv G lambda_rls alpha beta L m
      = Done tt m' /\
    length (m' Arr.d) = L /\ length (m' Arr.what) = L /\
    length (m' Arr.Sw) = L * L) as (m' & Hrun & Hd' & Hwhat' & HSw').
  { apply (sr_ukf_predicts qr cholupdate inv G G_length lambda_rls alpha beta L m);
      [lia | done | done |].
    intros m5 Hfr HlWc HlWm _ _ _ HSw5 HlW _ HlD _ Hldhat _.
    assert (Hd5 : length (m5 Arr.d) = L) by (by rewrite Hfr).
    assert (Hwhat5 : length (m5 Arr.what) = L) by (by rewrite Hfr).
    assert (HRe5 : length (m5 Arr.Re) = L * L) by (by rewrite Hfr).
    assert (HlSw5 : length (m5 Arr.Sw) = L * L) by (by rewrite HSw5, length_rescaled).
    destruct (wp_done _ _ m5
      (sr_ukf_corrects qr cholupdate inv qr_R_length cholupdate_length inv_length
         L m5 HL Hd5 Hwhat5 HRe5 HlSw5 HlWc HlW HlD Hldhat))
      as ([] & m' & Hrun & Hm').
    destruct Hm' as (_ & _ & _ & _ & Hlwhat & _ & HSw' & Hd' & _).
    exists m'. split; [done |]. split; [congruence |]. split; [done |].
    by rewrite HSw', (length_downdates cholupdate cholupdate_length). }
  exists m'. split; [done |]. split; [done |]. split; [done |]. split; [| done].
  by rewrite (sr_ukf_preserves_inputs qr cholupdate G inv lambda_rls alpha beta L
                Arr.Re (or_intror eq_refl) m tt m' Hrun).
Qed.

Lemma G_identity_length (dw x w : list F) :
  length (G_identity dw x w).1.1 = length dw /\
  length (G_identity dw x w).2 = length w.
Proof.
  split; [| done]. simpl. rewrite length_app, length_take, length_drop. lia.
Qed.

Lemma G_identity_copies (dw x w : list F) :
  length dw = length w -> (G_identity dw x w).1.1 = w.
Proof.
  intros Hlen. simpl. rewrite Hlen, take_ge by lia.
  rewrite <- Hlen, drop_ge by lia. apply app_nil_r.
Qed.
End TickSizes.

(** ** A whole tick, stage by stage *)

Section TickValues.
Context {F : Type} `{Scalar F}.
Implicit Types (m : mem F) (X Y : arr) (l : list F).
Variable qr : list F -> nat -> nat -> bool -> list F * list F.
Variable cholupdate : list F -> list F -> nat -> bool -> list F.
Variable inv : list F -> nat -> list F * bool.
Variable G : list F -> list F -> list F -> list F * list F * list F.

Hypothesis qr_R_length :
  forall A row column reduced, length (qr A row column reduced).2 = row * column.
Hypothesis cholupdate_length :
  forall S v n up, length (cholupdate S v n up) = length S.
Hypothesis inv_length : forall A n, length (inv A n).1 = length A.
Hypothesis G_length :
  forall dw x w,
    length (G dw x w).1.1 = length dw /\ length (G dw x w).2 = length w.

(** X2.  What a tick does to its two in/out arguments.  The scaler
    multiplies the first [2 * L] cells of [Sw] by [1 / sqrt(lambda_rls)];
    nothing touches [what] or [Sw] again before the corrector, which adds
    [K * (d - dhat)] to [what] as it was on entry and downdates the
    rescaled [Sw] with the columns of [U = K * Sd]. *)
Theorem sr_ukf_rescales_then_corrects (lambda_rls alpha beta : F) (L : nat) m :
  2 <= L <= 85 ->
  length (m Arr.d) = L ->
  length (m Arr.what) = L ->
  length (m Arr.Re) = L * L ->
  length (m Arr.Sw) = L * L ->
  exists m',
    sr_ukf_parameter_estimation qr cholupdate inv G lambda_rls alpha beta L m
      = Done tt m' /\
    m' Arr.K = gain inv (m' Arr.Sd) (m' Arr.Pwd) L /\
    (forall i, i < L ->
       m' Arr.what !!! i =
       (m Arr.what !!! i +
        mul (m' Arr.K) (innovation (m Arr.d) (m' Arr.dhat) L) L L 1 !!! i)%fl) /\
    m' Arr.Sw =
      downdates cholupdate (rescaled (m Arr.Sw) lambda_rls (2 * L))
        (mul (m' Arr.K) (m' Arr.Sd) L L L) L L.
Proof using qr_R_length cholupdate_length inv_length G_length.
  intros HL Hd Hwhat HRe HSw.
  apply (sr_ukf_predicts qr cholupdate inv G G_length lambda_rls alpha beta L m);
    [lia | done | done |].
  intros m5 Hfr HlWc HlWm _ _ _ HSw5 HlW _ HlD _ Hldhat _.
  assert (Hd5 : length (m5 Arr.d) = L) by (by rewrite Hfr).
  assert (Hwhat5 : length (m5 Arr.what) = L) by (by rewrite Hfr).
  assert (HRe5 : length (m5 Arr.Re) = L * L) by (by rewrite Hfr).
  assert (HlSw5 : length (m5 Arr.Sw) = L * L) by (by rewrite HSw5, length_rescaled).
  destruct (wp_done _ _ m5
    (sr_ukf_corrects qr cholupdate inv qr_R_length cholupdate_length inv_length
       L m5 HL Hd5 Hwhat5 HRe5 HlSw5 HlWc HlW HlD Hldhat))
    as ([] & m' & Hrun & Hm').
  destruct Hm' as (_ & HK & HKd & HU & _ & Hwhat' & HSw' & _ & Hdhat').
  exists m'. split; [done |]. split; [done |]. split.
  - intros i Hi. rewrite Hwhat', HKd, Hdhat' by done. by rewrite !Hfr by done.
  - by rewrite HSw', HU, HSw5.
Qed.
End TickValues.

(** ** The dimensions a tick cannot run with *)

Section TickFaults.
Context {F : Type} `{Scalar F}.
Implicit Types (m : mem F) (X Y : arr) (l : list F).
Variable qr : list F -> nat -> nat -> bool -> list F * list F.
Variable cholupdate : list F -> list F -> nat -> bool -> list F.
Variable inv : list F -> nat -> list F * bool.
Variable G : list F -> list F -> list F -> list F * list F * list F.

(** X3.  One parameter: the scaler reads [Sw[1]] of the one-cell [Sw],
    whatever the other arguments and the library routines are. *)
Theorem sr_ukf_one_parameter_overruns_Sw (lambda_rls alpha beta : F) m :
  length (m Arr.Sw) = 1 ->
  sr_ukf_parameter_estimation qr cholupdate inv G lambda_rls alpha beta 1 m =
  OutOfBounds Arr.Sw 1.
Proof.
  intros HSw. unfold sr_ukf_parameter_estimation.
  rewrite u8_small by lia.
  apply fault_after. wp_step. apply fault_after. wp_step.
  set (m0 := upd Arr.Wm _ _).
  apply fault_after. eapply wp_mono.
  { apply create_weights_spec; [lia | unfold m0; by mem_simpl ..]. }
  intros [] m1 (Hfr1 & _). cbv beta.
  apply fault_then, scale_Sw_one_cell.
  rewrite Hfr1 by done. unfold m0. by mem_simpl.
Qed.

Hypothesis G_length :
  forall dw x w,
    length (G dw x w).1.1 = length dw /\ length (G dw x w).2 = length w.

(** X4.  From 86 parameters on, [3 * L] does not fit the [uint8_t] that
    holds the row length of [AT]: the builder of [Sd] declares [AT] with
    [L * (3 * L - 256)] cells and writes the cell after the last. *)
Theorem sr_ukf_large_dimension_overruns_AT (lambda_rls alpha beta : F) (L : nat) m :
  86 <= L <= 127 ->
  length (m Arr.what) = L ->
  length (m Arr.Sw) = L * L ->
  sr_ukf_parameter_estimation qr cholupdate inv G lambda_rls alpha beta L m =
  OutOfBounds Arr.AT (L * (3 * L - 256)).
Proof using G_length.
  intros HL Hwhat HSw.
  apply (sr_ukf_predicts qr cholupdate inv G G_length lambda_rls alpha beta L m
           (fun o => o = OutOfBounds Arr.AT (L * (3 * L - 256))));
    [lia | done | done |].
  intros m5 Hfr HlWc _ _ _ _ _ _ _ HlD _ Hldhat _.
  apply fault_after. wp_step. apply fault_then.
  apply (Sd_builder_overruns_AT qr cholupdate L (2 * L + 1) (3 * L - 256) (2 * L)).
  - apply u8_small. lia.
  - rewrite u8_wrapped by lia. lia.
  - apply u8_small. lia.
  - lia.
  - lia.
  - lia.
  - mem_simpl. lia.
  - by mem_simpl.
  - by mem_simpl.
Qed.
End TickFaults.

(** ** Dimensions from 128 on *)

Section WrappedSizes.
Context {F : Type} `{Scalar F}.
Implicit Types (m : mem F) (X Y : arr) (l : list F).

(** The weight generator stays within vectors of [N] cells, whatever
    [N = 2 * L + 1] has become in its [uint8_t]. *)
Lemma create_weights_completes (alpha beta kappa : F) (L N : nat) m :
  u8 (2 * L + 1) = N ->
  1 <= N ->
  length (m Arr.Wc) = N ->
  length (m Arr.Wm) = N ->
  wp (create_weights alpha beta kappa L)
    (fun _ m' =>
       (forall Y, Y <> Arr.Wc -> Y <> Arr.Wm -> m' Y = m Y) /\
       length (m' Arr.Wc) = N /\
       length (m' Arr.Wm) = N) m.
Proof.
  intros HN HN1 HWc HWm. unfold create_weights. rewrite HN.
  wp_run. eapply wp_mono.
  - apply (wp_for (fun (_ : nat) m' =>
       (forall Y, Y <> Arr.Wc -> Y <> Arr.Wm -> m' Y = m Y) /\
       length (m' Arr.Wc) = N /\
       length (m' Arr.Wm) = N)); [lia | |].
    + split; [intros Y ? ?; by mem_simpl |]. split; by mem_simpl.
    + intros i m' Hi (Hfr & HlWc & HlWm). wp_run.
      split; [intros Y ? ?; mem_simpl; auto |]. split; by mem_simpl.
  - intros [] m' Hm'. exact Hm'.
Qed.

Variable qr : list F -> nat -> nat -> bool -> list F * list F.
Variable cholupdate : list F -> list F -> nat -> bool -> list F.
Variable inv : list F -> nat -> list F * bool.
Variable G : list F -> list F -> list F -> list F * list F * list F.

(** A tick up to the sigma points, for any dimension of two or more. *)
Lemma sr_ukf_generates_weights (lambda_rls alpha beta : F) (L N : nat) m
    (P : outcome F unit -> Prop) :
  u8 (2 * L + 1) = N ->
  1 <= N ->
  2 <= L ->
  length (m Arr.Sw) = L * L ->
  (forall m2,
     (forall Y, Y <> Arr.Wc -> Y <> Arr.Wm -> Y <> Arr.Sw -> Y <> Arr.W ->
                m2 Y = m Y) ->
     length (m2 Arr.Wc) = N ->
     length (m2 Arr.Wm) = N ->
     length (m2 Arr.Sw) = L * L ->
     length (m2 Arr.W) = L * N ->
     P ((create_sigma_point_matrix alpha (fthree - of_nat L)%fl L ;;
         alloc Arr.D (L * N) ;;
         compute_transistion_function G L ;;
         alloc Arr.dhat L ;;
         multiply_sigma_point_matrix_to_weights L ;;
         alloc Arr.Sd (L * L) ;;
         create_state_estimation_error_covariance_matrix qr cholupdate L ;;
         alloc Arr.Pwd (L * L) ;;
         create_state_cross_covariance_matrix L ;;
         update_state_covarariance_matrix_and_state_estimation_vector
           cholupdate inv L) m2)) ->
  P (sr_ukf_parameter_estimation qr cholupdate inv G lambda_rls alpha beta L m).
Proof.
  intros HN HN1 HL HSw Hrest. unfold sr_ukf_parameter_estimation. rewrite HN.
  apply wp_then. wp_step. apply wp_then. wp_step.
  set (m0 := upd Arr.Wm _ _).
  assert (Hm0 : forall Y, Y <> Arr.Wc -> Y <> Arr.Wm -> m0 Y = m Y).
  { intros Y ? ?. unfold m0. by mem_simpl. }
  apply wp_then. eapply wp_mono.
  { apply (create_weights_completes _ _ _ L N);
      [done | done | unfold m0; by mem_simpl ..]. }
  intros [] m1 (Hfr1 & HWc1 & HWm1). cbv beta.
  apply wp_then. eapply wp_mono.
  { apply scale_Sw_spec. rewrite Hfr1, Hm0, HSw by done.
    pose proof (u8_le (2 * L)). nia. }
  intros [] m2 (HlSw2 & _ & _ & Hfr2). cbv beta.
  rewrite Hfr1, Hm0, HSw in HlSw2 by done.
  apply wp_then. wp_step. apply Hrest.
  - intros Y ? ? ? ?. mem_simpl. rewrite Hfr2, Hfr1 by done. by apply Hm0.
  - mem_simpl. by rewrite Hfr2.
  - mem_simpl. by rewrite Hfr2.
  - by mem_simpl.
  - by mem_simpl.
Qed.

(** The rows of [W] are [N] cells long; the columns 1 to [L] of the
    positive perturbations do not fit. *)
Lemma sigma_points_overrun_W (alpha kappa : F) (L : nat) m :
  128 <= L <= 254 ->
  length (m Arr.what) = L ->
  length (m Arr.Sw) = L * L ->
  length (m Arr.W) = L * (2 * L - 255) ->
  create_sigma_point_matrix alpha kappa L m =
  OutOfBounds Arr.W (L * (2 * L - 255)).
Proof.
  intros HL Hwhat HSw HW. unfold create_sigma_point_matrix.
  rewrite (u8_wrapped (2 * L + 1)), (u8_small (L + 1)) by lia.
  replace (2 * L + 1 - 256) with (2 * L - 255) by lia.
  set (N := 2 * L - 255) in *.
  set (gamma := fsqrt _).
  apply fault_after. eapply wp_mono.
  { apply (wp_for_fill Arr.W (fun i => i * N) (fun i _ => m Arr.what !!! i) 0 L).
    - lia.
    - intros i Hi. rewrite HW. nia.
    - intros i i' _ _ Heq. apply Nat.mul_cancel_r in Heq; lia.
    - intros i m' Hi Hfr Hlen.
      wp_step by (rewrite Hfr by done; lia).
      wp_step by (rewrite Hlen, HW; nia).
      unfold stored. by rewrite Hfr. }
  intros [] m1 (Hfr1 & Hlen1 & _ & _). cbv beta.
  apply fault_then.
  rewrite (for_split 1 N (L + 1)) by lia.
  apply fault_after. eapply wp_mono.
  { apply (wp_for_fill_columns Arr.W N L 1 N
      (fun i j => (m Arr.what !!! i + gamma * m Arr.Sw !!! (i * L + (j - 1))%nat)%fl)).
    - lia.
    - rewrite Hlen1, HW. lia.
    - intros i j m' Hi Hj Hfr Hlen.
      wp_step by (rewrite Hfr, Hfr1 by done; lia).
      wp_step by (rewrite Hfr, Hfr1 by done; nia).
      wp_step by (rewrite Hlen, Hlen1, HW; nia).
      unfold stored. rewrite !Hfr, !Hfr1 by done.
      by replace (i * L + j - 1) with (i * L + (j - 1)) by lia. }
  intros [] m2 (Hfr2 & Hlen2 & _ & _). cbv beta.
  rewrite for_first by lia. apply fault_then.
  rewrite (for_split 0 (L - 1) L) by lia.
  apply fault_after. eapply wp_mono.
  { apply (wp_for_fill Arr.W (fun i => i * N + N)
      (fun i _ => (m Arr.what !!! i + gamma * m Arr.Sw !!! (i * L + N - 1)%nat)%fl)
      0 (L - 1)).
    - lia.
    - intros i Hi. rewrite Hlen2, Hlen1, HW. nia.
    - intros i i' _ _ Heq. nia.
    - intros i m' Hi Hfr Hlen.
      wp_step by (rewrite Hfr, Hfr2, Hfr1 by done; lia).
      wp_step by (rewrite Hfr, Hfr2, Hfr1 by done; nia).
      wp_step by (rewrite Hlen, Hlen2, Hlen1, HW; nia).
      unfold stored. by rewrite !Hfr, !Hfr2, !Hfr1 by done. }
  intros [] m3 (Hfr3 & Hlen3 & _ & _). cbv beta.
  rewrite for_first by lia. apply fault_then.
  apply fault_after.
  wp_step by (rewrite Hfr3, Hfr2, Hfr1 by done; lia).
  apply fault_after.
  wp_step by (rewrite Hfr3, Hfr2, Hfr1 by done; nia).
  replace ((L - 1) * N + N) with (L * N) by nia.
  apply store_fault. rewrite Hlen3, Hlen2, Hlen1, HW. lia.
Qed.

(** X5.  From 128 parameters on, [2 * L + 1] does not fit the [uint8_t]
    that holds the row length of [W]: [W] is declared with
    [L * (2 * L - 255)] cells and the sigma-point generator writes the cell
    after the last, whatever the library routines are. *)
Theorem sr_ukf_huge_dimension_overruns_W (lambda_rls alpha beta : F) (L : nat) m :
  128 <= L <= 254 ->
  length (m Arr.what) = L ->
  length (m Arr.Sw) = L * L ->
  sr_ukf_parameter_estimation qr cholupdate inv G lambda_rls alpha beta L m =
  OutOfBounds Arr.W (L * (2 * L - 255)).
Proof.
  intros HL Hwhat HSw.
  apply (sr_ukf_generates_weights lambda_rls alpha beta L (2 * L - 255) m
           (fun o => o = OutOfBounds Arr.W (L * (2 * L - 255))));
    [rewrite u8_wrapped by lia; lia | lia | lia | done |].
  intros m2 Hfr _ _ HSw2 HW2.
  apply fault_then, sigma_points_overrun_W; [lia | | done | done].
  by rewrite Hfr.
Qed.
End WrappedSizes.

(** ** The dimensions a tick can run with *)

Section Dimensions.
Context {F : Type} `{Scalar F}.
Implicit Types (m : mem F) (X Y : arr) (l : list F).
Variable qr : list F -> nat -> nat -> bool -> list F * list F.
Variable cholupdate : list F -> list F -> nat -> bool -> list F.
Variable inv : list F -> nat -> list F * bool.
Variable G : list F -> list F -> list F -> list F * list F * list F.

Hypothesis G_length :
  forall dw x w,
    length (G dw x w).1.1 = length dw /\ length (G dw x w).2 = length w.

Lemma compute_transistion_function_sizes (L N : nat) m :
  u8 (2 * L + 1) = N ->
  length (m Arr.W) = L * N ->
  length (m Arr.D) = L * N ->
  wp (compute_transistion_function G L)
    (fun _ m' =>
       length (m' Arr.D) = L * N /\
       (forall Y, Y <> Arr.dw -> Y <> Arr.w -> Y <> Arr.D -> Y <> Arr.x ->
                  m' Y = m Y)) m.
Proof using G_length.
  intros HN HW HD. unfold compute_transistion_function. rewrite HN.
  wp_run.
  wp_loop (wp_for (fun (_ : nat) m' =>
       length (m' Arr.dw) = L /\ length (m' Arr.w) = L /\
       length (m' Arr.D) = L * N /\
       (forall Y, Y <> Arr.dw -> Y <> Arr.w -> Y <> Arr.D -> Y <> Arr.x ->
                  m' Y = m Y))).
  { lia. }
  { split; [by mem_simpl |]. split; [by mem_simpl |]. split; [by mem_simpl |].
    intros Y ? ? ? ?. by mem_simpl. }
  { intros j m1 Hj (Hdw & Hw & HD1 & Hfr1).
    wp_loop (wp_for_fill Arr.w (fun i => i)
               (fun i _ => m1 Arr.W !!! (i * N + j)) 0 L).
    { lia. }
    { intros i Hi. lia. }
    { auto. }
    { intros i m' Hi Hfr Hlen.
      wp_step by (rewrite Hfr, Hfr1, HW by done; nia).
      wp_step by (rewrite Hlen; lia).
      unfold stored. by rewrite Hfr by done. }
    intros [] m2 (Hfr2 & Hlen2 & _ & _). cbv beta.
    unfold call_G. wp_run.
    set (m3 := upd Arr.w _ _).
    destruct (G_length (m2 Arr.dw) (m2 Arr.x) (m2 Arr.w)) as [HGdw HGw].
    assert (Hdw3 : length (m3 Arr.dw) = L).
    { unfold m3. mem_simpl. rewrite HGdw, Hfr2 by done. done. }
    assert (Hw3 : length (m3 Arr.w) = L).
    { unfold m3. mem_simpl. rewrite HGw. congruence. }
    assert (Hfr3 : forall Y, Y <> Arr.dw -> Y <> Arr.w -> Y <> Arr.x -> m3 Y = m1 Y).
    { intros Y ? ? ?. unfold m3. mem_simpl. by apply Hfr2. }
    wp_loop (wp_for_fill Arr.D (fun i => i * N + j)
               (fun i _ => m3 Arr.dw !!! i) 0 L).
    { lia. }
    { intros i Hi. rewrite Hfr3, HD1 by done. nia. }
    { intros i i' _ _ Heq. apply cell_inj in Heq; [tauto | lia | lia]. }
    { intros i m' Hi Hfr Hlen.
      wp_step by (rewrite Hfr by done; lia).
      wp_step by (rewrite Hlen, Hfr3, HD1 by done; nia).
      unfold stored. by rewrite Hfr by done. }
    intros [] m4 (Hfr4 & Hlen4 & _ & _). cbv beta.
    split; [by rewrite Hfr4 by done |]. split; [by rewrite Hfr4 by done |].
    split; [rewrite Hlen4, Hfr3 by done; done |].
    intros Y ? ? ? ?. rewrite Hfr4, Hfr3 by done. by apply Hfr1. }
  intros [] m' (_ & _ & HD' & Hfr'). auto.
Qed.

Lemma multiply_sigma_point_matrix_to_weights_sizes (L N : nat) m :
  u8 (2 * L + 1) = N ->
  length (m Arr.dhat) = L ->
  length (m Arr.Wm) = N ->
  length (m Arr.D) = L * N ->
  wp (multiply_sigma_point_matrix_to_weights L)
    (fun _ m' =>
       length (m' Arr.dhat) = L /\
       (forall Y, Y <> Arr.dhat -> m' Y = m Y)) m.
Proof using Type.
  intros HN Hdhat HWm HD. unfold multiply_sigma_point_matrix_to_weights, memset0.
  rewrite HN. wp_run.
  set (I := fun (_ : nat) m' =>
       length (m' Arr.dhat) = L /\ (forall Y, Y <> Arr.dhat -> m' Y = m Y)).
  wp_loop (wp_for I).
  { lia. }
  { split; [mem_simpl; lia | intros Y ?; by mem_simpl]. }
  { intros j m1 Hj Hm1.
    wp_loop (wp_for I).
    { lia. }
    { exact Hm1. }
    { intros i m2 Hi (Hlen & Hfr).
      wp_step.
      wp_step by (rewrite Hfr, HWm by done; lia).
      wp_step by (rewrite Hfr, HD by done; nia).
      wp_step.
      split; [by mem_simpl | intros Y ?; mem_simpl; auto]. }
    intros [] m2 Hm2. exact Hm2. }
  intros [] m' Hm'. exact Hm'.
Qed.

(** With 255 parameters [K = L + 1] wraps to zero: the loop over the
    positive perturbations does not run, and the loop meant for the negative
    ones starts at column 0 and fills the 255 columns that [W] has. *)
Lemma create_sigma_point_matrix_255 (alpha kappa : F) (L : nat) m :
  L = 255 ->
  length (m Arr.what) = L ->
  length (m Arr.Sw) = L * L ->
  length (m Arr.W) = L * 255 ->
  wp (create_sigma_point_matrix alpha kappa L)
    (fun _ m' =>
       (forall Y, Y <> Arr.W -> m' Y = m Y) /\
       length (m' Arr.W) = L * 255) m.
Proof using Type.
  intros HL Hwhat HSw HW. unfold create_sigma_point_matrix.
  assert (u8 (2 * L + 1) = 255) as -> by (subst L; reflexivity).
  assert (u8 (L + 1) = 0) as -> by (subst L; reflexivity).
  set (gamma := fsqrt _).
  wp_loop (wp_for_fill Arr.W (fun i => i * 255) (fun i _ => m Arr.what !!! i) 0 L).
  { lia. }
  { intros i Hi. rewrite HW. lia. }
  { intros i i' _ _ Heq. lia. }
  { intros i m' Hi Hfr Hlen.
    wp_step by (rewrite Hfr by done; lia).
    wp_step by (rewrite Hlen, HW; lia).
    unfold stored. by rewrite Hfr. }
  intros [] m1 (Hfr1 & Hlen1 & _ & _). cbv beta.
  wp_head. change (for_ 1 0 ?body) with (ret (F := F) tt). wp_step.
  eapply wp_mono.
  { apply (wp_for_fill_columns Arr.W 255 L 0 255
      (fun i j => (m Arr.what !!! i - gamma * m Arr.Sw !!! (i * L + j - 0)%nat)%fl)).
    - lia.
    - rewrite Hlen1, HW. lia.
    - intros i j m' Hi Hj Hfr Hlen.
      wp_step by (rewrite Hfr, Hfr1 by done; lia).
      wp_step by (rewrite Hfr, Hfr1 by done; nia).
      wp_step by (rewrite Hlen, Hlen1, HW; lia).
      unfold stored. by rewrite !Hfr, !Hfr1 by done. }
  intros [] m2 (Hfr2 & Hlen2 & _ & _). cbv beta.
  split; [intros Y ?; by rewrite Hfr2, Hfr1 | congruence].
Qed.

Lemma sr_ukf_255_overruns_AT (lambda_rls alpha beta : F) (L : nat) m :
  L = 255 ->
  length (m Arr.what) = L ->
  length (m Arr.Sw) = L * L ->
  sr_ukf_parameter_estimation qr cholupdate inv G lambda_rls alpha beta L m =
  OutOfBounds Arr.AT (L * 253).
Proof using G_length.
  intros HL Hwhat HSw.
  assert (HN : u8 (2 * L + 1) = 255) by (subst L; reflexivity).
  apply (sr_ukf_generates_weights qr cholupdate inv G lambda_rls alpha beta L 255 m
           (fun o => o = OutOfBounds Arr.AT (L * 253)));
    [done | lia | lia | done |].
  intros m2 Hfr HWc2 HWm2 HSw2 HW2.
  apply fault_after. eapply wp_mono.
  { apply create_sigma_point_matrix_255; [done | by rewrite Hfr | done | done]. }
  intros [] m3 (Hfr3 & HW3). cbv beta.
  apply fault_after. wp_step. set (m3' := upd Arr.D _ _).
  apply fault_after. eapply wp_mono.
  { apply (compute_transistion_function_sizes L 255); [done | | ];
      unfold m3'; by mem_simpl. }
  intros [] m4 (HD4 & Hfr4). cbv beta.
  apply fault_after. wp_step. set (m4' := upd Arr.dhat _ _).
  apply fault_after. eapply wp_mono.
  { apply (multiply_sigma_point_matrix_to_weights_sizes L 255); [done | | |].
    - unfold m4'. by mem_simpl.
    - unfold m4'. mem_simpl. rewrite Hfr4 by done. unfold m3'. mem_simpl.
      by rewrite Hfr3.
    - unfold m4'. by mem_simpl. }
  intros [] m5 (Hdhat5 & Hfr5). cbv beta.
  apply fault_after. wp_step. apply fault_then.
  apply (Sd_builder_overruns_AT qr cholupdate L 255 253 254).
  - done.
  - subst L. reflexivity.
  - subst L. reflexivity.
  - lia.
  - lia.
  - lia.
  - mem_simpl. rewrite Hfr5 by done. unfold m4'. mem_simpl.
    rewrite Hfr4 by done. unfold m3'. mem_simpl. rewrite Hfr3 by done. lia.
  - mem_simpl. rewrite Hfr5 by done. unfold m4'. by mem_simpl.
  - by mem_simpl.
Qed.

Hypothesis qr_R_length :
  forall A row column reduced, length (qr A row column reduced).2 = row * column.
Hypothesis cholupdate_length :
  forall S v n up, length (cholupdate S v n up) = length S.
Hypothesis inv_length : forall A n, length (inv A n).1 = length A.

(** X6.  The dimensions a tick can run with.  [L] is a [uint8_t]; on
    arguments of the declared sizes and with library routines that keep
    the sizes of their buffers, a tick runs to its end exactly when
    [2 <= L <= 85].  Below, the scaler and the builder of [Sd] read past
    [Sw] and [Wc]; above, [3 * L] or [2 * L + 1] wraps in its [uint8_t] and
    a stage writes past [AT] or [W]. *)
Theorem sr_ukf_completes_exactly_from_2_to_85
    (lambda_rls alpha beta : F) (L : nat) m :
  L <= 255 ->
  length (m Arr.d) = L ->
  length (m Arr.what) = L ->
  length (m Arr.Re) = L * L ->
  length (m Arr.Sw) = L * L ->
  (exists m',
     sr_ukf_parameter_estimation qr cholupdate inv G lambda_rls alpha beta L m
       = Done tt m') <->
  2 <= L <= 85.
Proof using G_length qr_R_length cholupdate_length inv_length.
  intros HL Hd Hwhat HRe HSw. split.
  - intros [m' Hrun].
    destruct (decide (2 <= L <= 85)) as [|Hout]; [done |]. exfalso.
    assert (exists X i,
      sr_ukf_parameter_estimation qr cholupdate inv G lambda_rls alpha beta L m
        = OutOfBounds X i) as (X & i & Hfault); [| congruence].
    destruct (decide (L = 0)) as [-> | H0].
    { exists Arr.Wc, 1. reflexivity. }
    destruct (decide (L = 1)) as [-> | H1].
    { exists Arr.Sw, 1. unfold sr_ukf_parameter_estimation.
      rewrite u8_small by lia.
      apply fault_after. wp_step. apply fault_after. wp_step.
      set (m0 := upd Arr.Wm _ _).
      apply fault_after. eapply wp_mono.
      { apply create_weights_spec; [lia | unfold m0; by mem_simpl ..]. }
      intros [] m1 (Hfr1 & _). cbv beta.
      apply fault_then, scale_Sw_one_cell.
      rewrite Hfr1 by done. unfold m0. by mem_simpl. }
    destruct (decide (L <= 127)) as [H127 | H127].
    { exists Arr.AT, (L * (3 * L - 256)).
      apply (sr_ukf_predicts qr cholupdate inv G G_length lambda_rls alpha beta L m
               (fun o => o = OutOfBounds Arr.AT (L * (3 * L - 256))));
        [lia | done | done |].
      intros m5 Hfr HlWc _ _ _ _ _ _ _ HlD _ Hldhat _.
      apply fault_after. wp_step. apply fault_then.
      apply (Sd_builder_overruns_AT qr cholupdate L (2 * L + 1) (3 * L - 256) (2 * L));
        [apply u8_small; lia | rewrite u8_wrapped by lia; lia | apply u8_small; lia
        | lia | lia | lia | mem_simpl; lia | by mem_simpl | by mem_simpl]. }
    destruct (decide (L = 255)) as [H255 | H255].
    { exists Arr.AT, (L * 253). by apply sr_ukf_255_overruns_AT. }
    exists Arr.W, (L * (2 * L - 255)).
    apply (sr_ukf_generates_weights qr cholupdate inv G lambda_rls alpha beta L
             (2 * L - 255) m (fun o => o = OutOfBounds Arr.W (L * (2 * L - 255))));
      [rewrite u8_wrapped by lia; lia | lia | lia | done |].
    intros m2 Hfr _ _ HSw2 HW2.
    apply fault_then, sigma_points_overrun_W; [lia | | done | done].
    by rewrite Hfr.
  - intros HL'.
    by apply (sr_ukf_completes qr cholupdate inv G qr_R_length cholupdate_length
                G_length inv_length).
Qed.
End Dimensions.

(** ** The middle stages *)

Section MiddleStages.
Context {F : Type} `{Scalar F}.
Implicit Types (m : mem F) (X Y : arr) (l : list F).

(** X7.  [multiply_sigma_point_matrix_to_weights] clears [dhat] and
    leaves in [dhat[i]] the sum of [Wm[j] * D[i, j]] accumulated over the
    columns [j = 0, ..., 2 * L] in this order; it writes no other array. *)
Theorem dhat_is_weighted_sum_of_D (L : nat) m :
  L <= 127 ->
  length (m Arr.dhat) = L ->
  length (m Arr.Wm) = 2 * L + 1 ->
  length (m Arr.D) = L * (2 * L + 1) ->
  exists m',
    multiply_sigma_point_matrix_to_weights L m = Done tt m' /\
    length (m' Arr.dhat) = L /\
    (forall i, i < L ->
       m' Arr.dhat !!! i =
       weighted_sum (m Arr.Wm) (m Arr.D) (2 * L + 1) i (2 * L + 1)) /\
    (forall Y, Y <> Arr.dhat -> m' Y = m Y).
Proof.
  intros HL Hdhat HWm HD.
  destruct (wp_done _ _ m
    (multiply_sigma_point_matrix_to_weights_values L m HL Hdhat HWm HD))
    as ([] & m' & Hrun & Hlen & Hfr & Hsum).
  by exists m'.
Qed.

(** X9.  [create_state_cross_covariance_matrix] overwrites its inputs:
    it subtracts [what[i]] from row [i] of [W] and [dhat[i]] from row [i]
    of [D] in place, then transposes [D]; [Pwd] is the product of the
    centred [W], the diagonal matrix of [Wc] and the transposed centred
    [D]. *)
Theorem Pwd_is_product_of_centred_matrices (L : nat) m :
  2 <= L <= 127 ->
  length (m Arr.Pwd) = L * L ->
  length (m Arr.W) = L * (2 * L + 1) ->
  length (m Arr.D) = L * (2 * L + 1) ->
  length (m Arr.what) = L ->
  length (m Arr.dhat) = L ->
  length (m Arr.Wc) = 2 * L + 1 ->
  exists m',
    create_state_cross_covariance_matrix L m = Done tt m' /\
    m' Arr.W = centred (m Arr.W) (m Arr.what) L (2 * L + 1) /\
    m' Arr.D =
      tran (centred (m Arr.D) (m Arr.dhat) L (2 * L + 1)) L (2 * L + 1) /\
    m' Arr.Pwd =
      mul (m' Arr.W)
        (mul (diagonal (m Arr.Wc) (2 * L + 1)) (m' Arr.D)
           (2 * L + 1) (2 * L + 1) L)
        L (2 * L + 1) L /\
    (forall Y, Y <> Arr.Pwd -> Y <> Arr.W -> Y <> Arr.D ->
               Y <> Arr.diagonal_W -> Y <> Arr.diagonal_WD -> m' Y = m Y).
Proof.
  intros HL HPwd HW HD Hwhat Hdhat HWc.
  destruct (wp_done _ _ m
    (create_state_cross_covariance_matrix_values L m HL HPwd HW HD Hwhat Hdhat HWc))
    as ([] & m' & Hrun & HW' & HD' & Hdg & HWD & HP & Hfr).
  exists m'. split; [done |]. split; [done |]. split; [done |].
  split; [by rewrite HP, HWD, Hdg | done].
Qed.

(** X11.  With one parameter [Pwd] has one cell, and the stage starts by
    clearing [2 * L = 2] cells of it. *)
Theorem cross_covariance_one_parameter_overruns_Pwd m :
  length (m Arr.Pwd) = 1 ->
  create_state_cross_covariance_matrix 1 m = OutOfBounds Arr.Pwd 1.
Proof.
  intros HPwd. unfold create_state_cross_covariance_matrix, memset0.
  apply fault_then, fault_then. unfold extent. by rewrite HPwd.
Qed.

Variable G : list F -> list F -> list F -> list F * list F * list F.

(** X8.  [compute_transistion_function] calls [G] once per sigma point,
    on a copy of the column of [W]; when [G] computes [dw] from [x] and
    [w] alone and leaves [x] as it is, column [j] of [D] is the image of
    column [j] of [W], and [W] and [x] are as they were. *)
Theorem D_columns_are_images_of_W_columns
    (g : list F -> list F -> list F) (L : nat) m :
  (forall dw x w,
     length (G dw x w).1.1 = length dw /\ length (G dw x w).2 = length w) ->
  (forall dw x w, length dw = length w -> (G dw x w).1.1 = g x w) ->
  (forall dw x w, (G dw x w).1.2 = x) ->
  L <= 127 ->
  length (m Arr.W) = L * (2 * L + 1) ->
  length (m Arr.D) = L * (2 * L + 1) ->
  exists m',
    compute_transistion_function G L m = Done tt m' /\
    (forall i j, i < L -> j < 2 * L + 1 ->
       m' Arr.D !!! (i * (2 * L + 1) + j) =
       g (m Arr.x) (column_of (m Arr.W) L (2 * L + 1) j) !!! i) /\
    m' Arr.W = m Arr.W /\
    m' Arr.x = m Arr.x.
Proof.
  intros HGl Hg Hx HL HW HD.
  destruct (wp_done _ _ m
    (compute_transistion_function_values G HGl L m HL HW HD))
    as ([] & m' & Hrun & _ & Hfr & Hval).
  destruct (Hval g Hg Hx) as [Hx' HD'].
  exists m'. split; [done |]. split; [done |]. split; [by apply Hfr | done].
Qed.
End MiddleStages.

(** ** The further properties at concrete inputs *)

Section FurtherExamples.
Lemma sr_ukf_keeps_argument_sizes_witness :
  exists m' : mem b32,
    sr_ukf_parameter_estimation qr_of_zero cholupdate_by_zero inv_of_singular
      G_zero quarter b32_one b32_two 2 (sample 2) = Done tt m' /\
    length (m' Arr.what) = 2 /\
    length (m' Arr.Sw) = 4.
Proof.
  destruct (sr_ukf_keeps_argument_sizes (F := b32) qr_of_zero cholupdate_by_zero
              inv_of_singular G_zero
              ltac:(intros; apply length_replicate)
              ltac:(reflexivity) ltac:(reflexivity)
              ltac:(intros; split; [apply length_replicate | reflexivity])
              quarter b32_one b32_two 2 (sample 2))
    as (m' & Hrun & _ & Hwhat & _ & HSw);
    [lia | reflexivity | reflexivity | reflexivity | reflexivity |].
  exists m'. split; [exact Hrun |]. split; [exact Hwhat | exact HSw].
Defined.

Lemma sr_ukf_rescales_then_corrects_witness :
  exists m' : mem b32,
    sr_ukf_parameter_estimation qr_of_zero cholupdate_by_zero inv_of_singular
      G_zero quarter b32_one b32_two 2 (sample 2) = Done tt m' /\
    m' Arr.Sw = rescaled (sample 2 Arr.Sw) quarter 4.
Proof.
  destruct (sr_ukf_rescales_then_corrects (F := b32) qr_of_zero cholupdate_by_zero
              inv_of_singular G_zero
              ltac:(intros; apply length_replicate)
              ltac:(reflexivity) ltac:(reflexivity)
              ltac:(intros; split; [apply length_replicate | reflexivity])
              quarter b32_one b32_two 2 (sample 2))
    as (m' & Hrun & _ & _ & HSw);
    [lia | reflexivity | reflexivity | reflexivity | reflexivity |].
  exists m'. split; [exact Hrun |]. rewrite HSw. reflexivity.
Defined.

Lemma sr_ukf_one_parameter_overruns_Sw_witness :
  sr_ukf_parameter_estimation qr_of_zero cholupdate_by_zero inv_of_singular
    G_zero quarter b32_one b32_two 1 (sample 1) = OutOfBounds Arr.Sw 1.
Proof.
  apply (sr_ukf_one_parameter_overruns_Sw (F := b32)). reflexivity.
Defined.

Lemma sr_ukf_large_dimension_overruns_AT_witness :
  sr_ukf_parameter_estimation qr_of_zero cholupdate_by_zero inv_of_singular
    G_zero quarter b32_one b32_two 86 (sample 86) = OutOfBounds Arr.AT 172.
Proof.
  apply (sr_ukf_large_dimension_overruns_AT (F := b32) qr_of_zero
           cholupdate_by_zero inv_of_singular G_zero
           ltac:(intros; split; [apply length_replicate | reflexivity])
           quarter b32_one b32_two 86 (sample 86));
    [lia | vm_compute; reflexivity | vm_compute; reflexivity].
Defined.

Lemma dhat_is_weighted_sum_of_D_witness :
  exists m' : mem b32,
    multiply_sigma_point_matrix_to_weights 2 (sample 2) = Done tt m' /\
    m' Arr.dhat !!! 1 =
      weighted_sum (sample 2 Arr.Wm) (sample 2 Arr.D) 5 1 5.
Proof.
  destruct (dhat_is_weighted_sum_of_D (F := b32) 2 (sample 2))
    as (m' & Hrun & _ & Hsum & _);
    [lia | reflexivity | reflexivity | reflexivity |].
  exists m'. split; [exact Hrun |]. apply (Hsum 1). lia.
Defined.

Lemma D_columns_are_images_of_W_columns_witness :
  exists m' : mem b32,
    compute_transistion_function G_identity 2 (sample 2) = Done tt m' /\
    m' Arr.D !!! 7 = sample (F := b32) 2 Arr.W !!! 7.
Proof.
  destruct (D_columns_are_images_of_W_columns (F := b32) G_identity
              (fun _ w => w) 2 (sample 2)
              G_identity_length G_identity_copies ltac:(reflexivity))
    as (m' & Hrun & HD & _); [lia | reflexivity | reflexivity |].
  exists m'. split; [exact Hrun |].
  etrans; [exact (HD 1 2 ltac:(lia) ltac:(lia)) | reflexivity].
Defined.

Lemma Pwd_is_product_of_centred_matrices_witness :
  exists m' : mem b32,
    create_state_cross_covariance_matrix 2 (sample 2) = Done tt m' /\
    m' Arr.W = centred (sample 2 Arr.W) (sample 2 Arr.what) 2 5.
Proof.
  destruct (Pwd_is_product_of_centred_matrices (F := b32) 2 (sample 2))
    as (m' & Hrun & HW & _);
    [lia | reflexivity | reflexivity | reflexivity | reflexivity | reflexivity
     | reflexivity |].
  exists m'. split; [exact Hrun | exact HW].
Defined.

Lemma cross_covariance_one_parameter_overruns_Pwd_witness :
  create_state_cross_covariance_matrix 1 (sample (F := b32) 1) =
  OutOfBounds Arr.Pwd 1.
Proof.
  apply (cross_covariance_one_parameter_overruns_Pwd (F := b32)). reflexivity.
Defined.
Lemma sr_ukf_completes_exactly_from_2_to_85_witness :
  exists m' : mem b32,
    sr_ukf_parameter_estimation qr_of_zero cholupdate_by_zero inv_of_singular
      G_zero quarter b32_one b32_two 2 (sample 2) = Done tt m'.
Proof.
  apply (sr_ukf_completes_exactly_from_2_to_85 (F := b32) qr_of_zero
           cholupdate_by_zero inv_of_singular G_zero
           ltac:(intros; split; [apply length_replicate | reflexivity])
           ltac:(intros; apply length_replicate)
           ltac:(reflexivity) ltac:(reflexivity)
           quarter b32_one b32_two 2 (sample 2));
    [lia | reflexivity | reflexivity | reflexivity | reflexivity | lia].
Defined.
End FurtherExamples.

(** * The other routines *)

(** ** Loops that update a local *)

Section FoldLoops.
Context {F : Type} `{Scalar F}.
Implicit Types (m : mem F) (X Y : arr) (l : list F).

Lemma wp_fold_loop {T} (I : nat -> T -> mem F -> Prop)
    (body : nat -> T -> prog F T) n i s m :
  I i s m ->
  (forall k s' m', i <= k < i + n -> I k s' m' -> wp (body k s') (I (S k)) m') ->
  wp (fold_loop n i body s) (I (i + n)) m.
Proof.
  revert i s m. induction n as [|n IH]; intros i s m Hi Hstep; simpl.
  - apply wp_ret. by rewrite Nat.add_0_r.
  - apply wp_bind. eapply wp_mono; [apply Hstep; [lia | done] |].
    intros s' m' Hm'. cbv beta.
    replace (i + S n) with (S i + n) by lia.
    apply IH; [done |]. intros k s'' m'' Hk. apply Hstep. lia.
Qed.

Lemma wp_fold {T} (I : nat -> T -> mem F -> Prop) lo hi
    (body : nat -> T -> prog F T) s m :
  lo <= hi ->
  I lo s m ->
  (forall i s' m', lo <= i < hi -> I i s' m' -> wp (body i s') (I (S i)) m') ->
  wp (fold_ lo hi body s) (I hi) m.
Proof.
  intros Hle Hlo Hstep. unfold fold_.
  replace hi with (lo + (hi - lo)) at 2 by lia.
  apply wp_fold_loop; [done |]. intros k s' m' Hk. apply Hstep. lia.
Qed.

(** A loop that only reads, and whose read [k] is out of range. *)
Lemma fold_loop_fault {T} (body : nat -> T -> prog F T) X n i k s m :
  i <= k < i + n ->
  (forall j s', i <= j < k -> exists s'', body j s' m = Done s'' m) ->
  (forall s', body k s' m = OutOfBounds X k) ->
  fold_loop n i body s m = OutOfBounds X k.
Proof.
  revert i s. induction n as [|n IH]; intros i s Hk Hok Hbad; [lia |].
  simpl. unfold bind. destruct (decide (i = k)) as [->|Hne].
  - by rewrite Hbad.
  - destruct (Hok i s ltac:(lia)) as [s'' ->].
    apply IH; [lia | | done]. intros j s' Hj. apply Hok. lia.
Qed.

Lemma total_snoc l (a : F) : total (l ++ [a]) = (total l + a)%fl.
Proof. unfold total. by rewrite fold_left_app. Qed.

Lemma take_snoc l n : n < length l -> take (S n) l = take n l ++ [l !!! n].
Proof.
  intros Hn. apply take_S_r. by apply list_lookup_lookup_total_lt.
Qed.

Lemma mean_spec x n m :
  n <= length (m x) ->
  wp (mean x n)
    (fun r m' => m' = m /\ r = (total (take n (m x)) / of_nat n)%fl) m.
Proof.
  intros Hn. unfold mean.
  wp_loop (wp_fold (fun k s m' => m' = m /\ s = total (take k (m x)))).
  { lia. }
  { done. }
  { intros i s m' Hi [-> ->]. wp_run. split; [done |].
    by rewrite take_snoc, total_snoc by lia. }
  intros s m' [-> ->]. cbv beta. by wp_run.
Qed.

(** X14.  [mean] reads [x[0]], ..., [x[length - 1]] in this order: on
    an array with fewer than [length] cells it reads the cell after the
    last. *)
Theorem mean_overruns_short_array x n m :
  (Z.of_nat n < 65536)%Z ->
  length (m x) < n ->
  mean x n m = OutOfBounds x (length (m x)).
Proof.
  intros _ Hn. unfold mean. apply fault_then. unfold fold_.
  apply (fold_loop_fault _ x (n - 0) 0 (length (m x))).
  - lia.
  - intros j s' Hj. exists (s' + m x !!! j)%fl.
    unfold bind, load, ret. by destruct (Nat.ltb_spec j (length (m x))); [| lia].
  - intros s'. apply fault_then, load_fault. lia.
Qed.

Lemma stddev_spec x n m :
  n <= length (m x) ->
  wp (stddev x n)
    (fun r m' =>
       m' = m /\
       let mu := (total (take n (m x)) / of_nat n)%fl in
       r = fsqrt
             (total ((fun v => ((v - mu) * (v - mu))%fl) <$> take n (m x))
              / of_nat n)%fl) m.
Proof.
  intros Hn. unfold stddev.
  wp_head. eapply wp_mono; [by apply mean_spec |].
  intros mu m' [-> ->]. cbv beta.
  set (mu := (total (take n (m x)) / of_nat n)%fl).
  wp_loop (wp_fold (fun k s m' =>
    m' = m /\
    s = total ((fun v => ((v - mu) * (v - mu))%fl) <$> take k (m x)))).
  { lia. }
  { done. }
  { intros i s m' Hi [-> ->]. wp_run. split; [done |].
    rewrite take_snoc, fmap_app by lia. cbn [fmap list_fmap].
    by rewrite total_snoc. }
  intros s m' [-> ->]. cbv beta. by wp_run.
Qed.
End FoldLoops.

(** ** Mean and standard deviation *)

Section Statistics.
Context {F : Type} `{Scalar F}.
Implicit Types (m : mem F) (l : list F).

(** X15.  [mean] adds [x[0]], ..., [x[length - 1]] to zero in this order
    and returns the sum divided by [length] converted to [float]; it
    writes no array. *)
Theorem mean_is_accumulated_sum_over_length x n m :
  (Z.of_nat n < 65536)%Z ->
  n <= length (m x) ->
  mean x n m = Done (total (take n (m x)) / of_nat n)%fl m.
Proof.
  intros _ Hlen.
  destruct (wp_done _ _ m (mean_spec x n m Hlen)) as (r & m' & Hrun & -> & ->).
  exact Hrun.
Qed.

(** X16.  [stddev] calls [mean], adds the squares [(x[i] - mu) * (x[i] -
    mu)] of the deviations from its result [mu] to zero in the order of
    the subscripts, and returns the square root of the sum divided by
    [length] (not by [length - 1]); it writes no array. *)
Theorem stddev_is_root_of_mean_square x n m :
  (Z.of_nat n < 65536)%Z ->
  n <= length (m x) ->
  exists mu,
    mean x n m = Done mu m /\
    stddev x n m =
    Done (fsqrt (total ((fun v => ((v - mu) * (v - mu))%fl) <$> take n (m x))
                 / of_nat n)%fl) m.
Proof.
  intros _ Hlen.
  destruct (wp_done _ _ m (mean_spec x n m Hlen)) as (mu & m1 & Hmean & -> & Hmu).
  destruct (wp_done _ _ m (stddev_spec x n m Hlen)) as (r & m' & Hrun & -> & Hr).
  cbv zeta in Hr. rewrite <- Hmu in Hr. subst r.
  exists mu. split; [exact Hmean | exact Hrun].
Qed.
End Statistics.

(** ** Forward substitution *)

Section ForwardSubstitution.
Context {F : Type} `{Scalar F}.
Implicit Types (m : mem F) (X Y : arr) (l : list F).

Lemma row_sum_S (A x : list F) row i n :
  row_sum A x row i (S n) =
  (row_sum A x row i n + A !!! (row * i + n)%nat * x !!! n)%fl.
Proof. unfold row_sum. by rewrite seq_S, fold_left_app. Qed.

(** The sum of the first [n] terms reads the first [n] cells of [x]. *)
Lemma row_sum_ext (A x x' : list F) row i n :
  (forall j, j < n -> x !!! j = x' !!! j) ->
  row_sum A x row i n = row_sum A x' row i n.
Proof.
  intros Hx. induction n as [|n IH]; [done |].
  rewrite !row_sum_S, IH, (Hx n) by (intros; auto with lia). done.
Qed.

Lemma linsolve_lower_triangular_spec (A x b : arr) (row : nat) m :
  x <> A -> x <> b ->
  row * row <= length (m A) ->
  row <= length (m x) ->
  row <= length (m b) ->
  wp (linsolve_lower_triangular A x b row)
    (fun _ m' =>
       (forall Y, Y <> x -> m' Y = m Y) /\
       length (m' x) = length (m x) /\
       (forall i, i < row ->
          m' x !!! i =
          ((m b !!! i - row_sum (m A) (m' x) row i i)
           / m A !!! (row * i + i)%nat)%fl) /\
       (forall i, row <= i -> m' x !!! i = m x !!! i)) m.
Proof.
  intros HxA Hxb HA Hx Hb. unfold linsolve_lower_triangular, memset0.
  wp_run.
  set (m0 := upd x _ _).
  assert (Hm0 : forall Y, Y <> x -> m0 Y = m Y).
  { intros Y ?. unfold m0. by mem_simpl. }
  assert (Hl0 : length (m0 x) = length (m x)).
  { unfold m0. mem_simpl. lia. }
  assert (Hge0 : forall i, row <= i -> m0 x !!! i = m x !!! i).
  { intros i Hi. unfold m0. mem_simpl.
    rewrite lookup_total_app_r by (mem_simpl; lia).
    mem_simpl. rewrite lookup_total_drop. f_equal. lia. }
  eapply wp_mono.
  - apply (wp_for (fun n m' =>
       (forall Y, Y <> x -> m' Y = m Y) /\
       length (m' x) = length (m x) /\
       (forall i, i < n ->
          m' x !!! i =
          ((m b !!! i - row_sum (m A) (m' x) row i i)
           / m A !!! (row * i + i)%nat)%fl) /\
       (forall i, row <= i -> m' x !!! i = m x !!! i))); [lia | |].
    + split; [done |]. split; [done |]. split; [intros; lia | done].
    + intros i m1 Hi (Hfr & Hlen & Hsol & Hge).
      wp_loop (wp_fold (fun j s m' =>
        m' = m1 /\ s = row_sum (m A) (m1 x) row i j)).
      { lia. }
      { done. }
      { intros j s m' Hj [-> ->].
        wp_step by (rewrite Hfr by done; nia).
        wp_step. wp_step. split; [done |].
        by rewrite row_sum_S, (Hfr A) by done. }
      intros s m' [-> ->]. cbv beta.
      wp_step by (rewrite Hfr by done; lia).
      wp_step by (rewrite Hfr by done; nia).
      wp_step.
      rewrite (Hfr b), (Hfr A) by done.
      split; [intros Y ?; mem_simpl; auto |].
      split; [by mem_simpl |]. split.
      * intros k Hk. mem_simpl. destruct (decide (k = i)) as [->|Hne].
        -- rewrite list_lookup_total_insert_eq by lia.
           f_equal. f_equal. apply row_sum_ext. intros j Hj.
           by rewrite list_lookup_total_insert_ne by lia.
        -- rewrite list_lookup_total_insert_ne by done.
           rewrite Hsol by lia. f_equal. f_equal. apply row_sum_ext.
           intros j Hj. by rewrite list_lookup_total_insert_ne by lia.
      * intros k Hk. mem_simpl.
        rewrite list_lookup_total_insert_ne by lia. by apply Hge.
  - intros [] m' Hm'. exact Hm'.
Qed.

(** X17.  [linsolve_lower_triangular] clears [x] and substitutes forward:
    for distinct arrays of sufficient size and [row <= 46340] (where the
    [int] subscript [row * i + j] does not overflow) it completes with
    [x[i] = (b[i] - sum) / A[i,i]] for every row [i], where [sum]
    accumulates [A[i,j] * x[j]] from zero for [j = 0, ..., i - 1]; the
    entries of [A] above the diagonal are not read.  The cells of [x] from
    [row] on and every other array are left as they are. *)
Theorem linsolve_lower_triangular_substitutes_forward
    (A x b : arr) (row : nat) m :
  x <> A -> x <> b ->
  (Z.of_nat row <= 46340)%Z ->
  row * row <= length (m A) ->
  row <= length (m x) ->
  row <= length (m b) ->
  exists m',
    linsolve_lower_triangular A x b row m = Done tt m' /\
    (forall Y, Y <> x -> m' Y = m Y) /\
    length (m' x) = length (m x) /\
    (forall i, i < row ->
       m' x !!! i =
       ((m b !!! i - row_sum (m A) (m' x) row i i)
        / m A !!! (row * i + i)%nat)%fl) /\
    (forall i, row <= i -> m' x !!! i = m x !!! i).
Proof.
  intros HxA Hxb _ HA Hx Hb.
  destruct (wp_done _ _ m
    (linsolve_lower_triangular_spec A x b row m HxA Hxb HA Hx Hb))
    as ([] & m' & Hrun & Hpost).
  by exists m'.
Qed.
End ForwardSubstitution.

(** ** The zero-phase filter *)

Section Filter.
Context {F : Type} `{Scalar F}.
Implicit Types (m : mem F) (X Y : arr) (l : list F).

Lemma flip_spec (y : arr) (n : nat) m :
  n <= length (m y) ->
  wp (flip y n)
    (fun _ m' =>
       (forall Y, Y <> y -> m' Y = m Y) /\
       length (m' y) = length (m y) /\
       (forall i, i < n -> m' y !!! i = m y !!! (n - 1 - i)) /\
       (forall i, n <= i -> m' y !!! i = m y !!! i)) m.
Proof.
  intros Hn. unfold flip. eapply wp_mono.
  - apply (wp_for (fun k m' =>
       (forall Y, Y <> y -> m' Y = m Y) /\
       length (m' y) = length (m y) /\
       (forall i, i < k \/ n - k <= i < n -> m' y !!! i = m y !!! (n - 1 - i)) /\
       (forall i, k <= i < n - k \/ n <= i -> m' y !!! i = m y !!! i)));
      [lia | |].
    + split; [done |]. split; [done |]. split; [intros; lia | done].
    + intros k m1 Hk (Hfr & Hlen & Hdone & Htodo).
      assert (2 * k + 2 <= n) as Hk2.
      { pose proof (Nat.div_mod_eq n 2).
        pose proof (Nat.mod_upper_bound n 2 ltac:(lia)). lia. }
      wp_run. mem_simpl.
      rewrite (Htodo k), (Htodo (n - 1 - k)) by lia.
      split; [intros Y ?; mem_simpl; auto |].
      split; [by mem_simpl |].
      split.
      * intros i Hi. mem_simpl.
        destruct (decide (i = n - 1 - k)) as [->|Hne1].
        { rewrite list_lookup_total_insert_eq by (mem_simpl; lia).
          f_equal. lia. }
        rewrite list_lookup_total_insert_ne by done.
        destruct (decide (i = k)) as [->|Hne2].
        { by rewrite list_lookup_total_insert_eq by lia. }
        rewrite list_lookup_total_insert_ne by done.
        apply Hdone. lia.
      * intros i Hi. mem_simpl.
        rewrite !list_lookup_total_insert_ne by lia.
        apply Htodo. lia.
  - intros [] m' (Hfr & Hlen & Hdone & Htodo). cbv beta.
    split; [done |]. split; [done |]. split.
    + intros i Hi.
      pose proof (Nat.div_mod_eq n 2).
      pose proof (Nat.mod_upper_bound n 2 ltac:(lia)).
      destruct (decide (i < n / 2 \/ n - n / 2 <= i)) as [Hout|Hmid].
      * apply Hdone. lia.
      * rewrite Htodo by lia. f_equal. lia.
    + intros i Hi. apply Htodo. lia.
Qed.

(** Values in a set [P] that the filter step does not leave. *)
Lemma simulation_spec (P : F -> Prop) (K : F) (y t : arr) (n : nat) m :
  y <> t ->
  1 <= length (m y) ->
  n <= length (m y) ->
  2 <= length (m t) ->
  (forall x v,
     P x -> P v ->
     P (x + (m t !!! 1 - m t !!! 0) * ((fzero - fone) / K * x + fone / K * v))%fl) ->
  P (m y !!! 0) ->
  (forall i, i < n -> P (m y !!! i)) ->
  wp (simulation K y t n)
    (fun _ m' =>
       (forall Y, Y <> y -> m' Y = m Y) /\
       length (m' y) = length (m y) /\
       (forall i, i < n -> P (m' y !!! i)) /\
       (forall i, n <= i -> m' y !!! i = m y !!! i)) m.
Proof.
  intros Hyt Hy1 Hn Ht Hstep H0 HP. unfold simulation.
  wp_run.
  wp_loop (wp_fold (fun k x m' =>
       (forall Y, Y <> y -> m' Y = m Y) /\
       length (m' y) = length (m y) /\
       P x /\
       (forall i, i < k -> P (m' y !!! i)) /\
       (forall i, k <= i -> m' y !!! i = m y !!! i))).
  { lia. }
  { split; [done |]. split; [done |]. split; [done |]. split; [intros; lia | done]. }
  { intros k x m1 Hk (Hfr & Hlen & Hx & Hlt & Hge).
    wp_run. rewrite (Hge k) by lia.
    assert (P (x + (m t !!! 1 - m t !!! 0) *
               ((fzero - fone) / K * x + fone / K * m y !!! k))%fl) as Hx'.
    { apply Hstep; [done | apply HP; lia]. }
    split; [intros Y ?; mem_simpl; auto |].
    split; [by mem_simpl |]. split; [done |]. split.
    - intros i Hi. mem_simpl. destruct (decide (i = k)) as [->|Hne].
      + by rewrite list_lookup_total_insert_eq by lia.
      + rewrite list_lookup_total_insert_ne by done. apply Hlt. lia.
    - intros i Hi. mem_simpl. rewrite list_lookup_total_insert_ne by lia.
      apply Hge. lia. }
  intros x m' (Hfr & Hlen & _ & Hlt & Hge). cbv beta. wp_run. done.
Qed.

Lemma filtfilt_spec (P : F -> Prop) (K : F) (y t : arr) (n : nat) m :
  y <> t ->
  1 <= n <= length (m y) ->
  2 <= length (m t) ->
  (forall x v,
     P x -> P v ->
     P (x + (m t !!! 1 - m t !!! 0) * ((fzero - fone) / K * x + fone / K * v))%fl) ->
  (forall i, i < n -> P (m y !!! i)) ->
  wp (filtfilt y t n K)
    (fun _ m' =>
       (forall Y, Y <> y -> m' Y = m Y) /\
       length (m' y) = length (m y) /\
       (forall i, i < n -> P (m' y !!! i)) /\
       (forall i, n <= i -> m' y !!! i = m y !!! i)) m.
Proof.
  intros Hyt Hn Ht Hstep HP. unfold filtfilt.
  wp_head. eapply wp_mono.
  { apply (simulation_spec P); [done | lia | lia | done | done | apply HP; lia | done]. }
  intros [] m1 (Hfr1 & Hlen1 & HP1 & Hge1). cbv beta.
  wp_head. eapply wp_mono; [apply flip_spec; lia |].
  intros [] m2 (Hfr2 & Hlen2 & Hrev2 & Hge2). cbv beta.
  assert (HP2 : forall i, i < n -> P (m2 y !!! i)).
  { intros i Hi. rewrite Hrev2 by done. apply HP1. lia. }
  wp_head. eapply wp_mono.
  { apply (simulation_spec P); [done | lia | lia | | | apply HP2; lia | done].
    - rewrite Hfr2, Hfr1 by done. lia.
    - rewrite Hfr2, Hfr1 by done. exact Hstep. }
  intros [] m3 (Hfr3 & Hlen3 & HP3 & Hge3). cbv beta.
  eapply wp_mono; [apply flip_spec; lia |].
  intros [] m4 (Hfr4 & Hlen4 & Hrev4 & Hge4). cbv beta.
  split; [intros Y ?; by rewrite Hfr4, Hfr3, Hfr2, Hfr1 by done |].
  split; [congruence |]. split.
  - intros i Hi. rewrite Hrev4 by done. apply HP3. lia.
  - intros i Hi. by rewrite Hge4, Hge3, Hge2, Hge1 by done.
Qed.

(** X18.  [flip] reverses the first [l] cells of [y] and leaves the
    rest of [y] and every other array as they are. *)
Theorem flip_reverses (y : arr) (n : nat) m :
  (Z.of_nat n < 65536)%Z ->
  n <= length (m y) ->
  exists m',
    flip y n m = Done tt m' /\
    m' y = reverse (take n (m y)) ++ drop n (m y) /\
    (forall Y, Y <> y -> m' Y = m Y).
Proof.
  intros _ Hn.
  destruct (wp_done _ _ m (flip_spec y n m Hn))
    as ([] & m' & Hrun & Hfr & Hlen & Hrev & Hge).
  exists m'. split; [done |]. split; [| done].
  apply list_eq_lookup_total.
  - rewrite Hlen, length_app, length_reverse, length_take, length_drop. lia.
  - intros i Hi. destruct (decide (i < n)) as [Hlt|Hnlt].
    + rewrite Hrev by done.
      rewrite lookup_total_app_l by (rewrite length_reverse, length_take; lia).
      symmetry. apply list_lookup_total_correct.
      rewrite reverse_lookup by (rewrite length_take; lia).
      rewrite length_take, lookup_take_lt by lia.
      rewrite (list_lookup_lookup_total_lt (m y)) by lia.
      do 2 f_equal. lia.
    + rewrite Hge by lia.
      rewrite lookup_total_app_r by (rewrite length_reverse, length_take; lia).
      rewrite length_reverse, length_take, lookup_total_drop. f_equal. lia.
Qed.

(** X19.  Flipping twice gives back the array. *)
Theorem flip_twice_restores (y : arr) (n : nat) m :
  (Z.of_nat n < 65536)%Z ->
  n <= length (m y) ->
  exists m1 m2,
    flip y n m = Done tt m1 /\
    flip y n m1 = Done tt m2 /\
    forall Y, m2 Y = m Y.
Proof.
  intros _ Hn.
  destruct (wp_done _ _ m (flip_spec y n m Hn))
    as ([] & m1 & Hrun1 & Hfr1 & Hlen1 & Hrev1 & Hge1).
  destruct (wp_done _ _ m1 (flip_spec y n m1 ltac:(lia)))
    as ([] & m2 & Hrun2 & Hfr2 & Hlen2 & Hrev2 & Hge2).
  exists m1, m2. split; [done |]. split; [done |].
  intros Y. destruct (decide (Y = y)) as [->|Hne].
  - apply list_eq_lookup_total; [congruence |].
    intros i Hi. destruct (decide (i < n)).
    + rewrite Hrev2, Hrev1 by lia. f_equal. lia.
    + by rewrite Hge2, Hge1 by lia.
  - by rewrite Hfr2, Hfr1.
Qed.

(** X20.  [filtfilt] reads [t[1]] before anything else: with a single
    time stamp, as for a signal of one sample, it reads past the end of
    [t]. *)
Theorem filtfilt_one_sample_overruns_t (K : F) (y t : arr) (n : nat) m :
  length (m t) = 1 ->
  filtfilt y t n K m = OutOfBounds t 1.
Proof.
  intros Ht. unfold filtfilt, simulation.
  apply fault_then, fault_then, load_fault. lia.
Qed.

(** X21.  On [l >= 1] samples and at least two time stamps, [filtfilt]
    completes with every subscript in range; it writes the first [l]
    cells of [y] only.  Every set of floats that holds the samples and
    that the Euler step [x + (t[1] - t[0]) * ((0 - 1) / K * x + 1 / K * v)]
    does not leave holds the filtered samples. *)
Theorem filtfilt_stays_in_closed_sets
    (P : F -> Prop) (K : F) (y t : arr) (n : nat) m :
  y <> t ->
  (Z.of_nat n < 65536)%Z ->
  1 <= n <= length (m y) ->
  2 <= length (m t) ->
  (forall x v,
     P x -> P v ->
     P (x + (m t !!! 1 - m t !!! 0) * ((fzero - fone) / K * x + fone / K * v))%fl) ->
  (forall i, i < n -> P (m y !!! i)) ->
  exists m',
    filtfilt y t n K m = Done tt m' /\
    (forall Y, Y <> y -> m' Y = m Y) /\
    length (m' y) = length (m y) /\
    (forall i, i < n -> P (m' y !!! i)) /\
    (forall i, n <= i -> m' y !!! i = m y !!! i).
Proof.
  intros Hyt _ Hn Ht Hstep HP.
  destruct (wp_done _ _ m (filtfilt_spec P K y t n m Hyt Hn Ht Hstep HP))
    as ([] & m' & Hrun & Hpost).
  by exists m'.
Qed.
End Filter.

(** ** Binary32: an empty vector *)

Section EmptyVector.
(** X22.  In binary32 the mean and the standard deviation of no cells
    at all are [0 / 0], not a number, whatever the array is. *)
Theorem mean_of_nothing_is_nan (x : arr) (m : mem b32) :
  mean x 0 m = Done S754_nan m /\ stddev x 0 m = Done S754_nan m.
Proof. split; reflexivity. Qed.
End EmptyVector.

Section OtherExamples.
Lemma sr_ukf_huge_dimension_overruns_W_witness :
  sr_ukf_parameter_estimation qr_of_zero cholupdate_by_zero inv_of_singular
    G_zero quarter b32_one b32_two 128 (sample 128) = OutOfBounds Arr.W 128.
Proof.
  apply (sr_ukf_huge_dimension_overruns_W (F := b32) qr_of_zero
           cholupdate_by_zero inv_of_singular G_zero
           quarter b32_one b32_two 128 (sample 128));
    [lia | vm_compute; reflexivity | vm_compute; reflexivity].
Defined.

Lemma mean_overruns_short_array_witness :
  mean Arr.d 3 (sample (F := b32) 2) = OutOfBounds Arr.d 2.
Proof.
  apply (mean_overruns_short_array (F := b32) Arr.d 3 (sample 2)).
  - lia.
  - vm_compute. lia.
Defined.

Lemma mean_is_accumulated_sum_over_length_witness :
  mean Arr.Sw 4 (sample (F := b32) 2)
  = Done (S754_finite false 10485760 (-22)) (sample 2).
Proof.
  etrans.
  - apply (mean_is_accumulated_sum_over_length (F := b32) Arr.Sw 4 (sample 2)).
    + lia.
    + simpl. lia.
  - vm_compute. reflexivity.
Defined.

Lemma stddev_is_root_of_mean_square_witness :
  exists r : b32,
    stddev Arr.Sw 4 (sample (F := b32) 2) = Done r (sample 2) /\
    r = S754_finite false 9378749 (-23).
Proof.
  destruct (stddev_is_root_of_mean_square (F := b32) Arr.Sw 4 (sample 2))
    as (mu & Hmean & Hrun).
  - lia.
  - simpl. lia.
  - eexists. split; [exact Hrun |].
    assert (mu = S754_finite false 10485760 (-22)) as ->.
    { assert (Done mu (sample 2) = mean Arr.Sw 4 (sample (F := b32) 2)) as Hmu
        by (symmetry; exact Hmean).
      vm_compute in Hmu. by injection Hmu. }
    vm_compute. reflexivity.
Defined.

Lemma linsolve_lower_triangular_substitutes_forward_witness :
  exists m' : mem b32,
    linsolve_lower_triangular Arr.Re Arr.what Arr.d 2 (sample 2) = Done tt m' /\
    m' Arr.what !!! 0 = b32_one /\
    m' Arr.Re = sample 2 Arr.Re /\
    m' Arr.d = sample 2 Arr.d.
Proof.
  destruct (linsolve_lower_triangular_substitutes_forward (F := b32)
              Arr.Re Arr.what Arr.d 2 (sample 2))
    as (m' & Hrun & Hfr & _ & Hx & _).
  - discriminate.
  - discriminate.
  - lia.
  - simpl. lia.
  - simpl. lia.
  - simpl. lia.
  - exists m'. split; [exact Hrun |]. split.
    + etrans; [exact (Hx 0 ltac:(lia)) | vm_compute; reflexivity].
    + split; apply Hfr; discriminate.
Defined.

Lemma flip_reverses_witness :
  exists m' : mem b32,
    flip Arr.W 5 (sample 2) = Done tt m' /\
    m' Arr.W = of_nat <$> [5; 4; 3; 2; 1; 6; 7; 8; 9; 10].
Proof.
  destruct (flip_reverses (F := b32) Arr.W 5 (sample 2)) as (m' & Hrun & HW & _).
  - lia.
  - vm_compute. lia.
  - exists m'. split; [exact Hrun |]. rewrite HW. reflexivity.
Defined.

Lemma flip_twice_restores_witness :
  exists m1 m2 : mem b32,
    flip Arr.W 5 (sample 2) = Done tt m1 /\
    flip Arr.W 5 m1 = Done tt m2 /\
    m2 Arr.W = sample 2 Arr.W.
Proof.
  destruct (flip_twice_restores (F := b32) Arr.W 5 (sample 2))
    as (m1 & m2 & Hrun1 & Hrun2 & Hsame).
  - lia.
  - vm_compute. lia.
  - exists m1, m2. split; [exact Hrun1 |]. split; [exact Hrun2 | apply Hsame].
Defined.

Lemma filtfilt_one_sample_overruns_t_witness :
  filtfilt Arr.d Arr.x 1 b32_two (sample 1) = OutOfBounds Arr.x 1.
Proof.
  apply (filtfilt_one_sample_overruns_t (F := b32)). reflexivity.
Defined.

Lemma filtfilt_stays_in_closed_sets_witness :
  exists m' : mem b32,
    filtfilt Arr.Sw Arr.d 4 b32_two
      (upd Arr.Sw (replicate 4 b32_one) (sample 2)) = Done tt m' /\
    m' Arr.Sw !!! 2 = b32_one /\
    m' Arr.d = sample 2 Arr.d.
Proof.
  destruct (filtfilt_stays_in_closed_sets (F := b32) (fun v => v = b32_one)
              b32_two Arr.Sw Arr.d 4
              (upd Arr.Sw (replicate 4 b32_one) (sample 2)))
    as (m' & Hrun & Hfr & _ & Hin & _).
  - discriminate.
  - lia.
  - simpl. lia.
  - simpl. lia.
  - intros x v -> ->. vm_compute. reflexivity.
  - intros [|[|[|[|i]]]] Hi; [reflexivity .. | lia].
  - exists m'. split; [exact Hrun |]. split; [apply Hin; lia |].
    apply Hfr. discriminate.
Defined.
End OtherExamples.
